(** * Message-passing examples: ring, ping-pong, deadlock and racy counter

    A shallow embedding of the four MPI example programs
    ([mpi_ring.c], [mpi_pingpong.c], [mpi_deadlock.c],
    [mpi_race_condition.c]).  Every [main] is written as a term of a small
    free monad [prog] whose operations are the runtime calls the C code
    makes; the runtime itself (blocking tagged send/receive, collectives,
    the one-sided window) is an interleaving step relation on the
    configuration of all ranks. *)

From Stdlib Require Import ZArith List Lia Bool Arith PeanoNat.
From Stdlib Require Strings.String Strings.Ascii.
From Stdlib Require Import Floats.PrimFloat Numbers.Cyclic.Int63.Uint63.
From Stdlib Require Floats.SpecFloat Floats.FloatOps Floats.FloatAxioms.
Import ListNotations.
Import String.StringSyntax Ascii.AsciiSyntax.
Abbreviation string := String.string.
Delimit Scope string_scope with string.
Local Open Scope list_scope.
Local Open Scope Z_scope.

(* ================================================================= *)
(** ** C [int] arithmetic *)

(** [int] is 32 bits wide.  Results are reduced to the two's complement
    range, which is what the target machines do on overflow. *)
Module CInt.

Definition INT_MAX : Z := 2147483647.
Definition INT_MIN : Z := -2147483648.

Definition wrap (x : Z) : Z := (x + 2 ^ 31) mod 2 ^ 32 - 2 ^ 31.

Definition add (a b : Z) : Z := wrap (a + b).
Definition sub (a b : Z) : Z := wrap (a - b).
Definition mul (a b : Z) : Z := wrap (a * b).
(** C's [%] truncates toward zero. *)
Definition rem (a b : Z) : Z := Z.rem a b.

Definition in_range (x : Z) : Prop := INT_MIN <= x <= INT_MAX.

End CInt.

Notation "a +! b" := (CInt.add a b) (at level 50, left associativity).
Notation "a -! b" := (CInt.sub a b) (at level 50, left associativity).
Notation "a *! b" := (CInt.mul a b) (at level 40, left associativity).
Notation "a %! b" := (CInt.rem a b) (at level 40, left associativity).

(** Conversion [int -> double], as in [2.0 * iters]. *)
Definition double_of_int (z : Z) : float :=
  if z <? 0 then PrimFloat.opp (of_uint63 (Uint63.of_Z (- z)))
  else of_uint63 (Uint63.of_Z z).

(* ================================================================= *)
(** ** Runtime calls *)

Inductive stream : Set := stdout | stderr.

(** A variadic [printf] argument. *)
Inductive arg : Set :=
| AInt (z : Z)
| ADouble (d : float).

(** Calls that complete locally, without waiting for any other rank. *)
Inductive call : Set :=
| CInit
| CFinalize
| CPrintf (s : stream) (fmt : string) (args : list arg)
| CFflush (s : stream)
| CUsleep (us : Z)
| CFree
| CAllocMem (bytes : Z)
| CFreeMem.

Arguments CPrintf s fmt%_string args%_list.

Inductive datatype : Set := MPI_INT | MPI_CHAR.

(** Collective calls that every rank of the world has to enter before any
    rank leaves. *)
Inductive collective : Set :=
| Barrier
| WinCreate
| WinFence
| WinFree.

(** A message in flight: envelope and contents. *)
Record message : Set := Msg {
  src : Z;
  dst : Z;
  tag : Z;
  ty : datatype;
  data : list Z
}.

(** What a rank is observed to do; also the per-rank log entry. *)
Inductive act : Set :=
| ACall (c : call)
| AMalloc (n : Z) (bytes : list Z)
| AWtime (t : float)
| ASend (m : message)
| ARecv (m : message)
| ASync (c : collective)
| AGet (v : Z)
| APut (v : Z)
| ALoad (v : Z)
| AStore (v : Z).

(* ================================================================= *)
(** ** Programs *)

(** A rank's code: a tree of runtime calls ending in a result. *)
Inductive prog (A : Type) : Type :=
| Ret (a : A)
| Call (c : call) (k : prog A)
| Malloc (n : Z) (k : list Z -> prog A)
| Wtime (k : float -> prog A)
| Send (payload : list Z) (t : datatype) (dest tg : Z) (k : prog A)
| Recv (count : Z) (t : datatype) (source tg : Z) (k : list Z -> prog A)
| Sync (c : collective) (k : prog A)
| Get (target disp : Z) (k : Z -> prog A)
| Put (v : Z) (target disp : Z) (k : prog A)
| Load (k : Z -> prog A)
| Store (v : Z) (k : prog A).

Arguments Ret {A} a.
Arguments Call {A} c k.
Arguments Malloc {A} n k.
Arguments Wtime {A} k.
Arguments Send {A} payload t dest tg k.
Arguments Recv {A} count t source tg k.
Arguments Sync {A} c k.
Arguments Get {A} target disp k.
Arguments Put {A} v target disp k.
Arguments Load {A} k.
Arguments Store {A} v k.

Fixpoint bind {A B : Type} (m : prog A) (f : A -> prog B) : prog B :=
  match m with
  | Ret a => f a
  | Call c k => Call c (bind k f)
  | Malloc n k => Malloc n (fun b => bind (k b) f)
  | Wtime k => Wtime (fun t => bind (k t) f)
  | Send p t d g k => Send p t d g (bind k f)
  | Recv n t s g k => Recv n t s g (fun b => bind (k b) f)
  | Sync c k => Sync c (bind k f)
  | Get t d k => Get t d (fun v => bind (k v) f)
  | Put v t d k => Put v t d (bind k f)
  | Load k => Load (fun v => bind (k v) f)
  | Store v k => Store v (bind k f)
  end.

Notation "x <- m ;; k" := (bind m (fun x => k))
  (at level 61, m at next level, right associativity).
Notation "m ;; k" := (bind m (fun _ => k))
  (at level 61, right associativity).

(** [for (i = lo; ...; i++) s = body(i, s)], run [n] times. *)
Fixpoint for_loop {S : Type} (n : nat) (i : Z) (body : Z -> S -> prog S)
  (s : S) : prog S :=
  match n with
  | O => Ret s
  | Datatypes.S n' => s' <- body i s ;; for_loop n' (i +! 1) body s'
  end.

(** *** The calls the examples use *)

Definition MPI_Init : prog unit := Call CInit (Ret tt).
Definition MPI_Finalize : prog unit := Call CFinalize (Ret tt).
Definition MPI_Alloc_mem (bytes : Z) : prog unit := Call (CAllocMem bytes) (Ret tt).
Definition MPI_Free_mem : prog unit := Call CFreeMem (Ret tt).
Definition MPI_Wtime : prog float := Wtime (fun t => Ret t).
Definition MPI_Barrier : prog unit := Sync Barrier (Ret tt).
Definition MPI_Win_create : prog unit := Sync WinCreate (Ret tt).
Definition MPI_Win_fence : prog unit := Sync WinFence (Ret tt).
Definition MPI_Win_free : prog unit := Sync WinFree (Ret tt).
Definition MPI_Get (target disp : Z) : prog Z := Get target disp (fun v => Ret v).
Definition MPI_Put (v : Z) (target disp : Z) : prog unit := Put v target disp (Ret tt).
Definition printf (fmt : string) (args : list arg) : prog unit :=
  Call (CPrintf stdout fmt args) (Ret tt).
Definition fprintf (s : stream) (fmt : string) (args : list arg) : prog unit :=
  Call (CPrintf s fmt args) (Ret tt).
Arguments printf fmt%_string args%_list.
Arguments fprintf s fmt%_string args%_list.
Definition fflush (s : stream) : prog unit := Call (CFflush s) (Ret tt).
Definition usleep (us : Z) : prog unit := Call (CUsleep us) (Ret tt).
Definition free : prog unit := Call CFree (Ret tt).
Definition malloc (n : Z) : prog (list Z) := Malloc n (fun b => Ret b).
Definition skip : prog unit := Ret tt.

(** [memset(buf, c, n)] overwrites the first [n] bytes. *)
Definition memset (buf : list Z) (c : Z) (n : Z) : list Z :=
  repeat c (Z.to_nat n) ++ skipn (Z.to_nat n) buf.

(** [MPI_Send(buf, count, ...)] transmits the first [count] elements. *)
Definition MPI_Send (buf : list Z) (count : Z) (t : datatype) (dest tg : Z)
  : prog unit :=
  Send (firstn (Z.to_nat count) buf) t dest tg (Ret tt).

(** [MPI_Recv(buf, count, ...)] overwrites the front of [buf] with the
    message and returns the buffer. *)
Definition MPI_Recv (buf : list Z) (count : Z) (t : datatype) (source tg : Z)
  : prog (list Z) :=
  Recv count t source tg (fun d => Ret (d ++ skipn (length d) buf)).

(** The same for a single [int] variable passed by address. *)
Definition MPI_Recv_int (var : Z) (source tg : Z) : prog Z :=
  buf <- MPI_Recv [var] 1 MPI_INT source tg ;; Ret (nth 0 buf var).

(* ================================================================= *)
(** ** The runtime: local steps of one rank *)

(** [lstep r p a p']: rank [r] running [p] performs [a] and continues as
    [p'].  What the environment supplies (the bytes of fresh memory, the
    clock, a message, the window contents) is arbitrary here and is tied
    down by the global step below.  A receive accepts a message of at most
    [count] elements; the window exposes one [int], the counter of rank 0,
    at displacement 0. *)
Inductive lstep (r : nat) : prog Z -> act -> prog Z -> Prop :=
| L_call c k :
    lstep r (Call c k) (ACall c) k
| L_malloc n k bytes :
    length bytes = Z.to_nat n ->
    lstep r (Malloc n k) (AMalloc n bytes) (k bytes)
| L_wtime k t :
    lstep r (Wtime k) (AWtime t) (k t)
| L_send p t d g k :
    lstep r (Send p t d g k) (ASend (Msg (Z.of_nat r) d g t p)) k
| L_recv n t s g k p :
    Z.of_nat (length p) <= n ->
    lstep r (Recv n t s g k) (ARecv (Msg s (Z.of_nat r) g t p)) (k p)
| L_sync c k :
    lstep r (Sync c k) (ASync c) k
| L_get k v :
    lstep r (Get 0 0 k) (AGet v) (k v)
| L_put k v :
    lstep r (Put v 0 0 k) (APut v) k
| L_load k v :
    lstep r (Load k) (ALoad v) (k v)
| L_store k v :
    lstep r (Store v k) (AStore v) k.

(** Actions that involve the issuing rank only. *)
Definition internal (a : act) : Prop :=
  match a with
  | ACall _ | AMalloc _ _ | AWtime _ => True
  | _ => False
  end.

(* ================================================================= *)
(** ** The runtime: configurations and global steps *)

(** The world: the code each rank still has to run, what each rank has
    done so far, the messages in flight (oldest first), and the [int]
    behind the window ([*shared_counter] of rank 0). *)
Record config : Type := Config {
  code : nat -> prog Z;
  log : nat -> list act;
  net : list message;
  cell : Z
}.

Definition upd {X : Type} (f : nat -> X) (r : nat) (x : X) : nat -> X :=
  fun j => if Nat.eqb j r then x else f j.

(** Rank [r] performs [a] and continues as [p]. *)
Definition advance (c : config) (r : nat) (a : act) (p : prog Z) : config :=
  Config (upd (code c) r p) (upd (log c) r (log c r ++ [a])) (net c) (cell c).

Definition with_net (c : config) (n : list message) : config :=
  Config (code c) (log c) n (cell c).

Definition with_cell (c : config) (v : Z) : config :=
  Config (code c) (log c) (net c) v.

(** Matching is by (source, destination, tag). *)
Definition same_envelope (m m' : message) : Prop :=
  src m = src m' /\ dst m = dst m' /\ tag m = tag m'.

Section Runtime.

(** [cap]: how many messages the transport may hold for senders that have
    not been matched yet; [0] is the unbuffered channel.  [N]: world
    size. *)
Variable cap : nat.
Variable N : nat.

(** One step of the world.

    - [G_local]: a call that involves one rank only ([MPI_Init] and
      [MPI_Finalize] are taken to complete locally).
    - [G_post], [G_deliver]: a blocking send may return once the transport
      has taken the message, if it has room; a receive takes the oldest
      message in flight with its envelope (FIFO per source, destination
      and tag).
    - [G_rendezvous]: a blocking send and the matching receive complete
      together, when no older message with that envelope is in flight.
      With [cap = 0] this is the only way a send completes.
    - [G_sync]: barrier, fence, window creation and release complete for
      all ranks at once, when all have entered the same collective.
    - [G_get], [G_put]: a one-sided access to the counter of rank 0 takes
      effect at some instant between the fences around it; of several
      puts the last one stays.
    - [G_load], [G_store]: access to the counter through the pointer. *)
Inductive step : config -> config -> Prop :=
| G_local c r a p :
    (r < N)%nat -> lstep r (code c r) a p -> internal a ->
    step c (advance c r a p)
| G_post c r m p :
    (r < N)%nat -> lstep r (code c r) (ASend m) p ->
    (length (net c) < cap)%nat ->
    step c (with_net (advance c r (ASend m) p) (net c ++ [m]))
| G_deliver c r m p l1 l2 :
    (r < N)%nat -> lstep r (code c r) (ARecv m) p ->
    net c = l1 ++ m :: l2 ->
    (forall m', In m' l1 -> ~ same_envelope m' m) ->
    step c (with_net (advance c r (ARecv m) p) (l1 ++ l2))
| G_rendezvous c s d m ps pd :
    (s < N)%nat -> (d < N)%nat ->
    lstep s (code c s) (ASend m) ps ->
    lstep d (code c d) (ARecv m) pd ->
    (forall m', In m' (net c) -> ~ same_envelope m' m) ->
    step c (advance (advance c s (ASend m) ps) d (ARecv m) pd)
| G_sync c c' x :
    (0 < N)%nat ->
    (forall r, (r < N)%nat ->
       lstep r (code c r) (ASync x) (code c' r) /\
       log c' r = log c r ++ [ASync x]) ->
    (forall r, (N <= r)%nat -> code c' r = code c r /\ log c' r = log c r) ->
    net c' = net c -> cell c' = cell c ->
    step c c'
| G_get c r p :
    (r < N)%nat -> lstep r (code c r) (AGet (cell c)) p ->
    step c (advance c r (AGet (cell c)) p)
| G_put c r v p :
    (r < N)%nat -> lstep r (code c r) (APut v) p ->
    step c (with_cell (advance c r (APut v) p) v)
| G_load c r p :
    (r < N)%nat -> lstep r (code c r) (ALoad (cell c)) p ->
    step c (advance c r (ALoad (cell c)) p)
| G_store c r v p :
    (r < N)%nat -> lstep r (code c r) (AStore v) p ->
    step c (with_cell (advance c r (AStore v) p) v).

Inductive steps (c1 : config) : config -> Prop :=
| steps_refl : steps c1 c1
| steps_snoc c2 c3 : steps c1 c2 -> step c2 c3 -> steps c1 c3.

(** Every rank starts [main] with its identity and the world size; nothing
    is in flight; the memory behind the window holds whatever it held. *)
Definition init (main : Z -> Z -> prog Z) (cell0 : Z) : config :=
  Config (fun r => main (Z.of_nat r) (Z.of_nat N)) (fun _ => []) [] cell0.

(** Rank [r] has returned [v] from [main]. *)
Definition exited (c : config) (r : nat) (v : Z) : Prop := code c r = Ret v.

Definition all_exited (c : config) (v : Z) : Prop :=
  forall r, (r < N)%nat -> exited c r v.

(** No rule applies. *)
Definition stuck (c : config) : Prop := forall c', ~ step c c'.

End Runtime.

(* ================================================================= *)
(** ** The four programs *)

(** [*shared_counter] read and written through the pointer. *)
Definition deref : prog Z := Load (fun v => Ret v).
Definition assign (v : Z) : prog unit := Store v (Ret tt).

(** *** mpi_ring.c *)

Definition ring_main (rank size : Z) : prog Z :=
  MPI_Init ;;
  let token := 0 in
  (if rank =? 0 then
     let token := 42 in
     MPI_Send [token] 1 MPI_INT ((rank +! 1) %! size) 0 ;;
     token <- MPI_Recv_int token (size -! 1) 0 ;;
     printf "Rank %d received final token=%d\n" [AInt rank; AInt token]
   else
     token <- MPI_Recv_int token (rank -! 1) 0 ;;
     let token := token +! 1 in
     MPI_Send [token] 1 MPI_INT ((rank +! 1) %! size) 0 ;;
     printf "Rank %d forwarded token=%d\n" [AInt rank; AInt token]) ;;
  MPI_Finalize ;;
  Ret 0.

(** *** mpi_pingpong.c *)

(** [#ifndef MSG_SIZE / #define MSG_SIZE 8]: a build-time parameter. *)
Definition MSG_SIZE_default : Z := 8.

(** [int iters = 10000;] *)
Definition iters : Z := 10000.

(** The body of the exchange loop; [buf] is the loop-carried state. *)
Definition pingpong_body (MSG_SIZE rank : Z) (i : Z) (buf : list Z)
  : prog (list Z) :=
  if rank =? 0 then
    MPI_Send buf MSG_SIZE MPI_CHAR 1 0 ;;
    MPI_Recv buf MSG_SIZE MPI_CHAR 1 0
  else if rank =? 1 then
    buf <- MPI_Recv buf MSG_SIZE MPI_CHAR 0 0 ;;
    MPI_Send buf MSG_SIZE MPI_CHAR 0 0 ;;
    Ret buf
  else Ret buf.

Definition pingpong_latency (t0 t1 : float) : float :=
  let elapsed := (t1 - t0)%float in
  ((elapsed / (2.0 * double_of_int iters)) * 1e6)%float.

Definition pingpong_main (MSG_SIZE : Z) (rank size : Z) : prog Z :=
  MPI_Init ;;
  if size <? 2 then
    (if rank =? 0 then fprintf stderr "Need at least 2 ranks.\n" [] else skip) ;;
    MPI_Finalize ;;
    Ret 1
  else
    let partner := (rank +! 1) %! 2 in
    buf <- malloc MSG_SIZE ;;
    let buf := memset buf 0 MSG_SIZE in
    t0 <- MPI_Wtime ;;
    buf <- for_loop (Z.to_nat iters) 0 (pingpong_body MSG_SIZE rank) buf ;;
    t1 <- MPI_Wtime ;;
    let latency := pingpong_latency t0 t1 in
    (if rank =? 0 then
       printf "PingPong: size=%d bytes, latency=%.3f us\n"
         [AInt MSG_SIZE; ADouble latency]
     else skip) ;;
    free ;;
    MPI_Finalize ;;
    Ret 0.

(** *** mpi_deadlock.c *)

Definition deadlock_main (rank size : Z) : prog Z :=
  let send_data := 42 in
  let recv_data := 0 in
  MPI_Init ;;
  if negb (size =? 2) then
    (if rank =? 0 then
       printf "This program requires exactly 2 MPI processes\n" []
     else skip) ;;
    MPI_Finalize ;;
    Ret 1
  else
    printf "Process %d starting...\n" [AInt rank] ;;
    fflush stdout ;;
    (if rank =? 0 then
       printf "Process 0: Attempting to send to process 1...\n" [] ;;
       fflush stdout ;;
       MPI_Send [send_data] 1 MPI_INT 1 0 ;;
       printf "Process 0: Send completed, now receiving...\n" [] ;;
       recv_data <- MPI_Recv_int recv_data 1 0 ;;
       printf "Process 0: Received %d\n" [AInt recv_data]
     else if rank =? 1 then
       printf "Process 1: Attempting to send to process 0...\n" [] ;;
       fflush stdout ;;
       MPI_Send [send_data] 1 MPI_INT 0 0 ;;
       printf "Process 1: Send completed, now receiving...\n" [] ;;
       recv_data <- MPI_Recv_int recv_data 0 0 ;;
       printf "Process 1: Received %d\n" [AInt recv_data]
     else skip) ;;
    printf "Process %d: Finalizing (this will never execute)\n" [AInt rank] ;;
    MPI_Finalize ;;
    Ret 0.

(** *** mpi_race_condition.c *)

(** [#define NUM_INCREMENTS 1000] *)
Definition NUM_INCREMENTS : Z := 1000.

Definition sizeof_int : Z := 4.

(** One iteration of the get / increment / put loop.  [local_value] is
    assigned by the get before it is read, so it is bound here. *)
Definition race_body (rank size : Z) (i : Z) (_ : unit) : prog unit :=
  MPI_Win_fence ;;
  local_value <- MPI_Get 0 0 ;;
  MPI_Win_fence ;;
  usleep 1 ;;
  let local_value := local_value +! 1 in
  MPI_Win_fence ;;
  MPI_Put local_value 0 0 ;;
  MPI_Win_fence ;;
  if (i %! 100 =? 0) && (rank =? 0) then
    printf "Process %d: Iteration %d, counter should be %d\n"
      [AInt rank; AInt i; AInt ((i +! 1) *! size)]
  else skip.

(** The final check of rank 0.  Each [*shared_counter] in the source is a
    read of its own. *)
Definition race_check (num_increments size : Z) : prog unit :=
  let expected := num_increments *! size in
  c <- deref ;;
  printf "Final counter value: %d (expected: %d)\n" [AInt c; AInt expected] ;;
  c <- deref ;;
  if negb (c =? expected) then
    c <- deref ;;
    printf "RACE CONDITION DETECTED! Lost updates: %d\n" [AInt (expected -! c)]
  else
    printf "No race detected in this run (but race still exists!)\n" [].

(** [main], with the macro [NUM_INCREMENTS] as a parameter. *)
Definition race_prog (num_increments : Z) (rank size : Z) : prog Z :=
  MPI_Init ;;
  (if rank =? 0 then
     MPI_Alloc_mem sizeof_int ;;
     assign 0
   else skip) ;;
  MPI_Win_create ;;
  MPI_Barrier ;;
  printf "Process %d: Starting race condition test...\n" [AInt rank] ;;
  for_loop (Z.to_nat num_increments) 0 (race_body rank size) tt ;;
  MPI_Barrier ;;
  (if rank =? 0 then race_check num_increments size else skip) ;;
  MPI_Win_free ;;
  (if rank =? 0 then MPI_Free_mem else skip) ;;
  MPI_Finalize ;;
  Ret 0.

Definition race_main : Z -> Z -> prog Z := race_prog NUM_INCREMENTS.

(* ================================================================= *)
(** ** Decoding a log *)

(** [next p a]: the continuation of [p] after it was observed to do [a];
    the answers of the environment are read off the observation. *)
Definition next (p : prog Z) (a : act) : option (prog Z) :=
  match p, a with
  | Call _ k, ACall _ => Some k
  | Malloc _ k, AMalloc _ bytes => Some (k bytes)
  | Wtime k, AWtime t => Some (k t)
  | Send _ _ _ _ k, ASend _ => Some k
  | Recv _ _ _ _ k, ARecv m => Some (k (data m))
  | Sync _ k, ASync _ => Some k
  | Get _ _ k, AGet v => Some (k v)
  | Put _ _ _ k, APut _ => Some k
  | Load k, ALoad v => Some (k v)
  | Store _ k, AStore _ => Some k
  | _, _ => None
  end.

(** The code a rank has reached after the log [l]. *)
Fixpoint replay (p : prog Z) (l : list act) : option (prog Z) :=
  match l with
  | [] => Some p
  | a :: l' => match next p a with
               | Some p' => replay p' l'
               | None => None
               end
  end.

(** Number of collectives a rank has been through. *)
Fixpoint nsync (l : list act) : nat :=
  match l with
  | [] => O
  | ASync _ :: l' => S (nsync l')
  | _ :: l' => nsync l'
  end.

Definition prefix (l full : list act) : Prop := exists rest, full = l ++ rest.

(** One rank alone: internal calls and accesses to the window memory.
    [mexec r p v l p' v']: from code [p] and memory [v], rank [r] performs
    [l] and reaches code [p'] and memory [v']. *)
Definition mem_ok (a : act) (v v' : Z) : Prop :=
  match a with
  | ACall _ | AMalloc _ _ | AWtime _ => v' = v
  | AGet x | ALoad x => x = v /\ v' = v
  | APut x | AStore x => v' = x
  | ASend _ | ARecv _ | ASync _ => False
  end.

Inductive mexec (r : nat) : prog Z -> Z -> list act -> prog Z -> Z -> Prop :=
| mexec_nil p v : mexec r p v [] p v
| mexec_cons p v a p1 v1 l p2 v2 :
    lstep r p a p1 -> mem_ok a v v1 -> mexec r p1 v1 l p2 v2 ->
    mexec r p v (a :: l) p2 v2.

(** The continuation behind a collective. *)
Definition after_sync (p : prog Z) : prog Z :=
  match p with
  | Sync _ k => k
  | _ => p
  end.

(* ================================================================= *)
(** * Properties of the arithmetic *)

Lemma wrap_small x : CInt.in_range x -> CInt.wrap x = x.
Proof.
  unfold CInt.in_range, CInt.INT_MIN, CInt.INT_MAX, CInt.wrap. intros H.
  rewrite Z.mod_small; lia.
Qed.

Lemma add_small a b : CInt.in_range (a + b) -> a +! b = a + b.
Proof. apply wrap_small. Qed.

Lemma sub_small a b : CInt.in_range (a - b) -> a -! b = a - b.
Proof. apply wrap_small. Qed.

Lemma wrap_add_l a b : CInt.wrap (CInt.wrap a + b) = CInt.wrap (a + b).
Proof.
  unfold CInt.wrap. f_equal.
  replace ((a + 2 ^ 31) mod 2 ^ 32 - 2 ^ 31 + b + 2 ^ 31)
    with ((a + 2 ^ 31) mod 2 ^ 32 + b) by lia.
  rewrite Zplus_mod_idemp_l. f_equal. lia.
Qed.

(* ================================================================= *)
(** * Properties of the runtime *)

Lemma upd_same {X} (f : nat -> X) r x : upd f r x r = x.
Proof. unfold upd. now rewrite Nat.eqb_refl. Qed.

Lemma upd_other {X} (f : nat -> X) r x j : j <> r -> upd f r x j = f j.
Proof. unfold upd. intros H. apply Nat.eqb_neq in H. now rewrite H. Qed.

Lemma prefix_nil full : prefix [] full.
Proof. now exists full. Qed.

Lemma prefix_in l full a : prefix l full -> In a l -> In a full.
Proof. intros [rest ->] H. apply in_or_app. now left. Qed.

Lemma lstep_next r p a p' : lstep r p a p' -> next p a = Some p'.
Proof. now destruct 1. Qed.

Lemma replay_snoc p l a q q' :
  replay p l = Some q -> next q a = Some q' -> replay p (l ++ [a]) = Some q'.
Proof.
  revert p. induction l as [|b l IH]; simpl; intros p H Hn.
  - injection H as ->. now rewrite Hn.
  - destruct (next p b); [eauto | discriminate].
Qed.

Lemma nsync_app l1 l2 : nsync (l1 ++ l2) = (nsync l1 + nsync l2)%nat.
Proof.
  induction l1 as [|a l IH]; simpl; [reflexivity|].
  destruct a; simpl; now rewrite ?IH.
Qed.

Lemma lstep_not_send_recv r p m m' p1 p2 :
  lstep r p (ASend m) p1 -> lstep r p (ARecv m') p2 -> False.
Proof. intros H1 H2. inversion H1; subst. inversion H2. Qed.

Section RuntimeFacts.

Variable cap : nat.
Variable N : nat.

Lemma steps_one c c' : step cap N c c' -> steps cap N c c'.
Proof. intros H. eapply steps_snoc; [apply steps_refl | exact H]. Qed.

Lemma steps_trans c1 c2 c3 :
  steps cap N c1 c2 -> steps cap N c2 c3 -> steps cap N c1 c3.
Proof.
  intros H12 H23. revert H12.
  induction H23 as [|c3 c4 H23 IH Hs]; intros H12; [assumption|].
  eapply steps_snoc; [apply IH; assumption | exact Hs].
Qed.

(** What a global step means for one rank: it stays, or it performs one
    action. *)
Lemma step_rank_view c c' :
  step cap N c c' ->
  forall r,
    (code c' r = code c r /\ log c' r = log c r) \/
    ((r < N)%nat /\ exists a, lstep r (code c r) a (code c' r) /\
                log c' r = log c r ++ [a]).
Proof.
  intros H j.
  destruct H as [c r a p Hr Hl Hi | c r m p Hr Hl Hc
                | c r m p l1 l2 Hr Hl Hn Hf | c s d m ps pd Hs Hd Hls Hld Hf
                | c c' x HN Hall Hout Hnet Hcell | c r p Hr Hl
                | c r v p Hr Hl | c r p Hr Hl | c r v p Hr Hl]; simpl.
  1-3,6-9: (destruct (Nat.eq_dec j r) as [->|Hne];
    [right; split; [assumption|]; eexists; rewrite !upd_same; eauto
    |left; now rewrite !upd_other by assumption]).
  - assert (s <> d) as Hsd.
    { intros ->. eapply lstep_not_send_recv; eauto. }
    destruct (Nat.eq_dec j d) as [->|Hjd].
    + right. split; [assumption|]. exists (ARecv m).
      rewrite !upd_same, !upd_other by congruence. eauto.
    + rewrite !(upd_other _ d) by assumption.
      destruct (Nat.eq_dec j s) as [->|Hjs].
      * right. split; [assumption|]. exists (ASend m). rewrite !upd_same. eauto.
      * left. now rewrite !upd_other by assumption.
  - destruct (Nat.lt_ge_cases j N) as [Hlt|Hge].
    + right. split; [assumption|]. exists (ASync x). now apply Hall.
    + left. now apply Hout.
Qed.

End RuntimeFacts.

Section Reachable.

Variable cap : nat.
Variable N : nat.
Variable main : Z -> Z -> prog Z.
Variable cell0 : Z.

Definition reachable (c : config) : Prop := steps cap N (init N main cell0) c.

Lemma reachable_init : reachable (init N main cell0).
Proof. apply steps_refl. Qed.

Lemma reachable_step c c' : reachable c -> step cap N c c' -> reachable c'.
Proof. intros H Hs. eapply steps_snoc; eauto. Qed.

Lemma reachable_steps c c' : reachable c -> steps cap N c c' -> reachable c'.
Proof. intros H Hs. eapply steps_trans; eauto. Qed.

(** The log of a rank determines where its code stands. *)
Lemma replay_log c :
  reachable c ->
  forall r, replay (main (Z.of_nat r) (Z.of_nat N)) (log c r) = Some (code c r).
Proof.
  induction 1 as [|c2 c3 Hc2 IH Hs]; intros r; [reflexivity|].
  destruct (step_rank_view _ _ _ _ Hs r) as [[-> ->]|[_ [a [Hl ->]]]].
  - apply IH.
  - eapply replay_snoc; [apply IH | eapply lstep_next; eauto].
Qed.

(** *** Rely/guarantee for messages

    [P r p l] is a property of rank [r]'s code and log, [Q] a property of
    messages.  If every local step keeps [P], relying on [Q] for what it
    receives and guaranteeing [Q] for what it sends, then [P] holds of
    every rank and [Q] of every message in flight, in every reachable
    configuration. *)
Section RelyGuarantee.

Variable P : nat -> prog Z -> list act -> Prop.
Variable Q : message -> Prop.

Hypothesis P_init :
  forall r, (r < N)%nat -> P r (main (Z.of_nat r) (Z.of_nat N)) [].

Hypothesis P_step :
  forall r p l a p', (r < N)%nat -> P r p l -> lstep r p a p' ->
    (forall m, a = ARecv m -> Q m) ->
    P r p' (l ++ [a]) /\ (forall m, a = ASend m -> Q m).

Definition rg_inv (c : config) : Prop :=
  (forall r, (r < N)%nat -> P r (code c r) (log c r)) /\
  (forall m, In m (net c) -> Q m).

Lemma rg_step c c' : rg_inv c -> step cap N c c' -> rg_inv c'.
Proof.
  intros [HP HQ] H.
  destruct H as [c r a p Hr Hl Hi | c r m p Hr Hl Hc
                | c r m p l1 l2 Hr Hl Hn Hf | c s d m ps pd Hs Hd Hls Hld Hf
                | c c' x HN Hall Hout Hnet Hcell | c r p Hr Hl
                | c r v p Hr Hl | c r p Hr Hl | c r v p Hr Hl].
  1,6-9: (split; simpl; [|exact HQ]; intros j Hj;
    destruct (Nat.eq_dec j r) as [->|Hne];
    [rewrite !upd_same; eapply P_step; eauto;
     intros m0 E; subst; try discriminate; contradiction
    |rewrite !upd_other by assumption; auto]).
  - destruct (P_step r _ _ _ _ Hr (HP r Hr) Hl) as [Hp Hq]; [discriminate|].
    split; simpl.
    + intros j Hj. destruct (Nat.eq_dec j r) as [->|Hne].
      * now rewrite !upd_same.
      * rewrite !upd_other by assumption; auto.
    + intros m0 Hin. apply in_app_or in Hin as [Hin|[<-|[]]]; auto.
  - assert (Q m) as Hm by (apply HQ; rewrite Hn; apply in_elt).
    destruct (P_step r _ _ _ _ Hr (HP r Hr) Hl) as [Hp _].
    { now intros m0 [= <-]. }
    split; simpl.
    + intros j Hj. destruct (Nat.eq_dec j r) as [->|Hne].
      * now rewrite !upd_same.
      * rewrite !upd_other by assumption; auto.
    + intros m0 Hin. apply HQ. rewrite Hn.
      apply in_app_or in Hin as [Hin|Hin]; apply in_or_app; simpl; auto.
  - assert (s <> d) as Hsd.
    { intros ->. eapply lstep_not_send_recv; eauto. }
    destruct (P_step s _ _ _ _ Hs (HP s Hs) Hls) as [Hps Hq]; [discriminate|].
    destruct (P_step d _ _ _ _ Hd (HP d Hd) Hld) as [Hpd _].
    { intros m0 [= <-]. now apply Hq. }
    split; simpl; [|exact HQ].
    intros j Hj. destruct (Nat.eq_dec j d) as [->|Hjd].
    + now rewrite !upd_same, !upd_other by congruence.
    + rewrite !(upd_other _ d) by assumption.
      destruct (Nat.eq_dec j s) as [->|Hjs].
      * now rewrite !upd_same.
      * rewrite !upd_other by assumption; auto.
  - split.
    + intros j Hj. destruct (Hall j Hj) as [Hl ->].
      eapply P_step; eauto. discriminate.
    + now rewrite Hnet.
Qed.

Lemma rg_reachable c : reachable c -> rg_inv c.
Proof.
  induction 1 as [|c2 c3 Hc2 IH Hs].
  - split; simpl; [exact P_init | contradiction].
  - eapply rg_step; eauto.
Qed.

End RelyGuarantee.

End Reachable.

(** ** Building runs *)

Section Schedules.

Variable cap : nat.
Variable N : nat.

(** Every other rank is left as it was. *)
Definition others_same (r : nat) (c c' : config) : Prop :=
  forall j, j <> r -> code c' j = code c j /\ log c' j = log c j.

(** One rank runs alone. *)
Lemma fire_mexec r p v l p' v' :
  mexec r p v l p' v' -> (r < N)%nat ->
  forall c, code c r = p -> cell c = v ->
  exists c', steps cap N c c' /\ code c' r = p' /\ log c' r = log c r ++ l /\
             others_same r c c' /\ net c' = net c /\ cell c' = v'.
Proof.
  induction 1 as [q w|q w a p1 v1 l0 p2 v2 Hl Hm Hex IH]; intros Hr c Hc Hv.
  - exists c. rewrite app_nil_r. repeat split; auto using steps_refl.
  - assert (exists c1, step cap N c c1 /\ code c1 r = p1 /\
              log c1 r = log c r ++ [a] /\ others_same r c c1 /\
              net c1 = net c /\ cell c1 = v1) as (c1 & Hs & Hc1 & Hl1 & Ho1 & Hn1 & Hv1).
    { subst q w. destruct a; simpl in Hm; try contradiction.
      1-3: (eexists; split; [eapply G_local; eauto; exact I|]; subst v1;
        simpl; rewrite !upd_same; repeat split; auto;
        simpl; now rewrite upd_other).
      - destruct Hm as [-> ->].
        eexists; split; [eapply G_get; eauto|]; simpl; rewrite !upd_same;
          repeat split; auto; simpl; now rewrite upd_other.
      - subst v1.
        eexists; split; [eapply G_put; eauto|]; simpl; rewrite !upd_same;
          repeat split; auto; simpl; now rewrite upd_other.
      - destruct Hm as [-> ->].
        eexists; split; [eapply G_load; eauto|]; simpl; rewrite !upd_same;
          repeat split; auto; simpl; now rewrite upd_other.
      - subst v1.
        eexists; split; [eapply G_store; eauto|]; simpl; rewrite !upd_same;
          repeat split; auto; simpl; now rewrite upd_other. }
    destruct (IH Hr c1 Hc1 Hv1) as (c2 & Hs2 & Hc2 & Hl2 & Ho2 & Hn2 & Hv2).
    exists c2. repeat split.
    + eapply steps_trans; [apply steps_one; exact Hs | exact Hs2].
    + assumption.
    + rewrite Hl2, Hl1, <- app_assoc. reflexivity.
    + destruct (Ho2 j H) as [-> _]. now apply Ho1.
    + destruct (Ho2 j H) as [_ ->]. now apply Ho1.
    + congruence.
    + assumption.
Qed.

(** Every rank in turn runs alone.  [I r] describes the memory before rank
    [r] starts, [I N] the memory at the end. *)
Lemma fire_each (I : nat -> Z -> Prop) (ext : nat -> list act)
  (tgt : nat -> prog Z) c :
  I O (cell c) ->
  (forall r v, (r < N)%nat -> I r v ->
     exists v', mexec r (code c r) v (ext r) (tgt r) v' /\ I (S r) v') ->
  exists c', steps cap N c c' /\
    (forall r, (r < N)%nat -> code c' r = tgt r /\ log c' r = log c r ++ ext r) /\
    (forall r, (N <= r)%nat -> code c' r = code c r /\ log c' r = log c r) /\
    net c' = net c /\ I N (cell c').
Proof.
  intros HI0 Hall.
  assert (forall m, (m <= N)%nat ->
    exists c', steps cap N c c' /\
      (forall r, (r < m)%nat -> code c' r = tgt r /\ log c' r = log c r ++ ext r) /\
      (forall r, (m <= r)%nat -> code c' r = code c r /\ log c' r = log c r) /\
      net c' = net c /\ I m (cell c')) as Hm.
  { induction m as [|m IH]; intros Hle.
    - exists c. repeat split; auto using steps_refl; lia.
    - destruct IH as (c1 & Hs1 & Hd1 & Hu1 & Hn1 & Hi1); [lia|].
      destruct (Hall m (cell c1)) as (v' & Hex & Hi'); [lia|assumption|].
      destruct (Hu1 m (Nat.le_refl m)) as [Hcm Hlm].
      destruct (fire_mexec _ _ _ _ _ _ Hex ltac:(lia) c1 Hcm eq_refl)
        as (c2 & Hs2 & Hc2 & Hl2 & Ho2 & Hn2 & Hv2).
      exists c2. split; [eapply steps_trans; eauto|].
      split; [|split; [|split]].
      + intros r Hr. destruct (Nat.eq_dec r m) as [->|Hne].
        * now rewrite Hc2, Hl2, Hlm.
        * destruct (Ho2 r Hne) as [-> ->]. apply Hd1. lia.
      + intros r Hr. destruct (Ho2 r) as [-> ->]; [lia|]. apply Hu1. lia.
      + congruence.
      + now rewrite Hv2. }
  apply Hm. lia.
Qed.

(** All ranks stand at the same collective and leave it together. *)
Lemma fire_sync x c :
  (0 < N)%nat ->
  (forall r, (r < N)%nat -> exists k, code c r = Sync x k) ->
  exists c', step cap N c c' /\
    (forall r, (r < N)%nat ->
       code c' r = after_sync (code c r) /\ log c' r = log c r ++ [ASync x]) /\
    (forall r, (N <= r)%nat -> code c' r = code c r /\ log c' r = log c r) /\
    net c' = net c /\ cell c' = cell c.
Proof.
  intros HN Hall.
  exists (Config
    (fun r => if (r <? N)%nat then after_sync (code c r) else code c r)
    (fun r => if (r <? N)%nat then log c r ++ [ASync x] else log c r)
    (net c) (cell c)).
  assert (forall r, (r < N)%nat -> (r <? N)%nat = true) as Ht
    by (intros; now apply Nat.ltb_lt).
  assert (forall r, (N <= r)%nat -> (r <? N)%nat = false) as Hf
    by (intros; now apply Nat.ltb_ge).
  split; [apply G_sync with (x := x); simpl; auto|simpl].
  - intros r Hr. rewrite !Ht by assumption. split; [|reflexivity].
    destruct (Hall r Hr) as [k ->]. simpl. constructor.
  - intros r Hr. now rewrite !Hf.
  - split; [|split; [|split; reflexivity]]; intros r Hr;
      rewrite ?Ht, ?Hf by assumption; auto.
Qed.

End Schedules.

(* ================================================================= *)
(** * Traces of one rank *)

(** An action with the answer of the environment blanked out. *)
Definition skeleton (a : act) : act :=
  match a with
  | AMalloc n _ => AMalloc n []
  | AWtime _ => AWtime 0%float
  | ARecv m => ARecv (Msg (src m) (dst m) (tag m) (ty m) [])
  | AGet _ => AGet 0
  | ALoad _ => ALoad 0
  | ACall _ | ASend _ | ASync _ | APut _ | AStore _ => a
  end.

(** Actions that carry no answer: the code alone fixes them. *)
Definition fixed (a : act) : Prop :=
  match a with
  | ACall _ | ASend _ | ASync _ | APut _ | AStore _ => True
  | _ => False
  end.

(** [follows r p T q]: rank [r] running [p] can perform [T], one action
    after the other, and then continues as [q]. *)
Fixpoint follows (r : nat) (p : prog Z) (T : list act) (q : prog Z) : Prop :=
  match T with
  | [] => q = p
  | b :: T' => exists p1, lstep r p b p1 /\ follows r p1 T' q
  end.

(** Completed code. *)
Definition halted (q : prog Z) : Prop := exists v, q = Ret v.

Lemma lstep_skeleton r p a b p1 p2 :
  lstep r p a p1 -> lstep r p b p2 -> skeleton a = skeleton b.
Proof. intros Ha Hb. inversion Ha; subst; inversion Hb; subst; reflexivity. Qed.

Lemma halted_no_step r q a p : halted q -> ~ lstep r q a p.
Proof. intros [v ->] H. inversion H. Qed.

Lemma skeleton_fixed a b : skeleton a = skeleton b -> fixed b -> a = b.
Proof. destruct b; simpl; try contradiction; destruct a; simpl; congruence. Qed.

Lemma skeleton_recv a m :
  skeleton a = skeleton (ARecv m) ->
  exists d, a = ARecv (Msg (src m) (dst m) (tag m) (ty m) d).
Proof.
  destruct a as [| | | |m'| | | | |]; simpl; try discriminate.
  intros [= <- <- <- <-]. exists (data m'). now destruct m'.
Qed.

Lemma skeleton_wtime a t : skeleton a = skeleton (AWtime t) -> exists x, a = AWtime x.
Proof. destruct a; simpl; try discriminate. eauto. Qed.

Lemma skeleton_malloc a n b :
  skeleton a = skeleton (AMalloc n b) -> exists x, a = AMalloc n x.
Proof. destruct a; simpl; try discriminate. intros [= ->]. eauto. Qed.

Lemma follows_app r p T1 p1 T2 q :
  follows r p T1 p1 -> follows r p1 T2 q -> follows r p (T1 ++ T2) q.
Proof.
  revert p. induction T1 as [|b T1 IH]; simpl; intros p H1 H2.
  - now subst p1.
  - destruct H1 as (p' & Hl & H1). eauto.
Qed.

Lemma follows_split r p T1 T2 q :
  follows r p (T1 ++ T2) q ->
  exists p1, follows r p T1 p1 /\ follows r p1 T2 q.
Proof.
  revert p. induction T1 as [|b T1 IH]; simpl; intros p H.
  - eauto.
  - destruct H as (p' & Hl & H). destruct (IH _ H) as (p1 & H1 & H2). eauto.
Qed.

Lemma follows_replay r p T q : follows r p T q -> replay p T = Some q.
Proof.
  revert p. induction T as [|b T IH]; simpl; intros p H.
  - now subst.
  - destruct H as (p' & Hl & H). rewrite (lstep_next _ _ _ _ Hl). auto.
Qed.

(** Where the code stands after a prefix of its trace. *)
Lemma follows_at r p T q l rest :
  follows r p T q -> T = l ++ rest ->
  exists p1, replay p l = Some p1 /\ follows r p1 rest q.
Proof.
  intros H ->. destruct (follows_split _ _ _ _ _ H) as (p1 & H1 & H2).
  exists p1. split; [now apply follows_replay in H1 | assumption].
Qed.

(** Whatever a rank does next is the next entry of its trace, up to the
    answer of the environment. *)
Lemma follows_next r main T q l p a p' :
  follows r main T q -> halted q ->
  replay main l = Some p -> prefix l T -> lstep r p a p' ->
  exists b rest, T = l ++ b :: rest /\ skeleton a = skeleton b.
Proof.
  intros HT Hq Hrep [rest E] Hl.
  destruct (follows_at _ _ _ _ _ _ HT E) as (p1 & Hrep1 & Hrest).
  assert (p1 = p) as -> by congruence.
  destruct rest as [|b rest]; simpl in Hrest.
  - subst q. exfalso. eapply halted_no_step; eauto.
  - destruct Hrest as (p2 & Hb & _).
    exists b, rest. split; [assumption|]. eapply lstep_skeleton; eauto.
Qed.

(** A rank that has returned has performed its whole trace. *)
Lemma follows_done r main T q l v :
  follows r main T q -> replay main l = Some (Ret v) -> prefix l T -> l = T.
Proof.
  intros HT Hrep [rest E].
  destruct (follows_at _ _ _ _ _ _ HT E) as (p1 & Hrep1 & Hrest).
  assert (p1 = Ret v) as -> by congruence.
  destruct rest as [|b rest]; simpl in Hrest.
  - now rewrite app_nil_r in E.
  - destruct Hrest as (p2 & Hb & _). inversion Hb.
Qed.

(** Extending a prefix by the next entry. *)
Lemma prefix_snoc l b rest T : T = l ++ b :: rest -> prefix (l ++ [b]) T.
Proof. intros ->. exists rest. now rewrite <- app_assoc. Qed.

Lemma prefix_app_l A l B : prefix l B -> prefix (A ++ l) (A ++ B).
Proof. intros [rest ->]. exists rest. now rewrite app_assoc. Qed.

Lemma prefix_app_r l A B : prefix l A -> prefix l (A ++ B).
Proof. intros [rest ->]. exists (rest ++ B). now rewrite app_assoc. Qed.

(** Memory along a list of actions of one rank. *)
Fixpoint mem_run (v : Z) (l : list act) (v' : Z) : Prop :=
  match l with
  | [] => v' = v
  | a :: l' => exists v1, mem_ok a v v1 /\ mem_run v1 l' v'
  end.

Lemma follows_mexec r p l q v v' :
  follows r p l q -> mem_run v l v' -> mexec r p v l q v'.
Proof.
  revert p v. induction l as [|a l IH]; simpl; intros p v Hf Hm.
  - subst. constructor.
  - destruct Hf as (p1 & Hl & Hf). destruct Hm as (v1 & Hok & Hm).
    econstructor; eauto.
Qed.

Lemma mem_run_calls v l :
  (forall a, In a l -> exists c, a = ACall c) -> mem_run v l v.
Proof.
  induction l as [|a l IH]; simpl; intros H; [reflexivity|].
  exists v. split.
  - destruct (H a (or_introl eq_refl)) as [c ->]. reflexivity.
  - apply IH. auto.
Qed.

(* ================================================================= *)
(** * Scheduling along traces *)

Section TraceLevel.

Variable cap : nat.
Variable N : nat.
Variable main : Z -> Z -> prog Z.
Variable cell0 : Z.

(** The trace rank [r] is meant to perform and the code it ends in. *)
Variable T : nat -> list act.
Variable fin : nat -> prog Z.

Hypothesis T_follows :
  forall r, (r < N)%nat -> follows r (main (Z.of_nat r) (Z.of_nat N)) (T r) (fin r).

Local Abbreviation reach := (reachable cap N main cell0).

(** The code of a rank whose log is a prefix of its trace can perform the
    rest of the trace. *)
Lemma code_follows c r l rest :
  reach c -> (r < N)%nat -> log c r = l -> T r = l ++ rest ->
  follows r (code c r) rest (fin r).
Proof.
  intros Hc Hr Hl E.
  destruct (follows_at _ _ _ _ _ _ (T_follows r Hr) E) as (p1 & Hrep & Hf).
  pose proof (replay_log _ _ _ _ _ Hc r) as Hrep'. rewrite Hl in Hrep'.
  congruence.
Qed.

(** A rank performs a stretch of its trace on its own. *)
Lemma trace_local_steps c r seg rest v' :
  reach c -> (r < N)%nat -> T r = log c r ++ seg ++ rest ->
  mem_run (cell c) seg v' ->
  exists c', steps cap N c c' /\ log c' r = log c r ++ seg /\
    (forall j, j <> r -> log c' j = log c j) /\
    net c' = net c /\ cell c' = v'.
Proof.
  intros Hc Hr E Hm.
  pose proof (code_follows c r _ _ Hc Hr eq_refl E) as Hf.
  destruct (follows_split _ _ _ _ _ Hf) as (p1 & Hseg & _).
  destruct (fire_mexec cap N r _ _ _ _ _ (follows_mexec _ _ _ _ _ _ Hseg Hm)
              Hr c eq_refl eq_refl)
    as (c' & Hs & _ & Hl & Ho & Hn & Hv).
  exists c'. repeat split; auto.
  intros j Hj. now apply Ho.
Qed.

Lemma trace_local c r seg rest v' :
  reach c -> (r < N)%nat -> T r = log c r ++ seg ++ rest ->
  mem_run (cell c) seg v' ->
  exists c', reach c' /\ log c' r = log c r ++ seg /\
    (forall j, j <> r -> log c' j = log c j) /\
    net c' = net c /\ cell c' = v'.
Proof.
  intros Hc Hr E Hm.
  destruct (trace_local_steps c r seg rest v' Hc Hr E Hm) as (c' & Hs & H).
  exists c'. split; [eapply reachable_steps; eauto | exact H].
Qed.

(** A sender meets the receiver its trace pairs it with. *)
Lemma trace_rendezvous c s d m rs rd :
  reach c -> (s < N)%nat -> (d < N)%nat ->
  T s = log c s ++ ASend m :: rs ->
  T d = log c d ++ ARecv m :: rd ->
  net c = [] ->
  exists c', reach c' /\
    log c' s = log c s ++ [ASend m] /\ log c' d = log c d ++ [ARecv m] /\
    (forall j, j <> s -> j <> d -> log c' j = log c j) /\
    net c' = [] /\ cell c' = cell c.
Proof.
  intros Hc Hs Hd Es Ed Hnet.
  destruct (code_follows c s _ _ Hc Hs eq_refl Es) as (ps & Hls & _).
  destruct (code_follows c d _ _ Hc Hd eq_refl Ed) as (pd & Hld & _).
  assert (s <> d) as Hsd.
  { intros ->. eapply lstep_not_send_recv; eauto. }
  exists (advance (advance c s (ASend m) ps) d (ARecv m) pd). split.
  - eapply reachable_step; [exact Hc|].
    apply G_rendezvous; auto. rewrite Hnet. contradiction.
  - simpl. rewrite !upd_same, !(upd_other _ d _ s), !upd_same by assumption.
    rewrite !(upd_other _ s _ d) by congruence.
    repeat split; auto. intros j Hjs Hjd. now rewrite !upd_other.
Qed.

(** A sender hands its message to the transport, which has room. *)
Lemma trace_post c s m rs :
  reach c -> (s < N)%nat -> T s = log c s ++ ASend m :: rs ->
  (length (net c) < cap)%nat ->
  exists c', reach c' /\ log c' s = log c s ++ [ASend m] /\
    (forall j, j <> s -> log c' j = log c j) /\
    net c' = net c ++ [m] /\ cell c' = cell c.
Proof.
  intros Hc Hs Es Hcap.
  destruct (code_follows c s _ _ Hc Hs eq_refl Es) as (ps & Hls & _).
  exists (with_net (advance c s (ASend m) ps) (net c ++ [m])). split.
  - eapply reachable_step; [exact Hc|]. now apply G_post.
  - simpl. rewrite upd_same. repeat split; auto.
    intros j Hj. now rewrite upd_other.
Qed.

(** A receiver takes the oldest matching message from the transport. *)
Lemma trace_deliver c d m rd l1 l2 :
  reach c -> (d < N)%nat -> T d = log c d ++ ARecv m :: rd ->
  net c = l1 ++ m :: l2 ->
  (forall m', In m' l1 -> ~ same_envelope m' m) ->
  exists c', reach c' /\ log c' d = log c d ++ [ARecv m] /\
    (forall j, j <> d -> log c' j = log c j) /\
    net c' = l1 ++ l2 /\ cell c' = cell c.
Proof.
  intros Hc Hd Ed Hnet Hfirst.
  destruct (code_follows c d _ _ Hc Hd eq_refl Ed) as (pd & Hld & _).
  exists (with_net (advance c d (ARecv m) pd) (l1 ++ l2)). split.
  - eapply reachable_step; [exact Hc|]. now apply G_deliver.
  - simpl. rewrite upd_same. repeat split; auto.
    intros j Hj. now rewrite upd_other.
Qed.

(** A sender meets its receiver while other messages are in flight. *)
Lemma trace_rendezvous_busy c s d m rs rd :
  reach c -> (s < N)%nat -> (d < N)%nat ->
  T s = log c s ++ ASend m :: rs ->
  T d = log c d ++ ARecv m :: rd ->
  (forall m', In m' (net c) -> ~ same_envelope m' m) ->
  exists c', reach c' /\
    log c' s = log c s ++ [ASend m] /\ log c' d = log c d ++ [ARecv m] /\
    (forall j, j <> s -> j <> d -> log c' j = log c j) /\
    net c' = net c /\ cell c' = cell c.
Proof.
  intros Hc Hs Hd Es Ed Hnet.
  destruct (code_follows c s _ _ Hc Hs eq_refl Es) as (ps & Hls & _).
  destruct (code_follows c d _ _ Hc Hd eq_refl Ed) as (pd & Hld & _).
  assert (s <> d) as Hsd.
  { intros ->. eapply lstep_not_send_recv; eauto. }
  exists (advance (advance c s (ASend m) ps) d (ARecv m) pd). split.
  - eapply reachable_step; [exact Hc|]. now apply G_rendezvous.
  - simpl. rewrite !upd_same, !(upd_other _ d _ s), !upd_same by assumption.
    rewrite !(upd_other _ s _ d) by congruence.
    split; [reflexivity|]. split; [reflexivity|]. split; [|split; reflexivity].
    intros j Hjs Hjd. now rewrite !upd_other.
Qed.

(** All ranks have a collective next in their traces. *)
Lemma trace_sync c x (rest : nat -> list act) :
  reach c -> (0 < N)%nat ->
  (forall r, (r < N)%nat -> T r = log c r ++ ASync x :: rest r) ->
  exists c', reach c' /\
    (forall r, (r < N)%nat -> log c' r = log c r ++ [ASync x]) /\
    net c' = net c /\ cell c' = cell c.
Proof.
  intros Hc HN E.
  destruct (fire_sync cap N x c HN) as (c' & Hs & Hin & _ & Hn & Hv).
  - intros r Hr.
    destruct (code_follows c r _ _ Hc Hr eq_refl (E r Hr)) as (p1 & Hl & _).
    inversion Hl; subst. eauto.
  - exists c'. repeat split; auto.
    + eapply reachable_step; eauto.
    + intros r Hr. now apply Hin.
Qed.

(** A rank whose log is its whole trace stands at the final code. *)
Lemma trace_done c r :
  reach c -> (r < N)%nat -> log c r = T r -> code c r = fin r.
Proof.
  intros Hc Hr Hl.
  pose proof (code_follows c r (T r) [] Hc Hr Hl) as Hf.
  simpl in Hf. symmetry. apply Hf. now rewrite app_nil_r.
Qed.

(** Every rank in turn performs a stretch of its trace on its own. *)
Lemma trace_each_steps c (I : nat -> Z -> Prop) (seg rest : nat -> list act) :
  reach c ->
  (forall r, (r < N)%nat -> T r = log c r ++ seg r ++ rest r) ->
  I O (cell c) ->
  (forall r v, (r < N)%nat -> I r v ->
     exists v', mem_run v (seg r) v' /\ I (S r) v') ->
  exists c', steps cap N c c' /\
    (forall r, (r < N)%nat -> log c' r = log c r ++ seg r) /\
    net c' = net c /\ I N (cell c').
Proof.
  intros Hc E HI Hm.
  destruct (fire_each cap N I seg
              (fun r => match replay (code c r) (seg r) with
                        | Some p => p
                        | None => code c r
                        end) c HI)
    as (c' & Hs & Hin & _ & Hn & Hv).
  - intros r v Hr Hv. destruct (Hm r v Hr Hv) as (v' & Hrun & Hi).
    exists v'. split; [|assumption].
    pose proof (code_follows c r _ _ Hc Hr eq_refl (E r Hr)) as Hf.
    destruct (follows_split _ _ _ _ _ Hf) as (p1 & Hseg & _).
    rewrite (follows_replay _ _ _ _ Hseg).
    now apply follows_mexec.
  - exists c'. repeat split; auto.
    intros r Hr. now apply Hin.
Qed.

Lemma trace_each c (I : nat -> Z -> Prop) (seg rest : nat -> list act) :
  reach c ->
  (forall r, (r < N)%nat -> T r = log c r ++ seg r ++ rest r) ->
  I O (cell c) ->
  (forall r v, (r < N)%nat -> I r v ->
     exists v', mem_run v (seg r) v' /\ I (S r) v') ->
  exists c', reach c' /\
    (forall r, (r < N)%nat -> log c' r = log c r ++ seg r) /\
    net c' = net c /\ I N (cell c').
Proof.
  intros Hc E HI Hm.
  destruct (trace_each_steps c I seg rest Hc E HI Hm) as (c' & Hs & H).
  exists c'. split; [eapply reachable_steps; eauto | exact H].
Qed.

(** Whatever a rank does next is the next entry of its trace, up to the
    answer. *)
Lemma next_entry c r a p' :
  reach c -> (r < N)%nat -> halted (fin r) -> prefix (log c r) (T r) ->
  lstep r (code c r) a p' ->
  exists b rest, T r = log c r ++ b :: rest /\ skeleton a = skeleton b.
Proof.
  intros Hc Hr Hh Hp Hl.
  eapply follows_next; eauto using T_follows.
  now apply replay_log with (cap := cap) (cell0 := cell0).
Qed.

(** A rank that has returned has performed its whole trace, and the
    value it returned is the one the trace ends in. *)
Lemma trace_exit c r v :
  reach c -> (r < N)%nat -> prefix (log c r) (T r) -> exited c r v ->
  log c r = T r /\ fin r = Ret v.
Proof.
  intros Hc Hr Hp He. unfold exited in He.
  pose proof (replay_log _ _ _ _ _ Hc r) as Hrep. rewrite He in Hrep.
  assert (log c r = T r) as E
    by (eapply follows_done; eauto using T_follows).
  split; [assumption|].
  pose proof (follows_replay _ _ _ _ (T_follows r Hr)) as Hfull.
  rewrite <- E in Hfull. congruence.
Qed.

End TraceLevel.

(* ================================================================= *)
(** * Message invariants along traces *)

(** What a local step guarantees about the answer it records. *)
Definition wf_act (a : act) : Prop :=
  match a with
  | AMalloc n bytes => length bytes = Z.to_nat n
  | _ => True
  end.

Lemma lstep_wf r p a p' : lstep r p a p' -> wf_act a.
Proof. destruct 1; simpl; auto. Qed.

Section TraceInvariant.

Variable cap : nat.
Variable N : nat.
Variable main : Z -> Z -> prog Z.
Variable cell0 : Z.

(** Traces may depend on what the environment answers ([Theta]: the
    clock readings, the bytes of fresh memory); [valid] says which
    answers are possible. *)
Variable Theta : Type.
Variable valid : Theta -> Prop.
Variable T : Theta -> nat -> list act.
Variable Q : message -> Prop.

Hypothesis Theta_inhabited : exists th, valid th.

Hypothesis T_follows :
  forall th r, valid th -> (r < N)%nat ->
    exists q, follows r (main (Z.of_nat r) (Z.of_nat N)) (T th r) q /\ halted q.

(** The next action, when it agrees with the trace up to the answer and
    received messages satisfy [Q], extends the log along some trace, and a
    message it sends satisfies [Q]. *)
Hypothesis T_extend :
  forall r th l b rest a, (r < N)%nat -> valid th ->
    T th r = l ++ b :: rest -> skeleton a = skeleton b -> wf_act a ->
    (forall m, a = ARecv m -> Q m) ->
    (exists th', valid th' /\ prefix (l ++ [a]) (T th' r)) /\
    (forall m, a = ASend m -> Q m).

Theorem trace_invariant c :
  reachable cap N main cell0 c ->
  (forall r, (r < N)%nat -> exists th, valid th /\ prefix (log c r) (T th r)) /\
  (forall m, In m (net c) -> Q m).
Proof.
  intros Hc.
  destruct (rg_reachable cap N main cell0
    (fun r p l => replay (main (Z.of_nat r) (Z.of_nat N)) l = Some p /\
                  exists th, valid th /\ prefix l (T th r)) Q) with (c := c)
    as [HP HQ]; [| |assumption|].
  - intros r Hr. split; [reflexivity|].
    destruct Theta_inhabited as [th Hth]. exists th.
    split; [assumption|apply prefix_nil].
  - intros r p l a p' Hr [Hrep [th [Hth Hpre]]] Hl Hg.
    destruct (T_follows th r Hth Hr) as (q & Hf & Hq).
    destruct (follows_next _ _ _ _ _ _ _ _ Hf Hq Hrep Hpre Hl)
      as (b & rest & E & Hsk).
    destruct (T_extend r th l b rest a Hr Hth E Hsk (lstep_wf _ _ _ _ Hl) Hg)
      as [Hext Hsend].
    split; [split|]; auto.
    eapply replay_snoc; [eassumption|]. eapply lstep_next; eauto.
  - split; [|assumption]. intros r Hr. now apply HP.
Qed.

End TraceInvariant.

Lemma in_middle {X} (l : list X) b rest : In b (l ++ b :: rest).
Proof. apply in_elt. Qed.

(* ================================================================= *)
(** * The ring ([mpi_ring.c]) *)


(** The token after [i] increments. *)
Fixpoint tok (i : nat) : Z :=
  match i with
  | O => 42
  | S i' => tok i' +! 1
  end.

(** What rank [r] of a ring of [N] does, from start to finish. *)
Definition ring_trace (N r : nat) : list act :=
  let rank := Z.of_nat r in
  let size := Z.of_nat N in
  match r with
  | O =>
      [ACall CInit;
       ASend (Msg rank ((rank +! 1) %! size) 0 MPI_INT [42]);
       ARecv (Msg (size -! 1) rank 0 MPI_INT [tok (N - 1)]);
       ACall (CPrintf stdout "Rank %d received final token=%d\n"
                [AInt rank; AInt (tok (N - 1))]);
       ACall CFinalize]
  | S r' =>
      [ACall CInit;
       ARecv (Msg (rank -! 1) rank 0 MPI_INT [tok r']);
       ASend (Msg rank ((rank +! 1) %! size) 0 MPI_INT [tok r' +! 1]);
       ACall (CPrintf stdout "Rank %d forwarded token=%d\n"
                [AInt rank; AInt (tok r' +! 1)]);
       ACall CFinalize]
  end.

Lemma ring_follows N r :
  follows r (ring_main (Z.of_nat r) (Z.of_nat N)) (ring_trace N r) (Ret 0).
Proof.
  destruct r as [|r'].
  - simpl.
    eexists; split; [constructor|].
    eexists; split; [constructor|].
    eexists; split; [apply L_recv; simpl; lia|].
    eexists; split; [constructor|].
    eexists; split; [constructor|].
    reflexivity.
  - unfold ring_trace, ring_main.
    replace (Z.of_nat (S r') =? 0) with false by (symmetry; apply Z.eqb_neq; lia).
    cbn [bind MPI_Init MPI_Recv_int MPI_Recv MPI_Send MPI_Finalize printf follows].
    eexists; split; [constructor|].
    eexists; split; [apply L_recv; simpl; lia|].
    eexists; split; [constructor|].
    eexists; split; [constructor|].
    eexists; split; [constructor|].
    reflexivity.
Qed.

(** Every message on the ring carries the token its sender forwards. *)
Definition ring_msg_ok (m : message) : Prop :=
  exists s, src m = Z.of_nat s /\ data m = [tok s].

Lemma of_nat_pred_int r :
  Z.of_nat (S r) <= CInt.INT_MAX -> Z.of_nat (S r) -! 1 = Z.of_nat r.
Proof.
  intros H. rewrite sub_small; [lia|].
  unfold CInt.in_range, CInt.INT_MIN, CInt.INT_MAX in *. lia.
Qed.

Lemma ring_extend N r l b rest a :
  (r < N)%nat -> Z.of_nat N <= CInt.INT_MAX ->
  ring_trace N r = l ++ b :: rest -> skeleton a = skeleton b ->
  (forall m, a = ARecv m -> ring_msg_ok m) ->
  (exists _ : unit, True /\ prefix (l ++ [a]) (ring_trace N r)) /\
  (forall m, a = ASend m -> ring_msg_ok m).
Proof.
  intros Hr HN E Hs Hg.
  assert (In b (ring_trace N r)) as Hin by (rewrite E; apply in_middle).
  assert (a = b ->
          (exists _ : unit, True /\ prefix (l ++ [a]) (ring_trace N r)))
    as Hpre by (intros ->; exists tt; split; [exact I|];
                eapply prefix_snoc; eauto).
  assert (forall d m0, In (ARecv m0) (ring_trace N r) ->
            ring_msg_ok (Msg (src m0) (dst m0) (tag m0) (ty m0) d) ->
            d = data m0) as Hrecv.
  { intros d m0 Hm0 (s & Hsrc & Hd). cbn [src data] in Hsrc, Hd. subst d.
    destruct r as [|r']; cbn [ring_trace In] in Hm0;
      repeat (destruct Hm0 as [Hm0|Hm0]; try discriminate); try contradiction;
      injection Hm0 as <-; cbn [src data] in *.
    - destruct N as [|N']; [lia|].
      rewrite of_nat_pred_int in Hsrc by assumption.
      apply Nat2Z.inj in Hsrc. subst s. do 2 f_equal. lia.
    - change (Z.pos (Pos.of_succ_nat r')) with (Z.of_nat (S r')) in Hsrc.
      rewrite of_nat_pred_int in Hsrc by lia.
      apply Nat2Z.inj in Hsrc. now subst s. }
  assert (forall x, In x (ring_trace N r) ->
            (exists c, x = ACall c) \/ (exists m, x = ASend m) \/
            (exists m, x = ARecv m)) as Hkind.
  { intros x Hx. destruct r; cbn [ring_trace In] in Hx;
      repeat (destruct Hx as [Hx|Hx]; [subst x; eauto|]); contradiction. }
  destruct (Hkind b Hin) as [[c ->]|[[m ->]|[m ->]]].
  - apply skeleton_fixed in Hs; [subst a|exact I].
    split; [auto|intros m [=]].
  - apply skeleton_fixed in Hs; [subst a|exact I].
    split; [auto|]. intros m0 [= <-].
    destruct r as [|r']; cbn [ring_trace In] in Hin;
      repeat (destruct Hin as [Hin|Hin]; try discriminate); try contradiction;
      injection Hin as <-.
    + now exists O.
    + now exists (S r').
  - destruct (skeleton_recv _ _ Hs) as [d ->].
    assert (d = data m) as -> by (apply Hrecv; auto).
    split; [|intros m0 [=]]. apply Hpre. now destruct m.
Qed.

Lemma tok_wrap i : tok i = CInt.wrap (42 + Z.of_nat i).
Proof.
  induction i as [|i IH].
  - reflexivity.
  - cbn [tok]. rewrite IH. unfold CInt.add. rewrite wrap_add_l. f_equal. lia.
Qed.

(** The message rank [s] passes to its successor. *)
Definition ring_msg (N s : nat) : message :=
  Msg (Z.of_nat s) (Z.of_nat ((s + 1) mod N)) 0 MPI_INT [tok s].

Lemma ring_dest N r :
  (r < N)%nat -> Z.of_nat N <= CInt.INT_MAX ->
  (Z.of_nat r +! 1) %! Z.of_nat N = Z.of_nat ((r + 1) mod N).
Proof.
  intros Hr HN. rewrite add_small.
  - unfold CInt.rem. rewrite Z.rem_mod_nonneg by lia.
    rewrite Nat2Z.inj_mod. f_equal. lia.
  - unfold CInt.in_range, CInt.INT_MIN, CInt.INT_MAX in *. lia.
Qed.

Lemma ring_trace_first N :
  (1 <= N)%nat -> Z.of_nat N <= CInt.INT_MAX ->
  ring_trace N 0 =
    [ACall CInit; ASend (ring_msg N 0); ARecv (ring_msg N (N - 1));
     ACall (CPrintf stdout "Rank %d received final token=%d\n"
              [AInt 0; AInt (tok (N - 1))]);
     ACall CFinalize].
Proof.
  intros H1 HN. unfold ring_trace, ring_msg.
  rewrite ring_dest by (assumption || lia).
  destruct N as [|N']; [lia|].
  rewrite of_nat_pred_int by assumption.
  replace (S N' - 1)%nat with N' by lia.
  replace (N' + 1)%nat with (S N') by lia.
  rewrite Nat.Div0.mod_same. reflexivity.
Qed.

Lemma ring_trace_next N r :
  (S r < N)%nat -> Z.of_nat N <= CInt.INT_MAX ->
  ring_trace N (S r) =
    [ACall CInit; ARecv (ring_msg N r); ASend (ring_msg N (S r));
     ACall (CPrintf stdout "Rank %d forwarded token=%d\n"
              [AInt (Z.of_nat (S r)); AInt (tok (S r))]);
     ACall CFinalize].
Proof.
  intros Hr HN. unfold ring_trace, ring_msg.
  rewrite ring_dest by (assumption || lia).
  rewrite of_nat_pred_int by lia.
  replace (r + 1)%nat with (S r) by lia.
  rewrite (Nat.mod_small (S r) N) by assumption. reflexivity.
Qed.

Lemma ring_follows_all N r :
  (r < N)%nat ->
  follows r (ring_main (Z.of_nat r) (Z.of_nat N)) (ring_trace N r) (Ret 0).
Proof. intros _. apply ring_follows. Qed.

(** ** A complete run of the ring *)

Section RingRun.

Variable cap : nat.
Variable N : nat.
Variable cell0 : Z.
Hypothesis N_two : (2 <= N)%nat.
Hypothesis N_int : Z.of_nat N <= CInt.INT_MAX.

Local Abbreviation ring_reach := (reachable cap N ring_main cell0).

Let ring_T_follows := ring_follows_all N.

(** All ranks have initialised; nobody has communicated. *)
Lemma ring_started :
  exists c, ring_reach c /\ (forall r, (r < N)%nat -> log c r = [ACall CInit]) /\
            net c = [].
Proof.
  destruct (trace_each cap N ring_main cell0 (ring_trace N) (fun _ => Ret 0)
              ring_T_follows (init N ring_main cell0) (fun _ _ => True)
              (fun _ => [ACall CInit]) (fun r => tl (ring_trace N r)))
    as (c & Hc & Hl & Hn & _).
  - apply reachable_init.
  - intros r _. destruct r; reflexivity.
  - exact I.
  - intros r v _ _. exists v. split; [|exact I]. exists v. now split.
  - exists c. repeat split; auto.
Qed.

(** The token has reached rank [S j]: rank 0 waits for it to come back,
    ranks [1..j] are done, the ranks behind [S j] wait. *)
Definition ring_mid (j : nat) (c : config) : Prop :=
  net c = [] /\
  log c O = [ACall CInit; ASend (ring_msg N 0)] /\
  (forall r, (1 <= r <= j)%nat -> log c r = ring_trace N r) /\
  log c (S j) = [ACall CInit; ARecv (ring_msg N j)] /\
  (forall r, (S j < r < N)%nat -> log c r = [ACall CInit]).

Lemma ring_chain j :
  (S j < N)%nat -> exists c, ring_reach c /\ ring_mid j c.
Proof.
  induction j as [|j IH]; intros Hj.
  - destruct ring_started as (c & Hc & Hl & Hn).
    destruct (trace_rendezvous cap N ring_main cell0 (ring_trace N)
                (fun _ => Ret 0) ring_T_follows c 0%nat 1%nat (ring_msg N 0)
                [ARecv (ring_msg N (N - 1));
                 ACall (CPrintf stdout "Rank %d received final token=%d\n"
                          [AInt 0; AInt (tok (N - 1))]);
                 ACall CFinalize]
                [ASend (ring_msg N 1);
                 ACall (CPrintf stdout "Rank %d forwarded token=%d\n"
                          [AInt (Z.of_nat 1); AInt (tok 1)]);
                 ACall CFinalize])
      as (c' & Hc' & Hs & Hd & Ho & Hn' & _); auto; try lia.
    + rewrite Hl, ring_trace_first by lia. reflexivity.
    + rewrite Hl, ring_trace_next by lia. reflexivity.
    + exists c'. split; [assumption|]. unfold ring_mid.
      rewrite Hs, Hd, !Hl by lia. repeat split; auto.
      * intros r Hr. lia.
      * intros r Hr. rewrite Ho by lia. apply Hl. lia.
  - destruct IH as (c & Hc & Hn & H0 & Hdone & Hcur & Hwait); [lia|].
    destruct (trace_rendezvous cap N ring_main cell0 (ring_trace N)
                (fun _ => Ret 0) ring_T_follows c (S j) (S (S j))
                (ring_msg N (S j))
                [ACall (CPrintf stdout "Rank %d forwarded token=%d\n"
                          [AInt (Z.of_nat (S j)); AInt (tok (S j))]);
                 ACall CFinalize]
                [ASend (ring_msg N (S (S j)));
                 ACall (CPrintf stdout "Rank %d forwarded token=%d\n"
                          [AInt (Z.of_nat (S (S j))); AInt (tok (S (S j)))]);
                 ACall CFinalize])
      as (c1 & Hc1 & Hs1 & Hd1 & Ho1 & Hn1 & _); auto; try lia.
    + rewrite Hcur, ring_trace_next by lia. reflexivity.
    + rewrite Hwait, ring_trace_next by lia. reflexivity.
    + destruct (trace_local cap N ring_main cell0 (ring_trace N)
                  (fun _ => Ret 0) ring_T_follows c1 (S j)
                  [ACall (CPrintf stdout "Rank %d forwarded token=%d\n"
                            [AInt (Z.of_nat (S j)); AInt (tok (S j))]);
                   ACall CFinalize] [] (cell c1))
        as (c2 & Hc2 & Hl2 & Ho2 & Hn2 & _); auto; try lia.
      * rewrite Hs1, Hcur, ring_trace_next by lia. reflexivity.
      * apply mem_run_calls. simpl. intros a [<-|[<-|[]]]; eauto.
      * exists c2. split; [assumption|]. unfold ring_mid.
        rewrite Hn2, Hn1. split; [reflexivity|].
        split; [now rewrite Ho2, Ho1 by lia|].
        split; [|split].
        -- intros r Hr. destruct (Nat.eq_dec r (S j)) as [->|Hne].
           ++ rewrite Hl2, Hs1, Hcur, ring_trace_next by lia. reflexivity.
           ++ rewrite Ho2, Ho1 by lia. apply Hdone. lia.
        -- rewrite Ho2, Hd1 by lia. rewrite Hwait by lia. reflexivity.
        -- intros r Hr. rewrite Ho2, Ho1 by lia. apply Hwait. lia.
Qed.

(** The token comes back to rank 0 and everybody finishes. *)
Lemma ring_completes :
  exists c, ring_reach c /\ (forall r, (r < N)%nat -> log c r = ring_trace N r) /\
            all_exited N c 0.
Proof.
  pose (n := (N - 2)%nat).
  destruct (ring_chain n) as (c & Hc & Hn & H0 & Hdone & Hcur & Hwait);
    [unfold n; lia|].
  assert (N - 1 = S n)%nat as EN1 by (unfold n; lia).
  assert (S n < N)%nat as Hn_lt by (unfold n; lia).
  clearbody n.
  destruct (trace_rendezvous cap N ring_main cell0 (ring_trace N)
              (fun _ => Ret 0) ring_T_follows c (S n) 0%nat
              (ring_msg N (S n))
              [ACall (CPrintf stdout "Rank %d forwarded token=%d\n"
                        [AInt (Z.of_nat (S n)); AInt (tok (S n))]);
               ACall CFinalize]
              [ACall (CPrintf stdout "Rank %d received final token=%d\n"
                        [AInt 0; AInt (tok (N - 1))]);
               ACall CFinalize])
    as (c1 & Hc1 & Hs1 & Hd1 & Ho1 & Hn1 & _); auto; try lia.
  { rewrite Hcur, ring_trace_next by lia. reflexivity. }
  { rewrite H0, ring_trace_first, EN1 by lia. reflexivity. }
  destruct (trace_local cap N ring_main cell0 (ring_trace N)
              (fun _ => Ret 0) ring_T_follows c1 (S n)
              [ACall (CPrintf stdout "Rank %d forwarded token=%d\n"
                        [AInt (Z.of_nat (S n)); AInt (tok (S n))]);
               ACall CFinalize] [] (cell c1))
    as (c2 & Hc2 & Hl2 & Ho2 & Hn2 & _); auto; try lia.
  { rewrite Hs1, Hcur, ring_trace_next by lia. reflexivity. }
  { apply mem_run_calls. simpl. intros a [<-|[<-|[]]]; eauto. }
  destruct (trace_local cap N ring_main cell0 (ring_trace N)
              (fun _ => Ret 0) ring_T_follows c2 0%nat
              [ACall (CPrintf stdout "Rank %d received final token=%d\n"
                        [AInt 0; AInt (tok (N - 1))]);
               ACall CFinalize] [] (cell c2))
    as (c3 & Hc3 & Hl3 & Ho3 & Hn3 & _); auto; try lia.
  { rewrite Ho2, Hd1, H0, ring_trace_first, EN1 by lia. reflexivity. }
  { apply mem_run_calls. simpl. intros a [<-|[<-|[]]]; eauto. }
  assert (forall r, (r < N)%nat -> log c3 r = ring_trace N r) as Hall.
  { intros r Hr. destruct (Nat.eq_dec r 0) as [->|Hr0].
    - rewrite Hl3, Ho2, Hd1, H0, ring_trace_first, EN1 by lia. reflexivity.
    - rewrite Ho3 by assumption.
      destruct (Nat.eq_dec r (S n)) as [->|Hrn].
      + rewrite Hl2, Hs1, Hcur, ring_trace_next by lia. reflexivity.
      + rewrite Ho2, Ho1 by lia. apply Hdone. lia. }
  exists c3. repeat split; auto.
  intros r Hr. unfold exited.
  apply (trace_done cap N ring_main cell0 (ring_trace N) (fun _ => Ret 0)
           ring_T_follows c3 r Hc3 Hr (Hall r Hr)).
Qed.

End RingRun.

(** ** What the ring computes *)

Lemma ring_prefix cap N cell0 c :
  (1 <= N)%nat -> Z.of_nat N <= CInt.INT_MAX ->
  reachable cap N ring_main cell0 c ->
  forall r, (r < N)%nat -> prefix (log c r) (ring_trace N r).
Proof.
  intros H1 HN Hc r Hr.
  destruct (trace_invariant cap N ring_main cell0 unit (fun _ => True)
              (fun _ => ring_trace N) ring_msg_ok) with (c := c)
    as [Hp _]; auto.
  - now exists tt.
  - intros _ r0 _ _. exists (Ret 0). split; [apply ring_follows|now exists 0].
  - intros r0 _ l b rest a Hr0 _ E Hs _ Hg. eapply ring_extend; eauto.
  - destruct (Hp r Hr) as [_ [_ H]]. exact H.
Qed.

Lemma final_token_tok N :
  (1 <= N)%nat -> (Z.of_nat N - 1) +! 42 = tok (N - 1).
Proof.
  intros H. rewrite tok_wrap. unfold CInt.add. f_equal. lia.
Qed.

(** C1.  In a ring of [N >= 2] ranks the program runs to completion; the
    token rank 0 receives back (and prints) is [(N - 1) + 42] in [int]
    arithmetic, which is the exact sum whenever that fits an [int]; rank 0
    sends the initial token 42; and every other rank forwards the value it
    received plus 1.  A rank that has returned has both received and
    sent. *)
Theorem ring_token_correct (cap N : nat) (cell0 : Z) :
  (2 <= N)%nat -> Z.of_nat N <= CInt.INT_MAX ->
  let final := (Z.of_nat N - 1) +! 42 in
  (Z.of_nat N - 1 + 42 <= CInt.INT_MAX -> final = Z.of_nat N - 1 + 42) /\
  (exists c, reachable cap N ring_main cell0 c /\ all_exited N c 0) /\
  (forall c, reachable cap N ring_main cell0 c ->
     (forall m, In (ASend m) (log c O) -> data m = [42]) /\
     (forall m, In (ARecv m) (log c O) -> data m = [final]) /\
     (forall fmt args, In (ACall (CPrintf stdout fmt args)) (log c O) ->
        args = [AInt 0; AInt final]) /\
     (forall i m, (1 <= i < N)%nat -> In (ASend m) (log c i) ->
        exists m' v, In (ARecv m') (log c i) /\
                     data m' = [v] /\ data m = [v +! 1]) /\
     (forall r v, (r < N)%nat -> exited c r v ->
        v = 0 /\ (exists m, In (ARecv m) (log c r)) /\
        (exists m, In (ASend m) (log c r)))).
Proof.
  intros H2 HN final.
  assert (final = tok (N - 1)) as Efinal by (apply final_token_tok; lia).
  split; [|split].
  - intros Hfit. subst final. apply add_small.
    unfold CInt.in_range, CInt.INT_MIN. lia.
  - destruct (ring_completes cap N cell0 H2 HN) as (c & Hc & _ & He). eauto.
  - intros c Hc.
    assert (forall r, (r < N)%nat -> prefix (log c r) (ring_trace N r)) as Hp
      by (apply (ring_prefix cap N cell0); auto; lia).
    repeat split.
    + intros m Hm. apply (prefix_in _ _ _ (Hp O ltac:(lia))) in Hm.
      rewrite ring_trace_first in Hm by lia. simpl in Hm.
      repeat (destruct Hm as [Hm|Hm]; try discriminate); try contradiction.
      now injection Hm as <-.
    + intros m Hm. apply (prefix_in _ _ _ (Hp O ltac:(lia))) in Hm.
      rewrite ring_trace_first in Hm by lia. simpl in Hm.
      repeat (destruct Hm as [Hm|Hm]; try discriminate); try contradiction.
      injection Hm as <-. simpl. now rewrite Efinal.
    + intros fmt args Hm. apply (prefix_in _ _ _ (Hp O ltac:(lia))) in Hm.
      rewrite ring_trace_first in Hm by lia. simpl in Hm.
      repeat (destruct Hm as [Hm|Hm]; try discriminate); try contradiction.
      injection Hm as _ <-. now rewrite Efinal.
    + intros i m Hi Hm. destruct i as [|j]; [lia|].
      destruct (Hp (S j) ltac:(lia)) as [rest E].
      rewrite ring_trace_next in E by lia.
      exists (ring_msg N j), (tok j).
      destruct (log c (S j)) as [|x0 [|x1 [|x2 l]]]; simpl in E, Hm.
      * contradiction.
      * injection E as <- _. destruct Hm as [Hm|[]]. discriminate.
      * injection E as <- <- _. destruct Hm as [Hm|[Hm|[]]]; discriminate.
      * injection E as <- <- <- E. split; [simpl; auto|]. split; [reflexivity|].
        destruct Hm as [Hm|[Hm|[Hm|Hm]]]; try discriminate.
        -- now injection Hm as <-.
        -- destruct l as [|x3 [|x4 l]]; simpl in E, Hm; try contradiction.
           ++ injection E as <- _. destruct Hm as [Hm|[]]. discriminate.
           ++ injection E as <- <- E.
              destruct Hm as [Hm|[Hm|Hm]]; try discriminate.
              destruct l; [contradiction|discriminate].
    + destruct (trace_exit cap N ring_main cell0 (ring_trace N)
                  (fun _ => Ret 0) (ring_follows_all N) c r v Hc H (Hp r H) H0)
        as [_ [= <-]]. reflexivity.
    + destruct (trace_exit cap N ring_main cell0 (ring_trace N)
                  (fun _ => Ret 0) (ring_follows_all N) c r v Hc H (Hp r H) H0)
        as [-> _].
      destruct r; simpl; eauto 6.
    + destruct (trace_exit cap N ring_main cell0 (ring_trace N)
                  (fun _ => Ret 0) (ring_follows_all N) c r v Hc H (Hp r H) H0)
        as [-> _].
      destruct r; simpl; eauto 6.
Qed.

Lemma ring_token_correct_witness :
  (2 <= 3)%nat /\ Z.of_nat 3 <= CInt.INT_MAX /\
  (Z.of_nat 3 - 1) +! 42 = 44 /\
  (exists c, reachable 0 3 ring_main 0 c /\ all_exited 3 c 0).
Proof.
  assert (2 <= 3)%nat as H2 by lia.
  assert (Z.of_nat 3 <= CInt.INT_MAX) as H3 by (unfold CInt.INT_MAX; simpl; lia).
  destruct (ring_token_correct 0 3 0 H2 H3) as (_ & Hrun & _).
  repeat split; auto.
Defined.

(* ================================================================= *)
(** * A global step, seen from the logs *)

Section StepView.

Variable cap : nat.
Variable N : nat.

(** What a step of one rank alone requires of, and does to, the network
    and the window memory. *)
Definition solo_ok (c : config) (a : act) (c' : config) : Prop :=
  match a with
  | ACall _ | AMalloc _ _ | AWtime _ => net c' = net c /\ cell c' = cell c
  | ASend m =>
      (length (net c) < cap)%nat /\ net c' = net c ++ [m] /\ cell c' = cell c
  | ARecv m =>
      (exists l1 l2, net c = l1 ++ m :: l2 /\ net c' = l1 ++ l2) /\
      cell c' = cell c
  | ASync _ => False
  | AGet v | ALoad v => v = cell c /\ net c' = net c /\ cell c' = cell c
  | APut v | AStore v => net c' = net c /\ cell c' = v
  end.

Inductive step_view (c c' : config) : Prop :=
| V_solo r a :
    (r < N)%nat -> lstep r (code c r) a (code c' r) ->
    log c' r = log c r ++ [a] ->
    (forall j, j <> r -> code c' j = code c j /\ log c' j = log c j) ->
    solo_ok c a c' ->
    step_view c c'
| V_rendezvous s d m :
    (s < N)%nat -> (d < N)%nat -> s <> d ->
    lstep s (code c s) (ASend m) (code c' s) ->
    lstep d (code c d) (ARecv m) (code c' d) ->
    log c' s = log c s ++ [ASend m] -> log c' d = log c d ++ [ARecv m] ->
    (forall j, j <> s -> j <> d -> code c' j = code c j /\ log c' j = log c j) ->
    net c' = net c -> cell c' = cell c ->
    step_view c c'
| V_sync x :
    (0 < N)%nat ->
    (forall r, (r < N)%nat ->
       lstep r (code c r) (ASync x) (code c' r) /\
       log c' r = log c r ++ [ASync x]) ->
    net c' = net c -> cell c' = cell c ->
    step_view c c'.

Lemma step_view_of c c' : step cap N c c' -> step_view c c'.
Proof.
  intros H.
  destruct H as [c r a p Hr Hl Hi | c r m p Hr Hl Hc
                | c r m p l1 l2 Hr Hl Hn Hf | c s d m ps pd Hs Hd Hls Hld Hf
                | c c' x HN Hall Hout Hnet Hcell | c r p Hr Hl
                | c r v p Hr Hl | c r p Hr Hl | c r v p Hr Hl].
  1-3,6-9: (eapply V_solo with (r := r); simpl; rewrite ?upd_same; eauto;
    [intros j Hj; now rewrite !upd_other by assumption|]).
  - destruct a; simpl in *; try contradiction; auto.
  - simpl. auto.
  - simpl. split; [|reflexivity]. eauto.
  - simpl. auto.
  - simpl. auto.
  - simpl. auto.
  - simpl. auto.
  - assert (s <> d) as Hsd.
    { intros ->. eapply lstep_not_send_recv; eauto. }
    eapply V_rendezvous with (s := s) (d := d) (m := m); simpl; auto;
      rewrite ?upd_same, ?(upd_other _ d _ s), ?upd_same by assumption;
      rewrite ?(upd_other _ s _ d) by congruence; auto.
    intros j Hjs Hjd. now rewrite !upd_other by assumption.
  - eapply V_sync; eauto.
Qed.

End StepView.

(* ================================================================= *)
(** * Exit codes *)

(** [returns p v]: some sequence of actions and answers takes [p] to
    [return v]. *)
Definition returns (p : prog Z) (v : Z) : Prop :=
  exists l, replay p l = Some (Ret v).

Lemma returns_ret x v : returns (Ret x) v -> x = v.
Proof.
  intros [[|a l] H]; simpl in H; [congruence|discriminate].
Qed.

(** A sequence returns what its second part returns. *)
Lemma returns_bind {A} (m : prog A) (K : A -> prog Z) v :
  returns (bind m K) v -> exists x, returns (K x) v.
Proof.
  induction m as [x|c k IH|n k IH|k IH|p t d g k IH|n t s g k IH|c k IH
                 |t d k IH|w t d k IH|k IH|w k IH];
    intros [l H]; simpl in H.
  - exists x. now exists l.
  - destruct l as [|[] l]; simpl in H; try discriminate. apply IH. now exists l.
  - destruct l as [|[] l]; simpl in H; try discriminate.
    eapply IH. exists l. eassumption.
  - destruct l as [|[] l]; simpl in H; try discriminate.
    eapply IH. exists l. eassumption.
  - destruct l as [|[] l]; simpl in H; try discriminate. apply IH. now exists l.
  - destruct l as [|[] l]; simpl in H; try discriminate.
    eapply IH. exists l. eassumption.
  - destruct l as [|[] l]; simpl in H; try discriminate. apply IH. now exists l.
  - destruct l as [|[] l]; simpl in H; try discriminate.
    eapply IH. exists l. eassumption.
  - destruct l as [|[] l]; simpl in H; try discriminate. apply IH. now exists l.
  - destruct l as [|[] l]; simpl in H; try discriminate.
    eapply IH. exists l. eassumption.
  - destruct l as [|[] l]; simpl in H; try discriminate. apply IH. now exists l.
Qed.

Lemma exited_returns cap N main cell0 c r v :
  reachable cap N main cell0 c -> exited c r v ->
  returns (main (Z.of_nat r) (Z.of_nat N)) v.
Proof.
  intros Hc He. exists (log c r). rewrite <- He.
  now apply replay_log with (cap := cap) (cell0 := cell0).
Qed.

Ltac returns_tail H :=
  repeat (apply returns_bind in H; destruct H as [? H]);
  apply returns_ret in H.

Lemma ring_returns rank size v : returns (ring_main rank size) v -> v = 0.
Proof. unfold ring_main. intros H. returns_tail H. congruence. Qed.

Lemma race_returns k rank size v : returns (race_prog k rank size) v -> v = 0.
Proof. unfold race_prog. intros H. returns_tail H. congruence. Qed.

Lemma pingpong_returns sz rank size v :
  returns (pingpong_main sz rank size) v ->
  (v = 0 /\ 2 <= size) \/ (v = 1 /\ size < 2).
Proof.
  unfold pingpong_main. intros H.
  apply returns_bind in H. destruct H as [_ H].
  destruct (Z.ltb_spec size 2).
  - right. returns_tail H. split; [congruence|assumption].
  - left. returns_tail H. split; [congruence|assumption].
Qed.

Lemma deadlock_returns rank size v :
  returns (deadlock_main rank size) v ->
  (v = 0 /\ size = 2) \/ (v = 1 /\ size <> 2).
Proof.
  unfold deadlock_main. intros H.
  apply returns_bind in H. destruct H as [_ H].
  destruct (Z.eqb_spec size 2); cbn [negb] in H.
  - left. returns_tail H. split; [congruence|assumption].
  - right. returns_tail H. split; [congruence|assumption].
Qed.

(** The deadlock example started with three ranks: rank 0 reports that
    exactly two are required and returns 1. *)
Lemma deadlock_three_ranks :
  exists c, reachable 0 3 deadlock_main 0 c /\ exited c 0%nat 1.
Proof.
  destruct (fire_mexec 0 3 0%nat (deadlock_main 0 3) 0
              [ACall CInit;
               ACall (CPrintf stdout
                        "This program requires exactly 2 MPI processes\n" []);
               ACall CFinalize] (Ret 1) 0)
    with (c := init 3 deadlock_main 0) as (c & Hs & Hc & _).
  - cbv [deadlock_main Z.eqb negb bind MPI_Init printf MPI_Finalize].
    repeat (econstructor; simpl; eauto).
  - lia.
  - reflexivity.
  - reflexivity.
  - exists c. split; [exact Hs | exact Hc].
Qed.

(** C3 as stated fails: an exit code 1 does not imply that there were too
    few ranks.  With three ranks, one more than the deadlock example asks
    for, rank 0 returns 1. *)
Lemma exit_1_without_insufficient_ranks :
  ~ (forall N c r, reachable 0 N deadlock_main 0 c -> (r < N)%nat ->
       exited c r 1 -> (N < 2)%nat).
Proof.
  intros H. destruct deadlock_three_ranks as (c & Hc & He).
  specialize (H 3%nat c 0%nat Hc ltac:(lia) He). lia.
Qed.

(** C3, amended.  A rank of the ring or of the racy counter only ever
    returns 0.  A rank of the ping-pong returns 1 exactly when the world
    has fewer than 2 ranks and 0 otherwise.  A rank of the deadlock
    example returns 1 exactly when the world does not have exactly 2
    ranks (fewer, or more) and 0 otherwise. *)
Theorem exit_code_policy (cap N : nat) (cell0 MSG_SIZE : Z) c r v :
  (r < N)%nat -> exited c r v ->
  (reachable cap N ring_main cell0 c -> v = 0) /\
  (reachable cap N race_main cell0 c -> v = 0) /\
  (reachable cap N (pingpong_main MSG_SIZE) cell0 c ->
     (v = 0 /\ (2 <= N)%nat) \/ (v = 1 /\ (N < 2)%nat)) /\
  (reachable cap N deadlock_main cell0 c ->
     (v = 0 /\ N = 2%nat) \/ (v = 1 /\ N <> 2%nat)).
Proof.
  intros Hr He. repeat split; intros Hc;
    pose proof (exited_returns _ _ _ _ _ _ _ Hc He) as H.
  - eapply ring_returns; eauto.
  - eapply race_returns; eauto.
  - apply pingpong_returns in H. lia.
  - apply deadlock_returns in H. lia.
Qed.

Lemma exit_code_policy_witness :
  exists c, (0 < 3)%nat /\ exited c 0%nat 1 /\
    reachable 0 3 deadlock_main 0 c /\
    ((1 = 0 /\ 3%nat = 2%nat) \/ (1 = 1 /\ 3%nat <> 2%nat)).
Proof.
  destruct deadlock_three_ranks as (c & Hc & He).
  exists c.
  assert (0 < 3)%nat as H03 by lia.
  destruct (exit_code_policy 0 3 0 8 c 0%nat 1 H03 He) as (_ & _ & _ & Hd).
  repeat split; auto.
Defined.

(* ================================================================= *)
(** * The deadlock ([mpi_deadlock.c]) *)

(** What a rank of the two-rank world does before its send... *)
Definition deadlock_pre (r : nat) : list act :=
  match r with
  | O =>
      [ACall CInit;
       ACall (CPrintf stdout "Process %d starting...\n" [AInt 0]);
       ACall (CFflush stdout);
       ACall (CPrintf stdout "Process 0: Attempting to send to process 1...\n" []);
       ACall (CFflush stdout)]
  | S _ =>
      [ACall CInit;
       ACall (CPrintf stdout "Process %d starting...\n" [AInt 1]);
       ACall (CFflush stdout);
       ACall (CPrintf stdout "Process 1: Attempting to send to process 0...\n" []);
       ACall (CFflush stdout)]
  end.

(** ... the send ... *)
Definition deadlock_msg (r : nat) : message :=
  match r with
  | O => Msg 0 1 0 MPI_INT [42]
  | S _ => Msg 1 0 0 MPI_INT [42]
  end.

(** ... and what it would do if the send ever completed. *)
Definition deadlock_post (r : nat) : list act :=
  match r with
  | O =>
      [ACall (CPrintf stdout "Process 0: Send completed, now receiving...\n" []);
       ARecv (Msg 1 0 0 MPI_INT [42]);
       ACall (CPrintf stdout "Process 0: Received %d\n" [AInt 42]);
       ACall (CPrintf stdout "Process %d: Finalizing (this will never execute)\n"
                [AInt 0]);
       ACall CFinalize]
  | S _ =>
      [ACall (CPrintf stdout "Process 1: Send completed, now receiving...\n" []);
       ARecv (Msg 0 1 0 MPI_INT [42]);
       ACall (CPrintf stdout "Process 1: Received %d\n" [AInt 42]);
       ACall (CPrintf stdout "Process %d: Finalizing (this will never execute)\n"
                [AInt 1]);
       ACall CFinalize]
  end.

Definition deadlock_trace (r : nat) : list act :=
  deadlock_pre r ++ ASend (deadlock_msg r) :: deadlock_post r.

Lemma deadlock_follows r :
  (r < 2)%nat ->
  follows r (deadlock_main (Z.of_nat r) (Z.of_nat 2)) (deadlock_trace r) (Ret 0).
Proof.
  intros Hr. destruct r as [|[|r]]; [| |lia]; cbv [deadlock_trace deadlock_pre
    deadlock_msg deadlock_post app deadlock_main Z.of_nat Pos.of_succ_nat
    Pos.succ Z.eqb Pos.eqb negb bind MPI_Init printf fflush MPI_Send
    MPI_Recv_int MPI_Recv MPI_Finalize follows];
    repeat (eexists; split; [first [apply L_recv; simpl; lia | constructor]|]);
    reflexivity.
Qed.

Lemma deadlock_pre_calls r a : In a (deadlock_pre r) -> exists c, a = ACall c.
Proof.
  destruct r; simpl; intros H;
    repeat (destruct H as [<-|H]; [eauto|]); contradiction.
Qed.

(** The entry after a prefix of a segment, whatever follows the segment. *)
Lemma next_in_or_after (seg post l rest : list act) b :
  prefix l seg -> seg ++ post = l ++ b :: rest ->
  (In b seg /\ prefix (l ++ [b]) seg) \/ (l = seg /\ post = b :: rest).
Proof.
  intros [tl ->] E. rewrite <- app_assoc in E. apply app_inv_head in E.
  destruct tl as [|y tl]; simpl in E.
  - right. split; [now rewrite app_nil_r|assumption].
  - left. injection E as <- _. split.
    + apply in_elt.
    + exists tl. now rewrite <- app_assoc.
Qed.

Lemma prefix_skipn l full : prefix l full -> full = l ++ skipn (length l) full.
Proof.
  intros [rest ->]. rewrite skipn_app, skipn_all, Nat.sub_diag. reflexivity.
Qed.

Lemma prefix_length l full : prefix l full -> (length l <= length full)%nat.
Proof. intros [rest ->]. rewrite length_app. lia. Qed.

Lemma deadlock_pre_length r : length (deadlock_pre r) = 5%nat.
Proof. now destruct r. Qed.

(** ** Two ranks on an unbuffered channel *)

Section Deadlock.

Variable cell0 : Z.

Local Abbreviation dl_reach := (reachable 0 2 deadlock_main cell0).

(** Nothing is in flight and no rank is past the calls before its send. *)
Definition deadlock_inv (c : config) : Prop :=
  net c = [] /\ forall r, (r < 2)%nat -> prefix (log c r) (deadlock_pre r).

(** The next action of a rank: the next call before its send, or the
    send. *)
Lemma deadlock_next c r a p' :
  dl_reach c -> (r < 2)%nat -> prefix (log c r) (deadlock_pre r) ->
  lstep r (code c r) a p' ->
  ((exists x, a = ACall x) /\ prefix (log c r ++ [a]) (deadlock_pre r)) \/
  (log c r = deadlock_pre r /\ a = ASend (deadlock_msg r)).
Proof.
  intros Hc Hr Hp Hl.
  destruct (next_entry 0 2 deadlock_main cell0 deadlock_trace (fun _ => Ret 0)
              deadlock_follows c r a p' Hc Hr)
    as (b & rest & E & Hs); auto.
  - now exists 0.
  - now apply prefix_app_r.
  - destruct (next_in_or_after _ _ _ _ _ Hp E) as [[Hin Hpre]|(El & [= <- _])].
    + destruct (deadlock_pre_calls _ _ Hin) as [x ->].
      apply skeleton_fixed in Hs; [subst a|exact I]. left. eauto.
    + apply skeleton_fixed in Hs; [subst a|exact I]. now right.
Qed.

Lemma deadlock_inv_step c c' :
  dl_reach c -> deadlock_inv c -> step 0 2 c c' -> deadlock_inv c'.
Proof.
  intros Hc [Hnet Hlog] Hs.
  destruct (step_view_of _ _ _ _ Hs)
    as [r a Hr Hl El Ho Hsolo|s d m Hs' Hd Hsd Hls Hld Els Eld Ho Hn Hv
       |x HN Hall Hn Hv].
  - destruct (deadlock_next c r a _ Hc Hr (Hlog r Hr) Hl)
      as [[[x ->] Hp]|[_ ->]]; simpl in Hsolo.
    + destruct Hsolo as [Hn _]. split; [congruence|].
      intros j Hj. destruct (Nat.eq_dec j r) as [->|Hne].
      * now rewrite El.
      * destruct (Ho j Hne) as [_ ->]. auto.
    + lia.
  - destruct (deadlock_next c d _ _ Hc Hd (Hlog d Hd) Hld)
      as [[[x [=]] _]|[_ [=]]].
  - destruct (Hall 0%nat ltac:(lia)) as [Hl _].
    destruct (deadlock_next c 0%nat _ _ Hc ltac:(lia) (Hlog 0%nat ltac:(lia)) Hl)
      as [[[y [=]] _]|[_ [=]]].
Qed.

Lemma deadlock_inv_reachable c : dl_reach c -> deadlock_inv c.
Proof.
  induction 1 as [|c2 c3 Hc2 IH Hs].
  - split; [reflexivity|]. intros r _. apply prefix_nil.
  - eapply deadlock_inv_step; eauto.
Qed.

(** Both ranks stand at their send: no rule applies. *)
Lemma deadlock_stuck c :
  dl_reach c -> (forall r, (r < 2)%nat -> log c r = deadlock_pre r) ->
  stuck 0 2 c.
Proof.
  intros Hc Hfull c' Hs.
  destruct (deadlock_inv_reachable c Hc) as [Hnet Hlog].
  assert (forall r a, (r < 2)%nat ->
            ~ prefix (log c r ++ [a]) (deadlock_pre r)) as Hno.
  { intros r a Hr Hp. apply prefix_length in Hp.
    rewrite length_app, Hfull, deadlock_pre_length in Hp by assumption.
    simpl in Hp. lia. }
  destruct (step_view_of _ _ _ _ Hs)
    as [r a Hr Hl El Ho Hsolo|s d m Hs' Hd Hsd Hls Hld Els Eld Ho Hn Hv
       |x HN Hall Hn Hv].
  - destruct (deadlock_next c r a _ Hc Hr (Hlog r Hr) Hl)
      as [[_ Hp]|[_ ->]]; simpl in Hsolo.
    + eapply Hno; eauto.
    + lia.
  - destruct (deadlock_next c d _ _ Hc Hd (Hlog d Hd) Hld)
      as [[[x [=]] _]|[_ [=]]].
  - destruct (Hall 0%nat ltac:(lia)) as [Hl _].
    destruct (deadlock_next c 0%nat _ _ Hc ltac:(lia) (Hlog 0%nat ltac:(lia)) Hl)
      as [[[y [=]] _]|[_ [=]]].
Qed.

(** From wherever the two ranks are, they run into the deadlock. *)
Lemma deadlock_inevitable c :
  dl_reach c ->
  exists c', steps 0 2 c c' /\ dl_reach c' /\
    (forall r, (r < 2)%nat -> log c' r = deadlock_pre r).
Proof.
  intros Hc. destruct (deadlock_inv_reachable c Hc) as [Hnet Hlog].
  destruct (trace_each_steps 0 2 deadlock_main cell0 deadlock_trace
              (fun _ => Ret 0) deadlock_follows c (fun _ _ => True)
              (fun r => skipn (length (log c r)) (deadlock_pre r))
              (fun r => ASend (deadlock_msg r) :: deadlock_post r))
    as (c' & Hs & Hl & _); auto.
  - intros r Hr. unfold deadlock_trace.
    rewrite (prefix_skipn _ _ (Hlog r Hr)) at 1. now rewrite <- app_assoc.
  - intros r v Hr _. exists v. split; [|exact I].
    apply mem_run_calls. intros a Ha.
    apply (deadlock_pre_calls r). rewrite (prefix_skipn _ _ (Hlog r Hr)).
    apply in_or_app. now right.
  - exists c'. split; [assumption|]. split; [eapply reachable_steps; eauto|].
    intros r Hr. rewrite Hl by assumption.
    symmetry. apply prefix_skipn. auto.
Qed.

End Deadlock.

(** C6.  Two ranks, unbuffered channel ([cap = 0]).  The configuration in
    which both ranks stand at their blocking send is reachable and no rule
    applies to it, although neither rank has returned.  In every reachable
    configuration neither rank has sent, received, printed its final line,
    finalized or returned; and from every reachable configuration the run
    can only end in that blocked configuration. *)
Theorem deadlock_blocks (cell0 : Z) :
  (exists c, reachable 0 2 deadlock_main cell0 c /\ stuck 0 2 c /\
     forall r, (r < 2)%nat ->
       exists k, code c r = Send [42] MPI_INT (Z.of_nat (1 - r)) 0 k) /\
  (forall c, reachable 0 2 deadlock_main cell0 c ->
     (forall r, (r < 2)%nat ->
        (forall m, ~ In (ASend m) (log c r)) /\
        (forall m, ~ In (ARecv m) (log c r)) /\
        ~ In (ACall (CPrintf stdout
                       "Process %d: Finalizing (this will never execute)\n"
                       [AInt (Z.of_nat r)])) (log c r) /\
        ~ In (ACall CFinalize) (log c r) /\
        (forall v, ~ exited c r v)) /\
     (exists c', steps 0 2 c c' /\ stuck 0 2 c' /\
        forall r v, (r < 2)%nat -> ~ exited c' r v)).
Proof.
  assert (forall c r v, reachable 0 2 deadlock_main cell0 c -> (r < 2)%nat ->
            ~ exited c r v) as Hnoexit.
  { intros c r v Hc Hr He.
    destruct (deadlock_inv_reachable cell0 c Hc) as [_ Hlog].
    destruct (trace_exit 0 2 deadlock_main cell0 deadlock_trace
                (fun _ => Ret 0) deadlock_follows c r v Hc Hr) as [E _]; auto.
    - apply prefix_app_r. auto.
    - pose proof (prefix_length _ _ (Hlog r Hr)) as Hlen.
      rewrite E, deadlock_pre_length in Hlen. unfold deadlock_trace in Hlen.
      rewrite length_app, deadlock_pre_length in Hlen. simpl in Hlen. lia. }
  split.
  - destruct (deadlock_inevitable cell0 _ (reachable_init 0 2 deadlock_main cell0))
      as (c & _ & Hc & Hfull).
    exists c. split; [assumption|]. split; [now apply deadlock_stuck with cell0|].
    intros r Hr.
    pose proof (code_follows 0 2 deadlock_main cell0 deadlock_trace
                  (fun _ => Ret 0) deadlock_follows c r _
                  (ASend (deadlock_msg r) :: deadlock_post r) Hc Hr
                  (Hfull r Hr) eq_refl) as (p1 & Hl & _).
    destruct r as [|[|r]]; [| |lia]; inversion Hl; subst; eauto.
  - intros c Hc. destruct (deadlock_inv_reachable cell0 c Hc) as [_ Hlog].
    split.
    + intros r Hr.
      assert (forall a, In a (log c r) -> exists x, a = ACall x /\
                In (ACall x) (deadlock_pre r)) as Hcalls.
      { intros a Ha. apply (prefix_in _ _ _ (Hlog r Hr)) in Ha.
        destruct (deadlock_pre_calls _ _ Ha) as [x ->]. eauto. }
      repeat split.
      * intros m Hm. destruct (Hcalls _ Hm) as (x & [=] & _).
      * intros m Hm. destruct (Hcalls _ Hm) as (x & [=] & _).
      * intros Hm. destruct (Hcalls _ Hm) as (x & _ & Hin).
        apply (prefix_in _ _ _ (Hlog r Hr)) in Hm.
        destruct r as [|[|r]]; [| |lia]; simpl in Hm;
          repeat (destruct Hm as [Hm|Hm]; try discriminate); contradiction.
      * intros Hm. apply (prefix_in _ _ _ (Hlog r Hr)) in Hm.
        destruct r as [|[|r]]; [| |lia]; simpl in Hm;
          repeat (destruct Hm as [Hm|Hm]; try discriminate); contradiction.
      * intros v. now apply Hnoexit.
    + destruct (deadlock_inevitable cell0 c Hc) as (c' & Hs & Hc' & Hfull).
      exists c'. split; [assumption|].
      split; [now apply deadlock_stuck with cell0|].
      intros r v Hr. now apply Hnoexit.
Qed.

(** ** The same two ranks on a channel that buffers *)

(** With room for at least one message in the transport the same program
    runs to completion: rank 0's send is buffered, rank 1's send meets
    rank 0's receive, and rank 1 then receives the buffered message.
    Both ranks return 0 and nothing is left in flight. *)
Theorem deadlock_avoided_by_buffering (cap : nat) (cell0 : Z) :
  (1 <= cap)%nat ->
  exists c, reachable cap 2 deadlock_main cell0 c /\ all_exited 2 c 0 /\
    (forall r, (r < 2)%nat -> log c r = deadlock_trace r) /\ net c = [].
Proof.
  intros Hcap.
  assert (forall l : list act,
            (forall a, In a l -> exists x, a = ACall x) ->
            forall v, mem_run v l v) as Hcalls
    by (intros l H v; now apply mem_run_calls).
  (* both ranks reach their send *)
  destruct (trace_each cap 2 deadlock_main cell0 deadlock_trace
              (fun _ => Ret 0) deadlock_follows
              (init 2 deadlock_main cell0) (fun _ _ => True) deadlock_pre
              (fun r => ASend (deadlock_msg r) :: deadlock_post r))
    as (c1 & Hc1 & Hl1 & Hn1 & _);
    [apply reachable_init|reflexivity|exact I| |].
  { intros r v _ _. exists v. split; [|exact I].
    apply Hcalls, deadlock_pre_calls. }
  assert (log c1 O = deadlock_pre 0) as L10 by (now rewrite Hl1 by lia).
  assert (log c1 1%nat = deadlock_pre 1) as L11 by (now rewrite Hl1 by lia).
  change (net (init 2 deadlock_main cell0)) with (@nil message) in Hn1.
  (* rank 0's send is buffered *)
  destruct (trace_post cap 2 deadlock_main cell0 deadlock_trace
              (fun _ => Ret 0) deadlock_follows c1 O (deadlock_msg 0)
              (deadlock_post 0) Hc1)
    as (c2 & Hc2 & Hl2 & Ho2 & Hn2 & _);
    [lia|now rewrite L10|rewrite Hn1; simpl; lia|].
  rewrite Hn1 in Hn2. rewrite L10 in Hl2.
  assert (log c2 1%nat = deadlock_pre 1) as L21 by (now rewrite Ho2 by lia).
  (* rank 0 goes on to its receive *)
  destruct (trace_local cap 2 deadlock_main cell0 deadlock_trace
              (fun _ => Ret 0) deadlock_follows c2 O
              (firstn 1 (deadlock_post 0)) (skipn 1 (deadlock_post 0))
              (cell c2) Hc2)
    as (c3 & Hc3 & Hl3 & Ho3 & Hn3 & _);
    [lia|now rewrite Hl2| |].
  { apply Hcalls. simpl. intros a [<-|[]]. eauto. }
  rewrite Hn2 in Hn3. rewrite Hl2 in Hl3.
  assert (log c3 1%nat = deadlock_pre 1) as L31 by (now rewrite Ho3 by lia).
  (* rank 1's send meets rank 0's receive *)
  destruct (trace_rendezvous_busy cap 2 deadlock_main cell0 deadlock_trace
              (fun _ => Ret 0) deadlock_follows c3 1%nat O (deadlock_msg 1)
              (deadlock_post 1) (skipn 2 (deadlock_post 0)) Hc3)
    as (c4 & Hc4 & Hs4 & Hd4 & Ho4 & Hn4 & _);
    [lia|lia|now rewrite L31|now rewrite Hl3| |].
  { rewrite Hn3. intros m' [<-|[]] [E _]. discriminate. }
  rewrite Hn3 in Hn4. rewrite Hl3 in Hd4. rewrite L31 in Hs4.
  (* rank 0 finishes *)
  destruct (trace_local cap 2 deadlock_main cell0 deadlock_trace
              (fun _ => Ret 0) deadlock_follows c4 O
              (skipn 2 (deadlock_post 0)) [] (cell c4) Hc4)
    as (c5 & Hc5 & Hl5 & Ho5 & Hn5 & _);
    [lia|now rewrite Hd4| |].
  { apply Hcalls. simpl. intros a Ha.
    repeat (destruct Ha as [<-|Ha]; [eauto|]). contradiction. }
  rewrite Hn4 in Hn5. rewrite Hd4 in Hl5.
  assert (log c5 1%nat = deadlock_pre 1 ++ [ASend (deadlock_msg 1)]) as L51
    by (now rewrite Ho5 by lia).
  (* rank 1 goes on to its receive *)
  destruct (trace_local cap 2 deadlock_main cell0 deadlock_trace
              (fun _ => Ret 0) deadlock_follows c5 1%nat
              (firstn 1 (deadlock_post 1)) (skipn 1 (deadlock_post 1))
              (cell c5) Hc5)
    as (c6 & Hc6 & Hl6 & Ho6 & Hn6 & _);
    [lia|now rewrite L51| |].
  { apply Hcalls. simpl. intros a [<-|[]]. eauto. }
  rewrite Hn5 in Hn6. rewrite L51 in Hl6.
  (* rank 1 receives the buffered message *)
  destruct (trace_deliver cap 2 deadlock_main cell0 deadlock_trace
              (fun _ => Ret 0) deadlock_follows c6 1%nat (deadlock_msg 0)
              (skipn 2 (deadlock_post 1)) [] [] Hc6)
    as (c7 & Hc7 & Hl7 & Ho7 & Hn7 & _);
    [lia|now rewrite Hl6|exact Hn6|intros m' []|].
  rewrite Hl6 in Hl7.
  (* rank 1 finishes *)
  destruct (trace_local cap 2 deadlock_main cell0 deadlock_trace
              (fun _ => Ret 0) deadlock_follows c7 1%nat
              (skipn 2 (deadlock_post 1)) [] (cell c7) Hc7)
    as (c8 & Hc8 & Hl8 & Ho8 & Hn8 & _);
    [lia|now rewrite Hl7| |].
  { apply Hcalls. simpl. intros a Ha.
    repeat (destruct Ha as [<-|Ha]; [eauto|]). contradiction. }
  assert (forall r, (r < 2)%nat -> log c8 r = deadlock_trace r) as Hall.
  { intros r Hr. destruct r as [|[|r]]; [| |lia].
    - rewrite Ho8, Ho7, Ho6, Hl5 by lia. reflexivity.
    - rewrite Hl8, Hl7. reflexivity. }
  exists c8. split; [assumption|]. split; [|split; [assumption|]].
  - intros r Hr.
    apply (trace_done cap 2 deadlock_main cell0 deadlock_trace
             (fun _ => Ret 0) deadlock_follows c8 r Hc8 Hr (Hall r Hr)).
  - now rewrite Hn8, Hn7.
Qed.

Lemma deadlock_avoided_by_buffering_witness :
  (1 <= 1)%nat /\
  exists c, reachable 1 2 deadlock_main 0 c /\ all_exited 2 c 0 /\ net c = [].
Proof.
  assert (1 <= 1)%nat as H1 by lia.
  destruct (deadlock_avoided_by_buffering 1 0 H1) as (c & Hc & He & _ & Hn).
  split; [assumption|]. exists c. auto.
Defined.

(* ================================================================= *)
(** * The ping-pong ([mpi_pingpong.c]) *)

(** ** Started with a single rank *)

Definition pingpong_alone : list act :=
  [ACall CInit;
   ACall (CPrintf stderr "Need at least 2 ranks.\n" []);
   ACall CFinalize].

Lemma pingpong_alone_follows sz r :
  (r < 1)%nat ->
  follows r (pingpong_main sz (Z.of_nat r) (Z.of_nat 1)) pingpong_alone (Ret 1).
Proof.
  intros Hr. assert (r = 0)%nat as -> by lia.
  cbv [pingpong_alone pingpong_main Z.of_nat Pos.of_succ_nat Z.ltb Z.eqb
       Z.compare Pos.compare Pos.compare_cont bind MPI_Init fprintf
       MPI_Finalize follows].
  repeat (eexists; split; [constructor|]). reflexivity.
Qed.

Lemma pingpong_alone_prefix cap sz cell0 c :
  reachable cap 1 (pingpong_main sz) cell0 c ->
  prefix (log c O) pingpong_alone /\ net c = [].
Proof.
  intros Hc.
  destruct (trace_invariant cap 1 (pingpong_main sz) cell0 unit (fun _ => True)
              (fun _ _ => pingpong_alone) (fun _ => False)) with (c := c)
    as [Hp Hn]; auto.
  - now exists tt.
  - intros _ r _ Hr. exists (Ret 1).
    split; [now apply pingpong_alone_follows|now exists 1].
  - intros r _ l b rest a Hr _ E Hs _ _.
    assert (exists x, b = ACall x) as [x ->].
    { assert (In b pingpong_alone) as Hin by (rewrite E; apply in_middle).
      simpl in Hin. repeat (destruct Hin as [<-|Hin]; [eauto|]). contradiction. }
    apply skeleton_fixed in Hs; [subst a|exact I].
    split; [|intros m [=]]. exists tt. split; [exact I|].
    eapply prefix_snoc; eauto.
  - split.
    + destruct (Hp O ltac:(lia)) as (_ & _ & H). exact H.
    + destruct (net c) as [|m ?]; [reflexivity|].
      destruct (Hn m). now left.
Qed.

(** C2.  Ping-pong with world size 1: the program runs to completion and
    rank 0 returns 1; all it ever does is initialise, print
    ["Need at least 2 ranks."] on the error stream and finalise, in that
    order; it never sends or receives, and nothing is ever in flight. *)
Theorem pingpong_insufficient_ranks (cap : nat) (MSG_SIZE cell0 : Z) :
  (exists c, reachable cap 1 (pingpong_main MSG_SIZE) cell0 c /\
             exited c O 1) /\
  (forall c, reachable cap 1 (pingpong_main MSG_SIZE) cell0 c ->
     prefix (log c O)
       [ACall CInit;
        ACall (CPrintf stderr "Need at least 2 ranks.\n" []);
        ACall CFinalize] /\
     (forall m, ~ In (ASend m) (log c O)) /\
     (forall m, ~ In (ARecv m) (log c O)) /\
     net c = [] /\
     (forall v, exited c O v ->
        v = 1 /\
        log c O = [ACall CInit;
                   ACall (CPrintf stderr "Need at least 2 ranks.\n" []);
                   ACall CFinalize])).
Proof.
  split.
  - destruct (trace_local cap 1 (pingpong_main MSG_SIZE) cell0
                (fun _ => pingpong_alone) (fun _ => Ret 1)
                (pingpong_alone_follows MSG_SIZE)
                (init 1 (pingpong_main MSG_SIZE) cell0) O pingpong_alone []
                cell0)
      as (c & Hc & Hl & _); auto.
    + apply reachable_init.
    + apply mem_run_calls. simpl. intros a H.
      repeat (destruct H as [<-|H]; [eauto|]). contradiction.
    + exists c. split; [assumption|].
      apply (trace_done cap 1 (pingpong_main MSG_SIZE) cell0
               (fun _ => pingpong_alone) (fun _ => Ret 1)
               (pingpong_alone_follows MSG_SIZE) c O Hc); auto.
  - intros c Hc.
    destruct (pingpong_alone_prefix cap MSG_SIZE cell0 c Hc) as [Hp Hn].
    split; [exact Hp|].
    assert (forall a, In a (log c O) -> exists x, a = ACall x) as Hcalls.
    { intros a Ha. apply (prefix_in _ _ _ Hp) in Ha. simpl in Ha.
      repeat (destruct Ha as [<-|Ha]; [eauto|]). contradiction. }
    repeat split; auto.
    + intros m Hm. destruct (Hcalls _ Hm) as [x [=]].
    + intros m Hm. destruct (Hcalls _ Hm) as [x [=]].
    + destruct (trace_exit cap 1 (pingpong_main MSG_SIZE) cell0
                  (fun _ => pingpong_alone) (fun _ => Ret 1)
                  (pingpong_alone_follows MSG_SIZE) c O v Hc) as [_ [= <-]];
        auto.
    + destruct (trace_exit cap 1 (pingpong_main MSG_SIZE) cell0
                  (fun _ => pingpong_alone) (fun _ => Ret 1)
                  (pingpong_alone_follows MSG_SIZE) c O v Hc) as [E _];
        auto.
Qed.

(** ** Started with two or more ranks *)

(** The buffer after [memset(buf, 0, MSG_SIZE)]. *)
Definition zeros (sz : Z) : list Z := repeat 0 (Z.to_nat sz).

Definition pp_msg (sz : Z) (s d : Z) : message := Msg s d 0 MPI_CHAR (zeros sz).

(** One iteration of the exchange loop, as rank [r] sees it. *)
Definition pp_round (sz : Z) (r : nat) : list act :=
  match r with
  | 0%nat => [ASend (pp_msg sz 0 1); ARecv (pp_msg sz 1 0)]
  | 1%nat => [ARecv (pp_msg sz 0 1); ASend (pp_msg sz 1 0)]
  | _ => []
  end.

Definition pp_rounds (sz : Z) (r : nat) (n : nat) : list act :=
  concat (repeat (pp_round sz r) n).

(** What the environment answers a rank: the bytes [malloc] hands out and
    the two clock readings. *)
Record pp_env : Type := PPEnv {
  pp_bytes : list Z;
  pp_t0 : float;
  pp_t1 : float
}.

Definition pp_valid (sz : Z) (th : pp_env) : Prop :=
  length (pp_bytes th) = Z.to_nat sz.

Definition pp_pre (sz : Z) (th : pp_env) : list act :=
  [ACall CInit; AMalloc sz (pp_bytes th); AWtime (pp_t0 th)].

Definition pp_report (sz : Z) (th : pp_env) (r : nat) : list act :=
  match r with
  | O => [ACall (CPrintf stdout "PingPong: size=%d bytes, latency=%.3f us\n"
                   [AInt sz; ADouble (pingpong_latency (pp_t0 th) (pp_t1 th))])]
  | S _ => []
  end.

Definition pp_post (sz : Z) (th : pp_env) (r : nat) : list act :=
  pp_report sz th r ++ [ACall CFree; ACall CFinalize].

Definition pp_trace (sz : Z) (th : pp_env) (r : nat) : list act :=
  pp_pre sz th ++ pp_rounds sz r (Z.to_nat iters) ++
  AWtime (pp_t1 th) :: pp_post sz th r.

Lemma zeros_length sz : length (zeros sz) = Z.to_nat sz.
Proof. apply repeat_length. Qed.

Lemma zeros_firstn sz : firstn (Z.to_nat sz) (zeros sz) = zeros sz.
Proof. apply firstn_all2. rewrite zeros_length. lia. Qed.

Lemma zeros_recv sz : zeros sz ++ skipn (length (zeros sz)) (zeros sz) = zeros sz.
Proof. rewrite skipn_all. apply app_nil_r. Qed.

Lemma memset_zeros sz bytes :
  length bytes = Z.to_nat sz -> memset bytes 0 sz = zeros sz.
Proof.
  intros H. unfold memset, zeros. rewrite <- H, skipn_all. apply app_nil_r.
Qed.

(** The exchange loop leaves the buffer as it found it. *)
Lemma pp_loop_follows sz r n i (K : list Z -> prog Z) :
  0 <= sz ->
  follows r (bind (for_loop n i (pingpong_body sz (Z.of_nat r)) (zeros sz)) K)
    (pp_rounds sz r n) (K (zeros sz)).
Proof.
  intros Hsz. revert i. induction n as [|n IH]; intros i; [reflexivity|].
  unfold pp_rounds. cbn [repeat concat for_loop]. fold (pp_rounds sz r n).
  unfold pingpong_body at 1.
  destruct r as [|[|r]].
  - cbn [Z.of_nat Z.eqb bind MPI_Send MPI_Recv pp_round app follows].
    rewrite zeros_firstn.
    eexists. split; [constructor|].
    eexists. split; [apply L_recv; rewrite zeros_length; lia|].
    cbn [bind]. rewrite zeros_recv. apply IH.
  - cbn [Z.of_nat Pos.of_succ_nat Z.eqb Pos.eqb bind MPI_Send MPI_Recv
         pp_round app follows].
    eexists. split; [apply L_recv; rewrite zeros_length; lia|].
    cbn [bind]. rewrite zeros_recv, zeros_firstn.
    eexists. split; [constructor|].
    apply IH.
  - replace (Z.of_nat (S (S r)) =? 0) with false by (symmetry; apply Z.eqb_neq; lia).
    replace (Z.of_nat (S (S r)) =? 1) with false by (symmetry; apply Z.eqb_neq; lia).
    cbn [bind pp_round app]. apply IH.
Qed.

Lemma pp_follows sz th N r :
  0 <= sz -> (2 <= N)%nat -> pp_valid sz th ->
  follows r (pingpong_main sz (Z.of_nat r) (Z.of_nat N)) (pp_trace sz th r) (Ret 0).
Proof.
  intros Hsz HN Hth. unfold pingpong_main, pp_trace, pp_pre.
  replace (Z.of_nat N <? 2) with false by (symmetry; apply Z.ltb_ge; lia).
  cbn [bind MPI_Init malloc MPI_Wtime app follows].
  eexists. split; [constructor|].
  eexists. split; [apply L_malloc; exact Hth|].
  eexists. split; [constructor|].
  cbn [bind]. rewrite memset_zeros by exact Hth.
  eapply follows_app; [apply pp_loop_follows; assumption|].
  cbn [bind follows].
  eexists. split; [constructor|].
  unfold pp_post, pp_report. destruct r as [|r].
  - cbn [Z.of_nat Z.eqb bind printf free MPI_Finalize app follows].
    repeat (eexists; split; [constructor|]). reflexivity.
  - replace (Z.of_nat (S r) =? 0) with false by (symmetry; apply Z.eqb_neq; lia).
    cbn [bind skip free MPI_Finalize app follows].
    repeat (eexists; split; [constructor|]). reflexivity.
Qed.

(** Every ping-pong message carries the zeroed buffer. *)
Definition pp_msg_ok (sz : Z) (m : message) : Prop := data m = zeros sz.

Definition is_wtime (a : act) : Prop :=
  match a with AWtime _ => True | _ => False end.

Definition is_malloc (a : act) : Prop :=
  match a with AMalloc _ _ => True | _ => False end.

(** Where the first entry with property [P] of a list sits. *)
Lemma split_first {X} (P : X -> Prop) (A : list X) x M l b rest :
  l ++ b :: rest = A ++ x :: M -> P b -> (forall y, In y A -> ~ P y) ->
  (l = A /\ b = x /\ rest = M) \/
  (exists l', l = A ++ x :: l' /\ l' ++ b :: rest = M).
Proof.
  revert l. induction A as [|a A IH]; intros l E Hb HA.
  - destruct l as [|y l]; simpl in E.
    + injection E as -> ->. now left.
    + injection E as -> E. right. now exists l.
  - destruct l as [|y l]; simpl in E.
    + injection E as -> _. exfalso. apply (HA a); simpl; auto.
    + injection E as -> E.
      destruct (IH l E Hb) as [(-> & -> & ->)|(l' & -> & E')].
      * intros z Hz. apply HA. now right.
      * now left.
      * right. now exists l'.
Qed.

Lemma pp_rounds_kinds sz r n x :
  In x (pp_rounds sz r n) ->
  (exists m, x = ASend m /\ data m = zeros sz) \/
  (exists m, x = ARecv m /\ data m = zeros sz).
Proof.
  unfold pp_rounds. induction n as [|n IH]; simpl; [contradiction|].
  intros H. apply in_app_or in H as [H|H]; [|auto].
  destruct r as [|[|r]]; simpl in H;
    repeat (destruct H as [<-|H]; [eauto|]); contradiction.
Qed.

Lemma pp_post_calls sz th r x : In x (pp_post sz th r) -> exists c, x = ACall c.
Proof.
  unfold pp_post, pp_report. destruct r; simpl; intros H;
    repeat (destruct H as [<-|H]; [eauto|]); contradiction.
Qed.

Lemma pp_rounds_not_wtime sz r n y : In y (pp_rounds sz r n) -> ~ is_wtime y.
Proof.
  intros H. destruct (pp_rounds_kinds _ _ _ _ H) as [(m & -> & _)|(m & -> & _)];
    simpl; auto.
Qed.

(** What occurs in a ping-pong trace. *)
Lemma pp_trace_kinds sz th r x :
  In x (pp_trace sz th r) ->
  (exists c, x = ACall c) \/ is_malloc x \/ is_wtime x \/
  (exists m, x = ASend m /\ data m = zeros sz) \/
  (exists m, x = ARecv m /\ data m = zeros sz).
Proof.
  unfold pp_trace, pp_pre. cbn [app]. intros [<-|[<-|[<-|H]]]; simpl; eauto.
  apply in_app_or in H as [H|[<-|H]]; simpl; auto.
  - destruct (pp_rounds_kinds _ _ _ _ H) as [Hk|Hk]; auto.
  - destruct (pp_post_calls _ _ _ _ H) as [c ->]. eauto.
Qed.

Lemma pp_extend sz r th l b rest a :
  pp_valid sz th -> pp_trace sz th r = l ++ b :: rest ->
  skeleton a = skeleton b -> wf_act a ->
  (forall m, a = ARecv m -> pp_msg_ok sz m) ->
  (exists th', pp_valid sz th' /\ prefix (l ++ [a]) (pp_trace sz th' r)) /\
  (forall m, a = ASend m -> pp_msg_ok sz m).
Proof.
  intros Hth E Hs Hwf Hg.
  assert (a = b ->
          exists th', pp_valid sz th' /\ prefix (l ++ [a]) (pp_trace sz th' r))
    as Hsame by (intros ->; exists th; split; [assumption|];
                 eapply prefix_snoc; eauto).
  assert (In b (pp_trace sz th r)) as Hin by (rewrite E; apply in_middle).
  symmetry in E. unfold pp_trace, pp_pre in E.
  destruct (pp_trace_kinds _ _ _ _ Hin)
    as [[c ->]|[Hb|[Hb|[(m & -> & Hd)|(m & -> & Hd)]]]].
  - (* a call *)
    apply skeleton_fixed in Hs; [subst a|exact I].
    split; [auto|intros m [=]].
  - (* the allocation *)
    destruct b as [|n bs| | | | | | | |]; try contradiction.
    destruct (skeleton_malloc _ _ _ Hs) as [x ->]. simpl in Hwf.
    split; [|intros m [=]].
    destruct (split_first is_malloc [ACall CInit] _ _ _ _ _ E I)
      as [(-> & [= -> ->] & _)|(l' & -> & E')].
    + simpl. intros y [<-|[]]. auto.
    + exists (PPEnv x (pp_t0 th) (pp_t1 th)). split; [exact Hwf|].
      unfold pp_trace, pp_pre. cbn [pp_bytes pp_t0 pp_t1 app]. eexists.
      reflexivity.
    + exfalso.
      assert (In (AMalloc n bs)
                (AWtime (pp_t0 th) :: pp_rounds sz r (Z.to_nat iters) ++
                 AWtime (pp_t1 th) :: pp_post sz th r)) as Hin'
        by (rewrite <- E'; apply in_middle).
      destruct Hin' as [Hin'|Hin']; [discriminate|].
      apply in_app_or in Hin' as [Hin'|[Hin'|Hin']]; try discriminate.
      * destruct (pp_rounds_kinds _ _ _ _ Hin') as [(m & [=] & _)|(m & [=] & _)].
      * destruct (pp_post_calls _ _ _ _ Hin') as [c [=]].
  - (* a clock reading *)
    destruct b as [| |t| | | | | | |]; try contradiction.
    destruct (skeleton_wtime _ _ Hs) as [x ->].
    split; [|intros m [=]].
    destruct (split_first is_wtime [ACall CInit; AMalloc sz (pp_bytes th)]
                _ _ _ _ _ E I)
      as [(-> & _ & _)|(l' & -> & E')].
    + simpl. intros y [<-|[<-|[]]]; auto.
    + exists (PPEnv (pp_bytes th) x (pp_t1 th)). split; [exact Hth|].
      unfold pp_trace, pp_pre. cbn [pp_bytes pp_t0 pp_t1 app]. eexists.
      reflexivity.
    + destruct (split_first is_wtime _ _ _ _ _ _ E' I
                  (pp_rounds_not_wtime sz r _))
        as [(-> & _ & _)|(l'' & _ & E'')].
      * exists (PPEnv (pp_bytes th) (pp_t0 th) x). split; [exact Hth|].
        unfold pp_trace, pp_pre. cbn [pp_bytes pp_t0 pp_t1 app].
        exists (pp_post sz (PPEnv (pp_bytes th) (pp_t0 th) x) r).
        cbn [app]. rewrite <- !app_assoc. reflexivity.
      * exfalso.
        assert (In (AWtime t) (pp_post sz th r)) as Hin'
          by (rewrite <- E''; apply in_middle).
        destruct (pp_post_calls _ _ _ _ Hin') as [c [=]].
  - (* a send *)
    apply skeleton_fixed in Hs; [subst a|exact I].
    split; [auto|]. now intros m0 [= <-].
  - (* a receive *)
    destruct (skeleton_recv _ _ Hs) as [d ->].
    split; [|intros m0 [=]]. apply Hsame.
    specialize (Hg _ eq_refl). unfold pp_msg_ok in Hg. simpl in Hg.
    destruct m. simpl in *. congruence.
Qed.

Lemma pp_invariant cap N sz cell0 c :
  0 <= sz -> (2 <= N)%nat ->
  reachable cap N (pingpong_main sz) cell0 c ->
  (forall r, (r < N)%nat ->
     exists th, pp_valid sz th /\ prefix (log c r) (pp_trace sz th r)) /\
  (forall m, In m (net c) -> pp_msg_ok sz m).
Proof.
  intros Hsz HN Hc.
  apply (trace_invariant cap N (pingpong_main sz) cell0 pp_env (pp_valid sz)
           (pp_trace sz) (pp_msg_ok sz)); auto.
  - exists (PPEnv (zeros sz) 0%float 0%float). apply zeros_length.
  - intros th r Hth _. exists (Ret 0).
    split; [now apply pp_follows|now exists 0].
  - intros r th l b rest a _ Hth E Hs Hwf Hg. eapply pp_extend; eauto.
Qed.

Lemma mem_run_internal v l : (forall a, In a l -> internal a) -> mem_run v l v.
Proof.
  induction l as [|a l IH]; simpl; intros H; [reflexivity|].
  exists v. split.
  - specialize (H a (or_introl eq_refl)). destruct a; simpl in *; tauto.
  - apply IH. auto.
Qed.

Lemma pp_rounds_split sz r j k :
  pp_rounds sz r (j + S k) =
  pp_rounds sz r j ++ pp_round sz r ++ pp_rounds sz r k.
Proof.
  unfold pp_rounds. rewrite repeat_app, concat_app. reflexivity.
Qed.

Lemma pp_rounds_idle sz r n : pp_rounds sz (S (S r)) n = [].
Proof. unfold pp_rounds. induction n; simpl; auto. Qed.

(** ** A complete run of the ping-pong *)

Section PingPongRun.

Variable cap : nat.
Variable N : nat.
Variable sz : Z.
Variable cell0 : Z.
Hypothesis sz_nonneg : 0 <= sz.
Hypothesis N_two : (2 <= N)%nat.

(** The answers of the environment in the run built here. *)
Variable th : pp_env.
Hypothesis th_valid : pp_valid sz th.

Local Abbreviation pp_reach := (reachable cap N (pingpong_main sz) cell0).

Let pp_T_follows :
  forall r, (r < N)%nat ->
    follows r (pingpong_main sz (Z.of_nat r) (Z.of_nat N)) (pp_trace sz th r) (Ret 0)
  := fun r _ => pp_follows sz th N r sz_nonneg N_two th_valid.

Lemma pp_pre_internal a : In a (pp_pre sz th) -> internal a.
Proof. simpl. intros [<-|[<-|[<-|[]]]]; exact I. Qed.

(** Both partners have been through [j] rounds. *)
Lemma pp_rounds_run j :
  (j <= Z.to_nat iters)%nat ->
  exists c, pp_reach c /\ net c = [] /\
    forall r, (r < N)%nat -> log c r = pp_pre sz th ++ pp_rounds sz r j.
Proof.
  induction j as [|j IH]; intros Hj.
  - destruct (trace_each cap N (pingpong_main sz) cell0 (pp_trace sz th)
                (fun _ => Ret 0) pp_T_follows
                (init N (pingpong_main sz) cell0) (fun _ _ => True)
                (fun _ => pp_pre sz th)
                (fun r => pp_rounds sz r (Z.to_nat iters) ++
                          AWtime (pp_t1 th) :: pp_post sz th r))
      as (c & Hc & Hl & Hn & _);
      [apply reachable_init|reflexivity|exact I| |].
    + intros r v _ _. exists v. split; [|exact I].
      apply mem_run_internal, pp_pre_internal.
    + exists c. split; [assumption|]. split; [assumption|].
      intros r Hr. rewrite Hl by assumption. reflexivity.
  - destruct IH as (c & Hc & Hn & Hl); [lia|].
    pose (k := (Z.to_nat iters - S j)%nat).
    assert (Z.to_nat iters = j + S k)%nat as En by (unfold k; lia).
    assert (forall r, pp_trace sz th r =
              (pp_pre sz th ++ pp_rounds sz r j) ++ pp_round sz r ++
              pp_rounds sz r k ++ AWtime (pp_t1 th) :: pp_post sz th r) as ET.
    { intros r. unfold pp_trace. rewrite En, pp_rounds_split.
      now rewrite <- !app_assoc. }
    destruct (trace_rendezvous cap N (pingpong_main sz) cell0 (pp_trace sz th)
                (fun _ => Ret 0) pp_T_follows c 0%nat 1%nat (pp_msg sz 0 1)
                (ARecv (pp_msg sz 1 0) ::
                   pp_rounds sz 0 k ++ AWtime (pp_t1 th) :: pp_post sz th 0)
                (ASend (pp_msg sz 1 0) ::
                   pp_rounds sz 1 k ++ AWtime (pp_t1 th) :: pp_post sz th 1))
      as (c1 & Hc1 & Hs1 & Hd1 & Ho1 & Hn1 & _); auto; try lia.
    { rewrite Hl, ET by lia. reflexivity. }
    { rewrite Hl, ET by lia. reflexivity. }
    destruct (trace_rendezvous cap N (pingpong_main sz) cell0 (pp_trace sz th)
                (fun _ => Ret 0) pp_T_follows c1 1%nat 0%nat (pp_msg sz 1 0)
                (pp_rounds sz 1 k ++ AWtime (pp_t1 th) :: pp_post sz th 1)
                (pp_rounds sz 0 k ++ AWtime (pp_t1 th) :: pp_post sz th 0))
      as (c2 & Hc2 & Hs2 & Hd2 & Ho2 & Hn2 & _); auto; try lia.
    { rewrite Hd1, Hl, ET by lia. cbn [pp_round app].
      rewrite <- !app_assoc. reflexivity. }
    { rewrite Hs1, Hl, ET by lia. cbn [pp_round app].
      rewrite <- !app_assoc. reflexivity. }
    exists c2. repeat split; auto.
    intros r Hr. replace (S j) with (j + 1)%nat by lia.
    assert (pp_rounds sz r (j + 1) = pp_rounds sz r j ++ pp_round sz r) as Er.
    { rewrite pp_rounds_split. unfold pp_rounds at 3. simpl.
      now rewrite app_nil_r. }
    rewrite Er.
    destruct r as [|[|r]].
    + rewrite Hd2, Hs1, Hl by lia. cbn [pp_round].
      rewrite <- !app_assoc. reflexivity.
    + rewrite Hs2, Hd1, Hl by lia. cbn [pp_round].
      rewrite <- !app_assoc. reflexivity.
    + rewrite Ho2, Ho1, Hl by lia. cbn [pp_round]. now rewrite app_nil_r.
Qed.

Lemma pp_completes :
  exists c, pp_reach c /\ (forall r, (r < N)%nat -> log c r = pp_trace sz th r) /\
            all_exited N c 0.
Proof.
  destruct (pp_rounds_run (Z.to_nat iters)) as (c & Hc & Hn & Hl); [lia|].
  destruct (trace_each cap N (pingpong_main sz) cell0 (pp_trace sz th)
              (fun _ => Ret 0) pp_T_follows c (fun _ _ => True)
              (fun r => AWtime (pp_t1 th) :: pp_post sz th r) (fun _ => []))
    as (c' & Hc' & Hl' & _); auto.
  - intros r Hr. rewrite Hl by assumption. unfold pp_trace.
    now rewrite app_nil_r, <- app_assoc.
  - intros r v Hr _. exists v. split; [|exact I].
    apply mem_run_internal. intros a [<-|Ha]; [exact I|].
    destruct (pp_post_calls _ _ _ _ Ha) as [x ->]. exact I.
  - assert (forall r, (r < N)%nat -> log c' r = pp_trace sz th r) as Hall.
    { intros r Hr. rewrite Hl', Hl by assumption. unfold pp_trace.
      now rewrite <- app_assoc. }
    exists c'. repeat split; auto.
    intros r Hr.
    apply (trace_done cap N (pingpong_main sz) cell0 (pp_trace sz th)
             (fun _ => Ret 0) pp_T_follows c' r Hc' Hr (Hall r Hr)).
Qed.

End PingPongRun.

(** ** What the ping-pong reports *)

(** The divisor of the latency is [2.0 * iters] with [iters] converted to
    [double]: that is 20000.  The quotient is a time in seconds; the
    factor [1e6] turns it into the microseconds the format line
    announces. *)
Lemma pingpong_latency_value (t0 t1 : float) :
  pingpong_latency t0 t1 = ((t1 - t0) / 20000 * 1000000)%float.
Proof.
  unfold pingpong_latency.
  change (2.0 * double_of_int iters)%float with 20000%float.
  reflexivity.
Qed.

(** C5.  With at least two ranks the ping-pong runs to completion.  When
    rank 0 has returned, its log is: initialise, allocate, read the clock
    ([t0]), exactly 10000 rounds of send-then-receive with nothing in
    between, read the clock again ([t1]), print, free, finalise.  The
    latency it prints is the elapsed time [t1 - t0] divided by
    [20000 = 2 * 10000], in [double] arithmetic: the average one-way
    latency in seconds, which the factor [1000000] expresses in
    microseconds, the unit ("us") the line gives. *)
Theorem pingpong_latency_report (cap N : nat) (MSG_SIZE cell0 : Z) :
  0 <= MSG_SIZE -> (2 <= N)%nat ->
  (exists c, reachable cap N (pingpong_main MSG_SIZE) cell0 c /\
             all_exited N c 0) /\
  (forall c v, reachable cap N (pingpong_main MSG_SIZE) cell0 c ->
     exited c O v ->
     exists bytes t0 t1,
       let elapsed := (t1 - t0)%float in
       let seconds_one_way := (elapsed / 20000)%float in
       let microseconds_one_way := (seconds_one_way * 1000000)%float in
       log c O =
         [ACall CInit; AMalloc MSG_SIZE bytes; AWtime t0] ++
         concat (repeat
           [ASend (Msg 0 1 0 MPI_CHAR (repeat 0 (Z.to_nat MSG_SIZE)));
            ARecv (Msg 1 0 0 MPI_CHAR (repeat 0 (Z.to_nat MSG_SIZE)))]
           (Z.to_nat 10000)) ++
         [AWtime t1;
          ACall (CPrintf stdout "PingPong: size=%d bytes, latency=%.3f us\n"
                   [AInt MSG_SIZE; ADouble microseconds_one_way]);
          ACall CFree; ACall CFinalize]).
Proof.
  intros Hsz HN. split.
  - destruct (pp_completes cap N MSG_SIZE cell0 Hsz HN
                (PPEnv (zeros MSG_SIZE) 0%float 0%float)
                (zeros_length MSG_SIZE)) as (c & Hc & _ & He).
    eauto.
  - intros c v Hc He.
    destruct (pp_invariant cap N MSG_SIZE cell0 c Hsz HN Hc) as [Hp _].
    destruct (Hp O ltac:(lia)) as (th & Hth & Hpre).
    destruct (trace_exit cap N (pingpong_main MSG_SIZE) cell0
                (pp_trace MSG_SIZE th) (fun _ => Ret 0)
                (fun r _ => pp_follows MSG_SIZE th N r Hsz HN Hth)
                c O v Hc ltac:(lia) Hpre He) as [E _].
    exists (pp_bytes th), (pp_t0 th), (pp_t1 th). cbv zeta.
    rewrite E, <- pingpong_latency_value. reflexivity.
Qed.

Lemma pingpong_latency_report_witness :
  0 <= 8 /\ (2 <= 2)%nat /\
  exists c, reachable 0 2 (pingpong_main 8) 0 c /\ all_exited 2 c 0.
Proof.
  assert (0 <= 8) as H8 by lia.
  assert (2 <= 2)%nat as H2 by lia.
  destruct (pingpong_latency_report 0 2 8 0 H8 H2) as [Hrun _].
  repeat split; auto.
Defined.

(* ================================================================= *)
(** ** When the reported latency is positive *)

(** Facts of IEEE double arithmetic, read off its specification
    ([SpecFloat]): the sign of a product and of a quotient, and what a
    positive difference says about its operands. *)
Module FloatFacts.

Import SpecFloat FloatOps FloatAxioms.












(** A number that is neither infinite nor a NaN, less itself, is [+0]. *)
Lemma SFsub_diag x :
  match x with S754_zero _ | S754_finite _ _ _ => True | _ => False end ->
  SFsub prec emax x x = S754_zero false.
Proof.
  destruct x as [s|s| |s m e]; try contradiction; intros _; cbn [SFsub].
  - now destruct s.
  - unfold shl_align. rewrite Z.min_id, !Z.sub_diag. reflexivity.
Qed.

Lemma is_finite_spec t :
  is_finite t = true ->
  match Prim2SF t with S754_zero _ | S754_finite _ _ _ => True | _ => False end.
Proof.
  unfold is_finite, is_nan, is_infinity.
  rewrite !eqb_spec, abs_spec.
  replace (Prim2SF infinity) with (S754_infinity false) by reflexivity.
  destruct (Prim2SF t) as [s|s| |s m e]; try exact (fun _ => I).
  - destruct s; intros H; discriminate H.
  - intros H; discriminate H.
Qed.

(** The clock read twice with the same finite result: no time has
    elapsed. *)
Lemma sub_diag t : is_finite t = true -> (t - t)%float = 0%float.
Proof.
  intros H. apply Prim2SF_inj. rewrite sub_spec.
  unfold SF64sub. now rewrite (SFsub_diag _ (is_finite_spec t H)).
Qed.


End FloatFacts.







(** C10.  In a world of three or more ranks, a rank other than 0 and 1
    finds the body of the exchange loop empty, never sends or receives,
    can always run on to its [return], whatever the other ranks are doing,
    and returns 0. *)
Theorem pingpong_idle_ranks (cap N : nat) (MSG_SIZE cell0 : Z) (r : nat) :
  0 <= MSG_SIZE -> (3 <= N)%nat -> (2 <= r < N)%nat ->
  (forall i buf, pingpong_body MSG_SIZE (Z.of_nat r) i buf = Ret buf) /\
  (forall c, reachable cap N (pingpong_main MSG_SIZE) cell0 c ->
     (forall m, ~ In (ASend m) (log c r)) /\
     (forall m, ~ In (ARecv m) (log c r)) /\
     (forall v, exited c r v -> v = 0) /\
     (exists c', steps cap N c c' /\ exited c' r 0)).
Proof.
  intros Hsz HN Hr. split.
  - intros i buf. unfold pingpong_body.
    replace (Z.of_nat r =? 0) with false by (symmetry; apply Z.eqb_neq; lia).
    replace (Z.of_nat r =? 1) with false by (symmetry; apply Z.eqb_neq; lia).
    reflexivity.
  - intros c Hc.
    destruct (pp_invariant cap N MSG_SIZE cell0 c Hsz ltac:(lia) Hc) as [Hp _].
    destruct (Hp r ltac:(lia)) as (th & Hth & Hpre).
    assert (forall a, In a (pp_trace MSG_SIZE th r) -> internal a) as Hint.
    { intros a Ha. destruct r as [|[|r]]; try lia.
      unfold pp_trace in Ha. rewrite pp_rounds_idle in Ha. simpl in Ha.
      repeat (destruct Ha as [<-|Ha]; [exact I|]). contradiction. }
    assert (forall a, In a (log c r) -> internal a) as Hlog
      by (intros a Ha; apply Hint; eapply prefix_in; eauto).
    pose proof (fun r' (_ : (r' < N)%nat) =>
                  pp_follows MSG_SIZE th N r' Hsz ltac:(lia) Hth) as Hfol.
    repeat split.
    + intros m Hm. apply (Hlog _ Hm).
    + intros m Hm. apply (Hlog _ Hm).
    + intros v He.
      destruct (trace_exit cap N (pingpong_main MSG_SIZE) cell0
                  (pp_trace MSG_SIZE th) (fun _ => Ret 0) Hfol
                  c r v Hc ltac:(lia) Hpre He) as [_ [= <-]]. reflexivity.
    + destruct (trace_local_steps cap N (pingpong_main MSG_SIZE) cell0
                  (pp_trace MSG_SIZE th) (fun _ => Ret 0) Hfol c r
                  (skipn (length (log c r)) (pp_trace MSG_SIZE th r)) []
                  (cell c) Hc ltac:(lia))
        as (c' & Hs & Hl & _).
      * rewrite app_nil_r. now apply prefix_skipn.
      * apply mem_run_internal. intros a Ha. apply Hint.
        rewrite (prefix_skipn _ _ Hpre). apply in_or_app. now right.
      * exists c'. split; [assumption|].
        apply (trace_done cap N (pingpong_main MSG_SIZE) cell0
                 (pp_trace MSG_SIZE th) (fun _ => Ret 0) Hfol c' r).
        -- eapply reachable_steps; eauto.
        -- lia.
        -- rewrite Hl. symmetry. now apply prefix_skipn.
Qed.

Lemma pingpong_idle_ranks_witness :
  0 <= 8 /\ (3 <= 3)%nat /\ (2 <= 2 < 3)%nat /\
  (forall i buf, pingpong_body 8 (Z.of_nat 2) i buf = Ret buf) /\
  exists c', steps 0 3 (init 3 (pingpong_main 8) 0) c' /\ exited c' 2%nat 0.
Proof.
  assert (0 <= 8) as H8 by lia.
  assert (3 <= 3)%nat as H3 by lia.
  assert (2 <= 2 < 3)%nat as H2 by lia.
  destruct (pingpong_idle_ranks 0 3 8 0 2 H8 H3 H2) as [Hbody Hc].
  destruct (Hc _ (reachable_init 0 3 (pingpong_main 8) 0)) as (_ & _ & _ & Hrun).
  repeat split; auto.
Defined.

(* ================================================================= *)
(** * Programs structured by collectives *)

(** Between two collectives every rank works on its own: calls, and
    accesses to the window.  An epoch records the collective that opens
    it, what each rank does in it, and the window memory at its start and
    at its end. *)
Record epoch : Type := Epoch {
  e_col : collective;
  e_seg : nat -> list act;
  e_in : Z;
  e_out : Z
}.

(** The actions of rank [r] over a list of epochs. *)
Fixpoint flat (E : list epoch) (r : nat) : list act :=
  match E with
  | [] => []
  | e :: E' => ASync (e_col e) :: e_seg e r ++ flat E' r
  end.

(** The trace of rank [r]; no collective opens the first epoch. *)
Definition btrace (E : list epoch) (r : nat) : list act := tl (flat E r).

Definition writes (a : act) : bool :=
  match a with
  | APut _ | AStore _ => true
  | _ => false
  end.

Definition reads (a : act) : bool :=
  match a with
  | AGet _ | ALoad _ => true
  | _ => false
  end.

Definition access_value (a : act) : Z :=
  match a with
  | AGet v | ALoad v | APut v | AStore v => v
  | _ => 0
  end.

(** Inside an epoch a rank only calls and accesses the window. *)
Definition local_act (a : act) : Prop :=
  match a with
  | ACall _ | AGet _ | ALoad _ | APut _ | AStore _ => True
  | _ => False
  end.

(** The discipline of an epoch among [N] ranks: whatever is read is the
    memory at the start of the epoch, and then no rank writes in it; all
    writes of the epoch write the same value, the memory at its end;
    without a write the memory stays. *)
Definition epoch_ok (N : nat) (e : epoch) : Prop :=
  (forall r a, (r < N)%nat -> In a (e_seg e r) -> local_act a) /\
  (forall r a, (r < N)%nat -> In a (e_seg e r) -> reads a = true ->
     access_value a = e_in e /\
     forall r' a', (r' < N)%nat -> In a' (e_seg e r') -> writes a' = false) /\
  (forall r a, (r < N)%nat -> In a (e_seg e r) -> writes a = true ->
     access_value a = e_out e) /\
  ((forall r a, (r < N)%nat -> In a (e_seg e r) -> writes a = false) ->
   e_out e = e_in e).

(** Each epoch starts with the memory the one before ended with. *)
Fixpoint linked (E : list epoch) : Prop :=
  match E with
  | e :: (e' :: _) as E' => e_out e = e_in e' /\ linked E'
  | _ => True
  end.

Lemma flat_app E1 E2 r : flat (E1 ++ E2) r = flat E1 r ++ flat E2 r.
Proof.
  induction E1 as [|e E1 IH]; simpl; [reflexivity|].
  now rewrite IH, <- app_assoc.
Qed.

Lemma linked_app_inv done cur nxt todo :
  linked (done ++ cur :: nxt :: todo) -> e_out cur = e_in nxt.
Proof.
  induction done as [|d done IH]; simpl.
  - tauto.
  - destruct (done ++ cur :: nxt :: todo) eqn:E.
    + destruct done; discriminate.
    + intros [_ H]. auto.
Qed.

(** Rank [r]'s log up to and including the collective that opens [cur]. *)
Definition base (done : list epoch) (cur : epoch) (r : nat) : list act :=
  tl (flat done r ++ [ASync (e_col cur)]).

Lemma btrace_split done cur todo r :
  btrace (done ++ cur :: todo) r =
  base done cur r ++ e_seg cur r ++ flat todo r.
Proof.
  unfold btrace, base. rewrite flat_app. simpl.
  destruct (flat done r); simpl; [reflexivity|].
  now rewrite <- app_assoc.
Qed.

Lemma base_next done cur nxt r :
  base (done ++ [cur]) nxt r =
  base done cur r ++ e_seg cur r ++ [ASync (e_col nxt)].
Proof.
  unfold base. rewrite flat_app. simpl. rewrite app_nil_r.
  destruct (flat done r); simpl; now rewrite <- ?app_assoc.
Qed.


Lemma skeleton_local a b :
  skeleton a = skeleton b -> local_act b ->
  (a = b /\ reads b = false) \/
  (reads a = true /\ reads b = true /\ writes a = false /\
   forall v, access_value a = v -> access_value b = v -> a = b).
Proof.
  destruct b; simpl; try contradiction; destruct a; simpl; try discriminate;
    intros E _; try (left; split; [congruence|reflexivity]);
    right; repeat split; intros; congruence.
Qed.

(** Memory along a segment without writes: every read sees [v]. *)
Lemma reads_only_run seg v :
  (forall a, In a seg -> local_act a /\ writes a = false /\
                         (reads a = true -> access_value a = v)) ->
  mem_run v seg v.
Proof.
  induction seg as [|a seg IH]; intros H; [reflexivity|].
  simpl. exists v. split.
  - destruct (H a (or_introl eq_refl)) as (Hl & Hw & Hr).
    destruct a; simpl in *; try contradiction; try discriminate; auto.
  - apply IH. intros b Hb. apply H. now right.
Qed.

(** Memory along a segment without reads: it holds [w] after the first
    write. *)
Lemma writes_run seg v w :
  (forall a, In a seg -> local_act a /\ reads a = false /\
                         (writes a = true -> access_value a = w)) ->
  mem_run v seg (if existsb writes seg then w else v).
Proof.
  revert v. induction seg as [|a seg IH]; intros v H; [reflexivity|].
  destruct (H a (or_introl eq_refl)) as (Hl & Hr & Hw).
  assert (forall b, In b seg -> local_act b /\ reads b = false /\
                      (writes b = true -> access_value b = w)) as H'
    by (intros b Hb; apply H; now right).
  cbn [existsb mem_run].
  destruct a; simpl in Hl, Hr, Hw |- *; try contradiction; try discriminate.
  - exists v. split; [reflexivity|]. now apply IH.
  - exists w. split; [symmetry; now apply Hw|].
    specialize (IH w H'). now destruct (existsb writes seg).
  - exists w. split; [symmetry; now apply Hw|].
    specialize (IH w H'). now destruct (existsb writes seg).
Qed.

Lemma existsb_writes_false seg :
  existsb writes seg = false -> forall a, In a seg -> writes a = false.
Proof.
  intros H a Ha. destruct (writes a) eqn:Hw; [|reflexivity].
  assert (existsb writes seg = true) by (apply existsb_exists; eauto).
  congruence.
Qed.

Section Epochs.

Variable cap : nat.
Variable N : nat.
Variable main : Z -> Z -> prog Z.
Variable cell0 : Z.
Variable Es : list epoch.
Variable fin : nat -> prog Z.

Hypothesis N_pos : (0 < N)%nat.
Hypothesis fin_halted : forall r, halted (fin r).
Hypothesis Es_follows :
  forall r, (r < N)%nat ->
    follows r (main (Z.of_nat r) (Z.of_nat N)) (btrace Es r) (fin r).
Hypothesis Es_ok : forall e, In e Es -> epoch_ok N e.
Hypothesis Es_linked : linked Es.
Hypothesis Es_start : exists e0 E, Es = e0 :: E /\ e_in e0 = cell0.

Local Abbreviation bsp_reach := (reachable cap N main cell0).

(** All ranks are in the same epoch [cur], each somewhere in its segment
    ([lf r] is what rank [r] has done of it); the memory is what the epoch
    started with as long as nobody has written, and what it ends with as
    soon as somebody has. *)
Definition bsp_inv (c : config) : Prop :=
  exists done cur todo (lf : nat -> list act),
    Es = done ++ cur :: todo /\
    (forall r, (r < N)%nat ->
       log c r = base done cur r ++ lf r /\ prefix (lf r) (e_seg cur r)) /\
    ((cell c = e_in cur /\
      forall r a, (r < N)%nat -> In a (lf r) -> writes a = false) \/
     (cell c = e_out cur /\
      exists r a, (r < N)%nat /\ In a (lf r) /\ writes a = true)).

Lemma bsp_inv_prefix c r :
  bsp_inv c -> (r < N)%nat -> prefix (log c r) (btrace Es r).
Proof.
  intros (done & cur & todo & lf & E & Hlog & _) Hr.
  destruct (Hlog r Hr) as [-> Hp]. rewrite E, btrace_split.
  apply prefix_app_l, prefix_app_r, Hp.
Qed.

(** What a rank can do next: the next entry of its segment, or, at the end
    of the segment, the collective that opens the next epoch. *)
Lemma bsp_next c done cur todo lf r a p' :
  bsp_reach c -> Es = done ++ cur :: todo -> (r < N)%nat ->
  log c r = base done cur r ++ lf r -> prefix (lf r) (e_seg cur r) ->
  lstep r (code c r) a p' ->
  (exists b, In b (e_seg cur r) /\ prefix (lf r ++ [b]) (e_seg cur r) /\
             skeleton a = skeleton b) \/
  (lf r = e_seg cur r /\ exists nxt todo',
     todo = nxt :: todo' /\ a = ASync (e_col nxt)).
Proof.
  intros Hc E Hr Hlog Hp Hl.
  destruct (next_entry cap N main cell0 (btrace Es) fin Es_follows c r a p'
              Hc Hr (fin_halted r)) as (b & rest & ET & Hs); auto.
  - rewrite Hlog, E, btrace_split. apply prefix_app_l, prefix_app_r, Hp.
  - rewrite E, btrace_split, Hlog, <- app_assoc in ET.
    apply app_inv_head in ET.
    destruct (next_in_or_after _ _ _ _ _ Hp ET) as [[Hin Hpre]|[El Ef]].
    + left. eauto.
    + right. split; [assumption|].
      destruct todo as [|nxt todo']; simpl in Ef; [discriminate|].
      injection Ef as <- _. exists nxt, todo'. split; [reflexivity|].
      now apply skeleton_fixed in Hs.
Qed.

Lemma bsp_init : bsp_inv (init N main cell0).
Proof.
  destruct Es_start as (e0 & E & EEs & Hin).
  exists [], e0, E, (fun _ => []). split; [assumption|]. split.
  - intros r _. split; [reflexivity|apply prefix_nil].
  - left. split; [now rewrite Hin|]. intros r a _ [].
Qed.

Lemma bsp_step c c' : bsp_reach c -> bsp_inv c -> step cap N c c' -> bsp_inv c'.
Proof.
  intros Hc (done & cur & todo & lf & EEs & Hlog & Hmem) Hs.
  assert (epoch_ok N cur) as (Hloc & Hrd & Hwr & Hnw)
    by (apply Es_ok; rewrite EEs; apply in_elt).
  destruct (step_view_of _ _ _ _ Hs)
    as [r a Hr Hl El Ho Hsolo|s d m Hs' Hd Hsd Hls Hld Els Eld Ho Hn Hv
       |x HN Hall Hn Hv].
  - (* one rank alone *)
    destruct (Hlog r Hr) as [Hlr Hpr].
    destruct (bsp_next c done cur todo lf r a _ Hc EEs Hr Hlr Hpr Hl)
      as [(b & Hin & Hpre & Hsk)|(_ & nxt & todo' & _ & ->)];
      [|contradiction].
    (* the action is the entry of the segment *)
    assert (a = b) as ->.
    { destruct (skeleton_local _ _ Hsk (Hloc r b Hr Hin))
        as [[-> _]|(Hra & Hrb & _ & Heq)]; [reflexivity|].
      destruct (Hrd r b Hr Hin Hrb) as [Hval Hnowr].
      apply (Heq (cell c)); [|].
      - destruct a; simpl in Hra, Hsolo; try discriminate;
          simpl; apply (proj1 Hsolo).
      - rewrite Hval. destruct Hmem as [[-> _]|[_ (r0 & a0 & Hr0 & Ha0 & Hw0)]];
          [reflexivity|].
        destruct (Hlog r0 Hr0) as [_ Hp0].
        rewrite (Hnowr r0 a0 Hr0 (prefix_in _ _ _ Hp0 Ha0)) in Hw0.
        discriminate. }
    exists done, cur, todo, (upd lf r (lf r ++ [b])).
    split; [assumption|]. split.
    + intros j Hj. destruct (Nat.eq_dec j r) as [->|Hne].
      * rewrite upd_same, El, Hlr, <- app_assoc. auto.
      * rewrite upd_other by assumption. destruct (Ho j Hne) as [_ ->]. auto.
    + destruct (writes b) eqn:Hw.
      * right. split.
        -- rewrite <- (Hwr r b Hr Hin Hw).
           destruct b; simpl in Hw, Hsolo; try discriminate;
             simpl; apply Hsolo.
        -- exists r, b. rewrite upd_same. repeat split; auto.
           apply in_or_app. right. now left.
      * assert (cell c' = cell c) as Hcell.
        { specialize (Hloc r b Hr Hin).
          destruct b; simpl in Hw, Hsolo, Hloc; try discriminate;
            try contradiction; apply Hsolo. }
        rewrite Hcell.
        destruct Hmem as [[Hv Hnone]|[Hv (r0 & a0 & Hr0 & Ha0 & Hw0)]].
        -- left. split; [assumption|]. intros j a0 Hj Ha0.
           destruct (Nat.eq_dec j r) as [->|Hne].
           ++ rewrite upd_same in Ha0.
              apply in_app_or in Ha0 as [Ha0|[<-|[]]]; eauto.
           ++ rewrite upd_other in Ha0 by assumption. eauto.
        -- right. split; [assumption|]. exists r0, a0.
           repeat split; auto.
           destruct (Nat.eq_dec r0 r) as [->|Hne].
           ++ rewrite upd_same. apply in_or_app. now left.
           ++ now rewrite upd_other.
  - (* no rank sends *)
    exfalso. destruct (Hlog s Hs') as [Hls' Hps].
    destruct (bsp_next c done cur todo lf s _ _ Hc EEs Hs' Hls' Hps Hls)
      as [(b & Hin & _ & Hsk)|(_ & nxt & todo' & _ & [=])].
    specialize (Hloc s b Hs' Hin).
    destruct b; simpl in Hsk, Hloc; try discriminate; contradiction.
  - (* the collective that opens the next epoch *)
    assert (forall r, (r < N)%nat ->
              lf r = e_seg cur r /\ exists nxt todo',
                todo = nxt :: todo' /\ x = e_col nxt) as Hend.
    { intros r Hr. destruct (Hall r Hr) as [Hl _].
      destruct (Hlog r Hr) as [Hlr Hpr].
      destruct (bsp_next c done cur todo lf r _ _ Hc EEs Hr Hlr Hpr Hl)
        as [(b & Hin & _ & Hsk)|(Hf & nxt & todo' & Et & [= ->])].
      - exfalso. specialize (Hloc r b Hr Hin).
        destruct b; simpl in Hsk, Hloc; try discriminate; contradiction.
      - eauto. }
    destruct (Hend O N_pos) as (_ & nxt & todo' & -> & ->).
    exists (done ++ [cur]), nxt, todo', (fun _ => []).
    split; [now rewrite <- app_assoc|]. split.
    + intros r Hr. destruct (Hall r Hr) as [_ ->].
      destruct (Hlog r Hr) as [-> _]. destruct (Hend r Hr) as [-> _].
      rewrite base_next, app_nil_r, <- !app_assoc.
      split; [reflexivity|apply prefix_nil].
    + left. split; [|intros r a _ []].
      rewrite Hv, <- (linked_app_inv done cur nxt todo')
        by (rewrite <- EEs; exact Es_linked).
      destruct Hmem as [[Hc0 Hnone]|[Hc0 _]]; [|assumption].
      rewrite Hc0. symmetry. apply Hnw.
      intros r a Hr Ha. apply (Hnone r a Hr).
      destruct (Hend r Hr) as [-> _]. exact Ha.
Qed.

Theorem bsp_reachable c : bsp_reach c -> bsp_inv c.
Proof.
  induction 1 as [|c2 c3 Hc2 IH Hs].
  - apply bsp_init.
  - eapply bsp_step; eauto.
Qed.

(** ** Running an epoch-structured program to its end *)

(** All ranks go through their segments of an epoch, one after the
    other. *)
Lemma epoch_run c cur (rest : nat -> list act) :
  bsp_reach c -> epoch_ok N cur ->
  (forall r, (r < N)%nat -> btrace Es r = log c r ++ e_seg cur r ++ rest r) ->
  cell c = e_in cur ->
  exists c', bsp_reach c' /\
    (forall r, (r < N)%nat -> log c' r = log c r ++ e_seg cur r) /\
    net c' = net c /\ cell c' = e_out cur.
Proof.
  intros Hc (Hloc & Hrd & Hwr & Hnw) ET Hcell.
  destruct (trace_each cap N main cell0 (btrace Es) fin Es_follows c
    (fun r v =>
       (v = e_in cur /\
        forall r' a, (r' < r)%nat -> In a (e_seg cur r') -> writes a = false) \/
       (v = e_out cur /\
        exists r' a, (r' < r)%nat /\ In a (e_seg cur r') /\ writes a = true))
    (e_seg cur) rest Hc ET) as (c' & Hc' & Hl & Hn & HI).
  - left. split; [assumption|]. intros r' a Hr'. lia.
  - intros r v Hr [[-> Hnone]|[-> (r0 & a0 & Hr0 & Ha0 & Hw0)]].
    + destruct (existsb writes (e_seg cur r)) eqn:Ew.
      * exists (e_out cur). split.
        -- pose proof (writes_run (e_seg cur r) (e_in cur) (e_out cur)) as Hrun.
           rewrite Ew in Hrun. apply Hrun. intros a Ha.
           split; [eauto|]. split; [|eauto].
           destruct (reads a) eqn:Hra; [|reflexivity].
           destruct (Hrd r a Hr Ha Hra) as [_ Hno].
           apply existsb_exists in Ew as (b & Hb & Hwb).
           rewrite (Hno r b Hr Hb) in Hwb. discriminate.
        -- right. split; [reflexivity|].
           apply existsb_exists in Ew as (b & Hb & Hwb).
           exists r, b. repeat split; auto.
      * exists (e_in cur). split.
        -- apply reads_only_run. intros a Ha.
           split; [eauto|]. split; [now apply (existsb_writes_false _ Ew)|].
           intros Hra. now destruct (Hrd r a Hr Ha Hra).
        -- left. split; [reflexivity|]. intros r' a Hr' Ha.
           destruct (Nat.eq_dec r' r) as [->|Hne].
           ++ now apply (existsb_writes_false _ Ew).
           ++ apply (Hnone r' a); [lia|assumption].
    + exists (e_out cur). split.
      * pose proof (writes_run (e_seg cur r) (e_out cur) (e_out cur)) as Hrun.
        destruct (existsb writes (e_seg cur r)); apply Hrun; intros a Ha;
          (split; [eauto|]; split; [|eauto];
           destruct (reads a) eqn:Hra; [|reflexivity];
           destruct (Hrd r a Hr Ha Hra) as [_ Hno];
           rewrite (Hno r0 a0 ltac:(lia) Ha0) in Hw0; discriminate).
      * right. split; [reflexivity|]. exists r0, a0. repeat split; auto.
  - exists c'. repeat split; auto.
    destruct HI as [[Hv Hnone]|[Hv _]]; [|assumption].
    rewrite Hv. symmetry. apply Hnw. intros r a Hr Ha. eauto.
Qed.

(** The run up to the end of any given epoch. *)
Lemma bsp_run_upto done :
  forall cur todo, Es = done ++ cur :: todo ->
  exists c, bsp_reach c /\
    (forall r, (r < N)%nat -> log c r = base done cur r ++ e_seg cur r) /\
    net c = [] /\ cell c = e_out cur.
Proof.
  induction done as [|d done' IH] using rev_ind; intros cur todo EEs.
  - destruct Es_start as (e0 & E & EEs' & Hin). cbn [app] in EEs.
    assert (cur = e0) as -> by congruence.
    destruct (epoch_run (init N main cell0) e0 (flat todo))
      as (c & Hc & Hl & Hn & Hv).
    + apply reachable_init.
    + apply Es_ok. rewrite EEs. now left.
    + intros r _. rewrite EEs. exact (btrace_split [] e0 todo r).
    + now rewrite Hin.
    + exists c. repeat split; auto.
  - rewrite <- app_assoc in EEs. cbn [app] in EEs.
    destruct (IH d (cur :: todo) EEs) as (c & Hc & Hl & Hn & Hv).
    destruct (trace_sync cap N main cell0 (btrace Es) fin Es_follows c
                (e_col cur) (fun r => e_seg cur r ++ flat todo r) Hc N_pos)
      as (c1 & Hc1 & Hl1 & Hn1 & Hv1).
    { intros r Hr. rewrite (Hl r Hr), EEs, btrace_split. cbn [flat].
      now rewrite <- app_assoc. }
    destruct (epoch_run c1 cur (flat todo) Hc1) as (c2 & Hc2 & Hl2 & Hn2 & Hv2).
    + apply Es_ok. rewrite EEs. apply in_or_app. right. right. now left.
    + intros r Hr. rewrite (Hl1 r Hr), (Hl r Hr), EEs, btrace_split.
      cbn [flat]. rewrite <- !app_assoc. reflexivity.
    + rewrite Hv1, Hv. apply (linked_app_inv done' d cur todo).
      rewrite <- EEs. exact Es_linked.
    + exists c2. repeat split; auto; [|congruence].
      intros r Hr. rewrite (Hl2 r Hr), (Hl1 r Hr), (Hl r Hr), base_next.
      now rewrite <- !app_assoc.
Qed.

(** A complete run exists: every rank performs its whole trace and stands
    at its final code; the memory is what the last epoch ends with. *)
Theorem bsp_completes :
  exists c done cur, bsp_reach c /\ Es = done ++ [cur] /\
    (forall r, (r < N)%nat -> log c r = btrace Es r /\ code c r = fin r) /\
    cell c = e_out cur.
Proof.
  destruct Es_start as (e0 & E & EEs & _).
  destruct (exists_last (l := Es)) as (done & cur & Elast); [congruence|].
  destruct (bsp_run_upto done cur [] Elast) as (c & Hc & Hl & _ & Hv).
  exists c, done, cur. repeat split; auto.
  - rewrite (Hl r H), Elast, btrace_split. cbn [flat]. now rewrite app_nil_r.
  - apply (trace_done cap N main cell0 (btrace Es) fin Es_follows c r Hc H).
    rewrite (Hl r H), Elast, btrace_split. cbn [flat]. now rewrite app_nil_r.
Qed.

(** When every rank has returned, every rank has performed its whole
    trace and the memory is what the last epoch ends with. *)
Theorem bsp_final c :
  bsp_reach c -> (forall r, (r < N)%nat -> exists v, exited c r v) ->
  exists done cur, Es = done ++ [cur] /\ cell c = e_out cur /\
    forall r, (r < N)%nat -> log c r = btrace Es r.
Proof.
  intros Hc Hex.
  pose proof (bsp_reachable c Hc) as Hinv.
  assert (forall r, (r < N)%nat -> log c r = btrace Es r) as Hfull.
  { intros r Hr. destruct (Hex r Hr) as [v Hv].
    apply (trace_exit cap N main cell0 (btrace Es) fin Es_follows c r v Hc Hr);
      auto using bsp_inv_prefix. }
  destruct Hinv as (done & cur & todo & lf & EEs & Hlog & Hmem).
  assert (forall r, (r < N)%nat -> lf r = e_seg cur r ++ flat todo r) as Hlf.
  { intros r Hr. destruct (Hlog r Hr) as [Hl _].
    rewrite (Hfull r Hr), EEs, btrace_split in Hl.
    apply app_inv_head in Hl. now symmetry. }
  assert (todo = []) as ->.
  { destruct (Hlog O N_pos) as [_ Hp]. apply prefix_length in Hp.
    rewrite (Hlf O N_pos), length_app in Hp.
    destruct todo; [reflexivity|]. simpl in Hp. lia. }
  assert (epoch_ok N cur) as (_ & _ & _ & Hnw)
    by (apply Es_ok; rewrite EEs; apply in_elt).
  exists done, cur. repeat split; auto.
  destruct Hmem as [[Hv Hnone]|[Hv _]]; [|assumption].
  rewrite Hv. symmetry. apply Hnw. intros r a Hr Ha.
  apply (Hnone r a Hr). rewrite (Hlf r Hr). simpl. now rewrite app_nil_r.
Qed.

End Epochs.

(* ================================================================= *)
(** * The racy counter ([mpi_race_condition.c]) *)

(** The counter after [i] rounds. *)
Fixpoint cnt (i : nat) : Z :=
  match i with
  | O => 0
  | S i' => cnt i' +! 1
  end.

(** What rank 0 does in its final check when it finds [v] in the
    counter. *)
Definition race_check_log (K size v : Z) : list act :=
  let expected := K *! size in
  [ALoad v;
   ACall (CPrintf stdout "Final counter value: %d (expected: %d)\n"
            [AInt v; AInt expected]);
   ALoad v] ++
  (if negb (v =? expected) then
     [ALoad v;
      ACall (CPrintf stdout "RACE CONDITION DETECTED! Lost updates: %d\n"
               [AInt (expected -! v)])]
   else
     [ACall (CPrintf stdout
               "No race detected in this run (but race still exists!)\n" [])]).

(** The four epochs of round [j]: everybody gets, everybody sleeps,
    everybody puts, rank 0 may print. *)
Definition race_iter (size : Z) (j : nat) : list epoch :=
  [Epoch WinFence (fun _ => [AGet (cnt j)]) (cnt j) (cnt j);
   Epoch WinFence (fun _ => [ACall (CUsleep 1)]) (cnt j) (cnt j);
   Epoch WinFence (fun _ => [APut (cnt j +! 1)]) (cnt j) (cnt (S j));
   Epoch WinFence
     (fun r => if (cnt j %! 100 =? 0) && (Z.of_nat r =? 0) then
                 [ACall (CPrintf stdout
                           "Process %d: Iteration %d, counter should be %d\n"
                           [AInt (Z.of_nat r); AInt (cnt j);
                            AInt ((cnt j +! 1) *! size)])]
               else [])
     (cnt (S j)) (cnt (S j))].

Definition race_rounds (size : Z) (j n : nat) : list epoch :=
  concat (map (race_iter size) (seq j n)).

Definition race_head (cell0 : Z) : list epoch :=
  [Epoch Barrier
     (fun r => ACall CInit ::
               (if Z.of_nat r =? 0 then [ACall (CAllocMem sizeof_int); AStore 0]
                else []))
     cell0 0;
   Epoch WinCreate (fun _ => []) 0 0;
   Epoch Barrier
     (fun r => [ACall (CPrintf stdout
                         "Process %d: Starting race condition test...\n"
                         [AInt (Z.of_nat r)])])
     0 0].

Definition race_tail (K size : Z) : list epoch :=
  let final := cnt (Z.to_nat K) in
  [Epoch Barrier
     (fun r => if Z.of_nat r =? 0 then race_check_log K size final else [])
     final final;
   Epoch WinFree
     (fun r => (if Z.of_nat r =? 0 then [ACall CFreeMem] else []) ++
               [ACall CFinalize])
     final final].

Definition race_epochs (K size cell0 : Z) : list epoch :=
  race_head cell0 ++ race_rounds size 0 (Z.to_nat K) ++ race_tail K size.

Lemma cnt_small i : Z.of_nat i <= CInt.INT_MAX -> cnt i = Z.of_nat i.
Proof.
  induction i as [|i IH]; intros H; [reflexivity|].
  cbn [cnt]. rewrite IH by lia. rewrite add_small; [lia|].
  unfold CInt.in_range, CInt.INT_MIN, CInt.INT_MAX in *. lia.
Qed.

Lemma race_loop_follows size r n j (K' : unit -> prog Z) :
  follows r (bind (for_loop n (cnt j) (race_body (Z.of_nat r) size) tt) K')
    (flat (race_rounds size j n) r) (K' tt).
Proof.
  revert j. induction n as [|n IH]; intros j; [reflexivity|].
  unfold race_rounds. cbn [seq map concat]. fold (race_rounds size (S j) n).
  rewrite flat_app. cbn [for_loop]. unfold race_body at 1.
  eapply follows_app; [|apply (IH (S j))].
  cbn [race_iter flat e_col e_seg app bind MPI_Win_fence MPI_Get usleep
       MPI_Put follows].
  eexists; split; [constructor|].
  eexists; split; [constructor|].
  eexists; split; [constructor|].
  eexists; split; [constructor|].
  eexists; split; [constructor|].
  eexists; split; [constructor|].
  eexists; split; [constructor|].
  destruct ((cnt j %! 100 =? 0) && (Z.of_nat r =? 0)).
  - cbn [printf bind app follows]. eexists; split; [constructor|]. reflexivity.
  - reflexivity.
Qed.

Lemma race_follows K N cell0 r :
  follows r (race_prog K (Z.of_nat r) (Z.of_nat N))
    (btrace (race_epochs K (Z.of_nat N) cell0) r) (Ret 0).
Proof.
  unfold race_epochs, btrace, race_head, race_prog.
  cbn [app flat e_col e_seg tl]. rewrite flat_app.
  cbn [bind MPI_Init follows app].
  eexists; split; [constructor|].
  assert (forall p l,
    follows r p l (Ret 0) ->
    follows r
      (bind (if Z.of_nat r =? 0 then MPI_Alloc_mem sizeof_int;; assign 0 else skip)
            (fun _ => p))
      ((if Z.of_nat r =? 0 then [ACall (CAllocMem sizeof_int); AStore 0] else [])
       ++ l) (Ret 0)) as Hhead.
  { intros p l H. destruct (Z.of_nat r =? 0).
    - cbn [bind MPI_Alloc_mem assign app follows].
      eexists; split; [constructor|]. eexists; split; [constructor|]. exact H.
    - exact H. }
  apply Hhead.
  cbn [bind MPI_Win_create MPI_Barrier printf follows app].
  eexists; split; [constructor|].
  eexists; split; [constructor|].
  eexists; split; [constructor|].
  eapply follows_app; [apply (race_loop_follows _ r (Z.to_nat K) 0)|].
  unfold race_tail. cbn [flat e_col e_seg bind MPI_Barrier follows app].
  eexists; split; [constructor|].
  rewrite <- !app_assoc.
  assert (forall p l,
    follows r p l (Ret 0) ->
    follows r
      (bind (if Z.of_nat r =? 0 then race_check K (Z.of_nat N) else skip)
            (fun _ => p))
      ((if Z.of_nat r =? 0
        then race_check_log K (Z.of_nat N) (cnt (Z.to_nat K)) else [])
       ++ l) (Ret 0)) as Hcheck.
  { intros p l H. destruct (Z.of_nat r =? 0); [|exact H].
    unfold race_check, race_check_log.
    cbn [bind deref printf app follows].
    eexists; split; [constructor|].
    eexists; split; [constructor|].
    eexists; split; [constructor|].
    destruct (negb (cnt (Z.to_nat K) =? K *! Z.of_nat N)).
    - cbn [bind deref printf app follows].
      eexists; split; [constructor|].
      eexists; split; [constructor|]. exact H.
    - cbn [bind deref printf app follows].
      eexists; split; [constructor|]. exact H. }
  apply Hcheck.
  cbn [bind MPI_Win_free follows app].
  eexists; split; [constructor|].
  destruct (Z.of_nat r =? 0).
  - cbn [bind MPI_Free_mem MPI_Finalize app follows].
    eexists; split; [constructor|]. eexists; split; [constructor|]. reflexivity.
  - cbn [bind skip MPI_Finalize app follows].
    eexists; split; [constructor|]. reflexivity.
Qed.

(** ** The epochs of the racy counter keep the discipline *)

(** An epoch in which the window is at most read. *)
Lemma epoch_ok_reads N col seg v :
  (forall r a, In a (seg r) -> (exists c, a = ACall c) \/ a = AGet v \/ a = ALoad v) ->
  epoch_ok N (Epoch col seg v v).
Proof.
  intros H. unfold epoch_ok. cbn [e_seg e_in e_out].
  assert (forall r a, In a (seg r) -> writes a = false) as Hnw.
  { intros r a Ha. destruct (H r a Ha) as [[c ->]|[->| ->]]; reflexivity. }
  repeat split.
  - intros r a _ Ha. destruct (H r a Ha) as [[c ->]|[->| ->]]; exact I.
  - destruct (H r a H1) as [[c ->]|[->| ->]]; simpl in *; congruence.
  - intros r' a' _ Ha'. eauto.
  - intros r a _ Ha Hw. rewrite (Hnw r a Ha) in Hw. discriminate.
Qed.

(** An epoch in which rank 0, and maybe others, write [w] and nobody
    reads. *)
Lemma epoch_ok_writes N col seg v w :
  (0 < N)%nat ->
  (forall r a, In a (seg r) -> (exists c, a = ACall c) \/ a = APut w \/ a = AStore w) ->
  (exists a, In a (seg O) /\ writes a = true) ->
  epoch_ok N (Epoch col seg v w).
Proof.
  intros HN H (a0 & Ha0 & Hw0). unfold epoch_ok. cbn [e_seg e_in e_out].
  repeat split.
  - intros r a _ Ha. destruct (H r a Ha) as [[c ->]|[->| ->]]; exact I.
  - destruct (H r a H1) as [[c ->]|[->| ->]]; simpl in *; congruence.
  - destruct (H r a H1) as [[c ->]|[->| ->]]; simpl in *; congruence.
  - intros r a _ Ha Hw. destruct (H r a Ha) as [[c ->]|[->| ->]];
      simpl in *; congruence.
  - intros Hno. rewrite (Hno O a0 HN Ha0) in Hw0. discriminate.
Qed.

Lemma race_epochs_ok K N cell0 e :
  (0 < N)%nat -> In e (race_epochs K (Z.of_nat N) cell0) -> epoch_ok N e.
Proof.
  intros HN He. unfold race_epochs in He.
  apply in_app_or in He as [He|He]; [|apply in_app_or in He as [He|He]].
  - cbn [race_head In] in He. destruct He as [<-|[<-|[<-|[]]]].
    + apply epoch_ok_writes; [assumption| |].
      * intros r a [<-|Ha]; [eauto|].
        destruct (Z.of_nat r =? 0); simpl in Ha;
          repeat (destruct Ha as [<-|Ha]; [eauto|]); contradiction.
      * exists (AStore 0). split; [simpl; auto|reflexivity].
    + apply epoch_ok_reads. intros r a [].
    + apply epoch_ok_reads. intros r a [<-|[]]. eauto.
  - unfold race_rounds in He. apply in_concat in He as (l & Hl & He).
    apply in_map_iff in Hl as (j & <- & _).
    cbn [race_iter In] in He. destruct He as [<-|[<-|[<-|[<-|[]]]]].
    + apply epoch_ok_reads. intros r a [<-|[]]. auto.
    + apply epoch_ok_reads. intros r a [<-|[]]. eauto.
    + apply epoch_ok_writes; [assumption| |].
      * intros r a [<-|[]]. auto.
      * exists (APut (cnt j +! 1)). split; [simpl; auto|reflexivity].
    + apply epoch_ok_reads. intros r a Ha.
      destruct ((cnt j %! 100 =? 0) && (Z.of_nat r =? 0)); simpl in Ha;
        repeat (destruct Ha as [<-|Ha]; [eauto|]); contradiction.
  - cbn [race_tail In] in He. destruct He as [<-|[<-|[]]].
    + apply epoch_ok_reads. intros r a Ha.
      destruct (Z.of_nat r =? 0); [|contradiction].
      unfold race_check_log in Ha. apply in_app_or in Ha as [Ha|Ha].
      * simpl in Ha. repeat (destruct Ha as [<-|Ha]; [eauto|]). contradiction.
      * destruct (negb _); simpl in Ha;
          repeat (destruct Ha as [<-|Ha]; [eauto|]); contradiction.
    + apply epoch_ok_reads. intros r a Ha.
      destruct (Z.of_nat r =? 0); simpl in Ha;
        repeat (destruct Ha as [<-|Ha]; [eauto|]); contradiction.
Qed.

(** Each epoch starts with the memory [v]; the next one with what it
    ends with. *)
Fixpoint linked_from (v : Z) (E : list epoch) : Prop :=
  match E with
  | [] => True
  | e :: E' => e_in e = v /\ linked_from (e_out e) E'
  end.

Lemma linked_from_linked v E : linked_from v E -> linked E.
Proof.
  revert v. induction E as [|e E IH]; intros v H; [exact I|].
  destruct H as [_ H]. destruct E as [|e' E]; [exact I|].
  split; [|eapply IH; eauto]. destruct H as [H _]. now symmetry.
Qed.

Lemma race_rounds_linked size j n B :
  linked_from (cnt (j + n)) B ->
  linked_from (cnt j) (race_rounds size j n ++ B).
Proof.
  revert j. induction n as [|n IH]; intros j H.
  - now rewrite Nat.add_0_r in H.
  - unfold race_rounds. cbn [seq map concat race_iter app linked_from e_in e_out].
    repeat split. apply IH. now rewrite Nat.add_succ_r in H.
Qed.

Lemma race_epochs_linked K size cell0 : linked (race_epochs K size cell0).
Proof.
  apply (linked_from_linked cell0). unfold race_epochs, race_head.
  cbn [app linked_from e_in e_out]. repeat split.
  apply (race_rounds_linked size 0). unfold race_tail.
  cbn [linked_from e_in e_out Nat.add]. repeat split.
Qed.

Lemma nsync_rounds size j n r :
  nsync (flat (race_rounds size j n) r) = (4 * n)%nat.
Proof.
  revert j. induction n as [|n IH]; intros j; [reflexivity|].
  unfold race_rounds. cbn [seq map concat]. fold (race_rounds size (S j) n).
  rewrite flat_app, nsync_app, IH.
  cbn [race_iter flat e_col e_seg app nsync].
  destruct ((cnt j %! 100 =? 0) && (Z.of_nat r =? 0)); cbn [app nsync]; lia.
Qed.

(** The whole trace of rank 0. *)
Lemma race_trace_rank0 K size cell0 :
  btrace (race_epochs K size cell0) O =
    ([ACall CInit; ACall (CAllocMem sizeof_int); AStore 0;
      ASync WinCreate; ASync Barrier;
      ACall (CPrintf stdout "Process %d: Starting race condition test...\n"
               [AInt 0])] ++
     flat (race_rounds size 0 (Z.to_nat K)) O) ++
    ASync Barrier :: race_check_log K size (cnt (Z.to_nat K)) ++
    [ASync WinFree; ACall CFreeMem; ACall CFinalize].
Proof.
  unfold race_epochs, btrace, race_head, race_tail.
  cbn [app flat e_col e_seg tl]. rewrite flat_app.
  cbn [flat e_col e_seg app Z.of_nat Z.eqb].
  rewrite <- ?app_assoc. reflexivity.
Qed.

Lemma race_rounds_kinds size j n r a :
  In a (flat (race_rounds size j n) r) ->
  (exists x, a = ASync x) \/ (exists v, a = AGet v) \/ (exists v, a = APut v) \/
  a = ACall (CUsleep 1) \/
  (exists args,
     a = ACall (CPrintf stdout
                  "Process %d: Iteration %d, counter should be %d\n" args)).
Proof.
  revert j. induction n as [|n IH]; intros j Ha; [contradiction|].
  unfold race_rounds in Ha. cbn [seq map concat] in Ha.
  fold (race_rounds size (S j) n) in Ha. rewrite flat_app in Ha.
  apply in_app_or in Ha as [Ha|Ha]; [|eauto].
  cbn [race_iter flat e_col e_seg app] in Ha.
  destruct ((cnt j %! 100 =? 0) && (Z.of_nat r =? 0)); cbn [app In] in Ha;
    repeat (destruct Ha as [<-|Ha]; [eauto 8|]); contradiction.
Qed.

(** ** What the racy counter ends with *)

Section Race.

Variable cap : nat.
Variable N : nat.
Variable K : Z.
Variable cell0 : Z.
Hypothesis N_pos : (1 <= N)%nat.

Local Abbreviation race_reach := (reachable cap N (race_prog K) cell0).
Local Abbreviation race_Es := (race_epochs K (Z.of_nat N) cell0).

Lemma race_last done cur :
  race_Es = done ++ [cur] -> e_out cur = cnt (Z.to_nat K).
Proof.
  unfold race_epochs, race_tail. intros E.
  change (race_head cell0 ++ race_rounds (Z.of_nat N) 0 (Z.to_nat K) ++
          [Epoch Barrier
             (fun r => if Z.of_nat r =? 0
                       then race_check_log K (Z.of_nat N) (cnt (Z.to_nat K))
                       else [])
             (cnt (Z.to_nat K)) (cnt (Z.to_nat K))] ++
          [Epoch WinFree
             (fun r => (if Z.of_nat r =? 0 then [ACall CFreeMem] else []) ++
                       [ACall CFinalize])
             (cnt (Z.to_nat K)) (cnt (Z.to_nat K))] = done ++ [cur]) in E.
  rewrite !app_assoc in E. apply app_inj_tail in E as [_ <-]. reflexivity.
Qed.

Lemma race_start : exists e0 E, race_Es = e0 :: E /\ e_in e0 = cell0.
Proof. unfold race_epochs, race_head. cbn [app]. eauto. Qed.

Lemma race_prefix c r :
  race_reach c -> (r < N)%nat -> prefix (log c r) (btrace race_Es r).
Proof.
  intros Hc Hr.
  apply (bsp_inv_prefix N race_Es c r); [|assumption].
  apply (bsp_reachable cap N (race_prog K) cell0 race_Es (fun _ => Ret 0)
           N_pos (fun _ => ex_intro _ 0 eq_refl)
           (fun r0 _ => race_follows K N cell0 r0)
           (fun e => race_epochs_ok K N cell0 e N_pos)
           (race_epochs_linked K (Z.of_nat N) cell0) race_start c Hc).
Qed.

(** When all ranks have returned the counter holds the number of rounds,
    not the number of increments. *)
Lemma race_final_state c :
  race_reach c -> (forall r, (r < N)%nat -> exists v, exited c r v) ->
  cell c = cnt (Z.to_nat K) /\
  forall r, (r < N)%nat -> log c r = btrace race_Es r.
Proof.
  intros Hc Hex.
  destruct (bsp_final cap N (race_prog K) cell0 race_Es (fun _ => Ret 0)
              N_pos (fun _ => ex_intro _ 0 eq_refl)
              (fun r0 _ => race_follows K N cell0 r0)
              (fun e => race_epochs_ok K N cell0 e N_pos)
              (race_epochs_linked K (Z.of_nat N) cell0) race_start c Hc Hex)
    as (done & cur & E & Hv & Hl).
  split; [|assumption]. rewrite Hv. eapply race_last; eauto.
Qed.

Lemma race_run :
  exists c, race_reach c /\ all_exited N c 0 /\ cell c = cnt (Z.to_nat K).
Proof.
  destruct (bsp_completes cap N (race_prog K) cell0 race_Es (fun _ => Ret 0)
              N_pos
              (fun r0 _ => race_follows K N cell0 r0)
              (fun e => race_epochs_ok K N cell0 e N_pos)
              (race_epochs_linked K (Z.of_nat N) cell0) race_start)
    as (c & done & cur & Hc & E & Hl & Hv).
  exists c. split; [assumption|]. split.
  - intros r Hr. now apply Hl.
  - rewrite Hv. eapply race_last; eauto.
Qed.

(** Whatever rank 0 reads from the counter through its pointer is the
    number of rounds. *)
Lemma race_loads c v :
  race_reach c -> In (ALoad v) (log c O) -> v = cnt (Z.to_nat K).
Proof.
  intros Hc Hin.
  apply (prefix_in _ _ _ (race_prefix c O Hc N_pos)) in Hin.
  rewrite race_trace_rank0 in Hin.
  apply in_app_or in Hin as [Hin|Hin].
  - apply in_app_or in Hin as [Hin|Hin].
    + simpl in Hin. repeat (destruct Hin as [Hin|Hin]; try discriminate).
      contradiction.
    + destruct (race_rounds_kinds _ _ _ _ _ Hin)
        as [[x [=]]|[[x [=]]|[[x [=]]|[[=]|[x [=]]]]]].
  - destruct Hin as [Hin|Hin]; [discriminate|].
    apply in_app_or in Hin as [Hin|Hin].
    + unfold race_check_log in Hin. apply in_app_or in Hin as [Hin|Hin].
      * simpl in Hin.
        repeat (destruct Hin as [Hin|Hin]; try discriminate);
          try contradiction; congruence.
      * destruct (negb _); simpl in Hin;
          repeat (destruct Hin as [Hin|Hin]; try discriminate);
          try contradiction; congruence.
    + simpl in Hin. repeat (destruct Hin as [Hin|Hin]; try discriminate).
      contradiction.
Qed.

End Race.

Lemma cnt_rounds K : 0 <= K <= CInt.INT_MAX -> cnt (Z.to_nat K) = K.
Proof. intros H. rewrite cnt_small; rewrite Z2Nat.id; lia. Qed.

(** C7.  [N >= 1] ranks, [K] rounds of get / increment / put under
    fences only.  The program runs to completion, and when all ranks have
    returned the counter holds [K], which is at most [N * K] (and less
    than [N * K] as soon as there are two ranks and one round: the
    expected value is an upper bound that is not reached).  Whatever rank 0
    reads from the counter in its final check obeys the same bound. *)
Theorem race_counter_bound (cap N : nat) (K cell0 : Z) :
  (1 <= N)%nat -> 0 <= K <= CInt.INT_MAX ->
  (exists c, reachable cap N (race_prog K) cell0 c /\ all_exited N c 0 /\
             cell c <= Z.of_nat N * K) /\
  (forall c, reachable cap N (race_prog K) cell0 c ->
     (forall r, (r < N)%nat -> exists v, exited c r v) ->
     cell c = K /\ cell c <= Z.of_nat N * K /\
     ((2 <= N)%nat -> 1 <= K -> cell c < Z.of_nat N * K)) /\
  (forall c v, reachable cap N (race_prog K) cell0 c ->
     In (ALoad v) (log c O) -> v <= Z.of_nat N * K).
Proof.
  intros HN HK. pose proof (cnt_rounds K HK) as Ecnt.
  split; [|split].
  - destruct (race_run cap N K cell0 HN) as (c & Hc & He & Hv).
    exists c. repeat split; auto. rewrite Hv, Ecnt. nia.
  - intros c Hc Hex.
    destruct (race_final_state cap N K cell0 HN c Hc Hex) as [Hv _].
    rewrite Hv, Ecnt. repeat split; nia.
  - intros c v Hc Hin.
    rewrite (race_loads cap N K cell0 HN c v Hc Hin), Ecnt. nia.
Qed.

Lemma race_counter_bound_witness :
  (1 <= 2)%nat /\ 0 <= 1000 <= CInt.INT_MAX /\
  exists c, reachable 0 2 race_main 0 c /\ all_exited 2 c 0 /\
            cell c <= Z.of_nat 2 * 1000.
Proof.
  assert (1 <= 2)%nat as H2 by lia.
  assert (0 <= 1000 <= CInt.INT_MAX) as HK by (unfold CInt.INT_MAX; lia).
  destruct (race_counter_bound 0 2 1000 0 H2 HK) as [Hrun _].
  repeat split; auto; unfold CInt.INT_MAX; lia.
Defined.

(** C8.  The race-condition program always runs to completion and every
    rank returns 0.  When all ranks have returned, the log of rank 0 ends,
    after the last of the [2 + 4 * NUM_INCREMENTS] collectives of the
    start-up and the loop, with: the barrier, a read of the counter, the
    line with the actual and the expected value, a second read, then the
    "no race" line if the two are equal and otherwise a third read and the
    "RACE CONDITION DETECTED" line, then the release of the window and
    finalization: the mismatch is printed and nothing else depends on it.
    The expected value is the [int] product of [NUM_INCREMENTS] and the
    number of ranks: [1000 * N] whenever that fits an [int], and the
    number of lost updates reported for a counter [v] is then
    [1000 * N - v].  The counter itself holds 1000 at that point. *)
Theorem race_mismatch_reported (cap N : nat) (cell0 : Z) :
  (1 <= N)%nat ->
  let expected := NUM_INCREMENTS *! Z.of_nat N in
  (1000 * Z.of_nat N <= CInt.INT_MAX ->
     expected = 1000 * Z.of_nat N /\
     forall v, 0 <= v <= 1000 * Z.of_nat N ->
       expected -! v = 1000 * Z.of_nat N - v) /\
  (exists c, reachable cap N race_main cell0 c /\ all_exited N c 0) /\
  (forall c, reachable cap N race_main cell0 c ->
     (forall r v, (r < N)%nat -> exited c r v -> v = 0) /\
     ((forall r, (r < N)%nat -> exists v, exited c r v) ->
      cell c = 1000 /\
      exists l0,
        nsync l0 = (2 + 4 * Z.to_nat NUM_INCREMENTS)%nat /\
        log c O =
          l0 ++
          [ASync Barrier; ALoad (cell c);
           ACall (CPrintf stdout "Final counter value: %d (expected: %d)\n"
                    [AInt (cell c); AInt expected]);
           ALoad (cell c)] ++
          (if cell c =? expected then
             [ACall (CPrintf stdout
                       "No race detected in this run (but race still exists!)\n"
                       [])]
           else
             [ALoad (cell c);
              ACall (CPrintf stdout
                       "RACE CONDITION DETECTED! Lost updates: %d\n"
                       [AInt (expected -! cell c)])]) ++
          [ASync WinFree; ACall CFreeMem; ACall CFinalize])).
Proof.
  intros HN expected. unfold race_main. split; [|split].
  - intros Hfit.
    assert (expected = 1000 * Z.of_nat N) as E.
    { unfold expected, NUM_INCREMENTS, CInt.mul. apply wrap_small.
      unfold CInt.in_range, CInt.INT_MIN. lia. }
    split; [exact E|]. intros v Hv. rewrite E. apply sub_small.
    unfold CInt.in_range, CInt.INT_MIN. lia.
  - destruct (race_run cap N NUM_INCREMENTS cell0 HN) as (c & Hc & He & _).
    eauto.
  - intros c Hc. split.
    + intros r v Hr He. eapply race_returns.
      eapply exited_returns; eauto.
    + intros Hex.
      destruct (race_final_state cap N NUM_INCREMENTS cell0 HN c Hc Hex)
        as [Hv Hl].
      split.
      { rewrite Hv. apply cnt_rounds.
        unfold NUM_INCREMENTS, CInt.INT_MAX. lia. }
      rewrite (Hl O HN), race_trace_rank0, <- Hv.
      eexists. split; [|f_equal].
      * rewrite nsync_app, nsync_rounds. reflexivity.
      * unfold race_check_log. fold expected. cbn [app].
        destruct (cell c =? expected); reflexivity.
Qed.

Lemma race_mismatch_reported_witness :
  (1 <= 2)%nat /\
  NUM_INCREMENTS *! Z.of_nat 2 = 2000 /\
  NUM_INCREMENTS *! Z.of_nat 2 -! 1000 = 1000 /\
  exists c, reachable 0 2 race_main 0 c /\ all_exited 2 c 0.
Proof.
  assert (1 <= 2)%nat as H2 by lia.
  destruct (race_mismatch_reported 0 2 0 H2) as (Hfit & Hrun & _).
  destruct Hfit as [E Hlost]; [unfold CInt.INT_MAX; simpl; lia|].
  split; [assumption|]. split; [exact E|]. split; [|exact Hrun].
  apply (Hlost 1000). simpl. lia.
Defined.

(** C9.  With a single rank the program runs to completion; when rank 0
    has returned, the counter holds [NUM_INCREMENTS = 1000], rank 0 has
    printed the "no race" line and has not printed the
    "RACE CONDITION DETECTED" line. *)
Theorem race_single_rank (cap : nat) (cell0 : Z) :
  (exists c, reachable cap 1 race_main cell0 c /\ all_exited 1 c 0) /\
  (forall c v, reachable cap 1 race_main cell0 c -> exited c O v ->
     cell c = 1000 /\
     In (ACall (CPrintf stdout
                  "No race detected in this run (but race still exists!)\n" []))
        (log c O) /\
     forall x,
       ~ In (ACall (CPrintf stdout
                      "RACE CONDITION DETECTED! Lost updates: %d\n" [AInt x]))
            (log c O)).
Proof.
  assert (1 <= 1)%nat as H1 by lia.
  assert (cnt (Z.to_nat NUM_INCREMENTS) = 1000) as Ecnt
    by (apply cnt_rounds; unfold NUM_INCREMENTS, CInt.INT_MAX; lia).
  unfold race_main. split.
  - destruct (race_run cap 1 NUM_INCREMENTS cell0 H1) as (c & Hc & He & _).
    eauto.
  - intros c v Hc He.
    destruct (race_final_state cap 1 NUM_INCREMENTS cell0 H1 c Hc) as [Hv Hl].
    { intros r Hr. assert (r = O) as -> by lia. eauto. }
    rewrite (Hl O H1), race_trace_rank0, Hv, Ecnt.
    assert (race_check_log NUM_INCREMENTS (Z.of_nat 1) 1000 =
            [ALoad 1000;
             ACall (CPrintf stdout "Final counter value: %d (expected: %d)\n"
                      [AInt 1000; AInt 1000]);
             ALoad 1000;
             ACall (CPrintf stdout
                      "No race detected in this run (but race still exists!)\n"
                      [])]) as -> by reflexivity.
    split; [reflexivity|]. split.
    + apply in_or_app. right. cbn [In]. do 4 right. now left.
    + intros x Hin. apply in_app_or in Hin as [Hin|Hin].
      * apply in_app_or in Hin as [Hin|Hin].
        -- simpl in Hin. repeat (destruct Hin as [Hin|Hin]; try discriminate Hin).
           contradiction.
        -- destruct (race_rounds_kinds _ _ _ _ _ Hin)
             as [[y [=]]|[[y [=]]|[[y [=]]|[[=]|[y [=]]]]]].
      * simpl in Hin. repeat (destruct Hin as [Hin|Hin]; try discriminate Hin).
        contradiction.
Qed.

(** ** The ping-pong buffer *)

(** In a ping-pong among two or more ranks, every message that is sent,
    received or in flight carries the [MSG_SIZE] zero bytes of the buffer
    as rank 0 first sent it; and the exchange loop, run along its rounds,
    hands that same buffer to the code after the loop. *)
Theorem pingpong_buffer_unchanged (cap N : nat) (MSG_SIZE cell0 : Z) :
  0 <= MSG_SIZE -> (2 <= N)%nat ->
  (forall c, reachable cap N (pingpong_main MSG_SIZE) cell0 c ->
     (forall r m, (r < N)%nat ->
        In (ASend m) (log c r) \/ In (ARecv m) (log c r) ->
        data m = repeat 0 (Z.to_nat MSG_SIZE)) /\
     (forall m, In m (net c) -> data m = repeat 0 (Z.to_nat MSG_SIZE))) /\
  (forall r n i (K : list Z -> prog Z),
     follows r
       (bind (for_loop n i (pingpong_body MSG_SIZE (Z.of_nat r))
                (repeat 0 (Z.to_nat MSG_SIZE))) K)
       (pp_rounds MSG_SIZE r n) (K (repeat 0 (Z.to_nat MSG_SIZE)))).
Proof.
  intros Hsz HN. split.
  - intros c Hc.
    destruct (pp_invariant cap N MSG_SIZE cell0 c Hsz HN Hc) as [Hp Hn].
    split; [|exact Hn].
    intros r m Hr Hin. destruct (Hp r Hr) as (th & _ & Hpre).
    assert (forall a, In a (pp_trace MSG_SIZE th r) ->
              forall m0, a = ASend m0 \/ a = ARecv m0 ->
              data m0 = zeros MSG_SIZE) as Hdata.
    { intros a Ha m0 Hm0. unfold pp_trace, pp_pre in Ha. cbn [app] in Ha.
      destruct Ha as [<-|[<-|[<-|Ha]]]; try (destruct Hm0; discriminate).
      apply in_app_or in Ha as [Ha|[<-|Ha]].
      - destruct (pp_rounds_kinds _ _ _ _ Ha) as [(m' & -> & Hd)|(m' & -> & Hd)];
          destruct Hm0 as [[= <-]|[= <-]]; exact Hd.
      - destruct Hm0; discriminate.
      - destruct (pp_post_calls _ _ _ _ Ha) as [x ->].
        destruct Hm0; discriminate. }
    destruct Hin as [Hin|Hin];
      apply (Hdata _ (prefix_in _ _ _ Hpre Hin) m); auto.
  - intros r n i K. now apply pp_loop_follows.
Qed.

Lemma pingpong_buffer_unchanged_witness :
  0 <= 8 /\ (2 <= 2)%nat /\
  exists c, reachable 0 2 (pingpong_main 8) 0 c /\ all_exited 2 c 0 /\
    forall r m, (r < 2)%nat ->
      In (ASend m) (log c r) \/ In (ARecv m) (log c r) -> data m = repeat 0 8.
Proof.
  assert (0 <= 8) as H8 by lia.
  assert (2 <= 2)%nat as H2 by lia.
  destruct (pp_completes 0 2 8 0 H8 H2 (PPEnv (zeros 8) 0%float 0%float)
              (zeros_length 8)) as (c & Hc & _ & He).
  destruct (pingpong_buffer_unchanged 0 2 8 0 H8 H2) as [Hmsg _].
  destruct (Hmsg c Hc) as [Hlog _].
  split; [assumption|]. split; [assumption|]. exists c. auto.
Defined.

(* ================================================================= *)
(** * Further properties of the ring *)

(** ** Who talks to whom, and the token at every rank *)

(** The rank before [r] on a ring of [N]. *)
Definition ring_pred (N r : nat) : nat := ((r + N - 1) mod N)%nat.

(** The messages rank [r] has in its trace: the one of its predecessor,
    received, and its own, sent. *)
Lemma ring_trace_messages N r a :
  (r < N)%nat -> Z.of_nat N <= CInt.INT_MAX -> In a (ring_trace N r) ->
  (exists x, a = ACall x) \/ a = ASend (ring_msg N r) \/
  a = ARecv (ring_msg N (ring_pred N r)).
Proof.
  intros Hr HN Ha. unfold ring_pred. destruct r as [|r].
  - rewrite ring_trace_first in Ha by lia.
    replace (0 + N - 1)%nat with (N - 1)%nat by lia.
    rewrite Nat.mod_small by lia.
    cbn [In] in Ha. repeat (destruct Ha as [<-|Ha]; [eauto|]). contradiction.
  - rewrite ring_trace_next in Ha by lia.
    replace (S r + N - 1)%nat with (r + 1 * N)%nat by lia.
    rewrite Nat.Div0.mod_add, Nat.mod_small by lia.
    cbn [In] in Ha. repeat (destruct Ha as [<-|Ha]; [eauto|]). contradiction.
Qed.

(** In a ring of [N >= 1] ranks, whatever the schedule and the buffering:
    rank [r] only ever sends to rank [(r + 1) mod N], with tag 0, the
    single [int] [42 + r]; it only ever receives from the rank before it
    the single [int] [42 + (the rank before it)]; rank 0 only prints the
    "received final token" line, the others only the "forwarded" line with
    their own rank and [42 + rank].  Sums are in [int] arithmetic and are
    exact when they fit. *)
Theorem ring_topology_and_tokens (cap N : nat) (cell0 : Z) (r : nat) :
  (1 <= N)%nat -> Z.of_nat N <= CInt.INT_MAX -> (r < N)%nat ->
  let p := ring_pred N r in
  (42 + Z.of_nat r <= CInt.INT_MAX ->
     CInt.wrap (42 + Z.of_nat r) = 42 + Z.of_nat r) /\
  (r <> O -> p = (r - 1)%nat) /\ (r = O -> p = (N - 1)%nat) /\
  forall c, reachable cap N ring_main cell0 c ->
    (forall m, In (ASend m) (log c r) ->
       m = Msg (Z.of_nat r) (Z.of_nat ((r + 1) mod N)) 0 MPI_INT
             [CInt.wrap (42 + Z.of_nat r)]) /\
    (forall m, In (ARecv m) (log c r) ->
       m = Msg (Z.of_nat p) (Z.of_nat r) 0 MPI_INT
             [CInt.wrap (42 + Z.of_nat p)]) /\
    (forall s fmt args, In (ACall (CPrintf s fmt args)) (log c r) ->
       s = stdout /\
       ((r = O /\ fmt = "Rank %d received final token=%d\n"%string /\
         args = [AInt 0; AInt (CInt.wrap (42 + Z.of_nat p))]) \/
        (r <> O /\ fmt = "Rank %d forwarded token=%d\n"%string /\
         args = [AInt (Z.of_nat r); AInt (CInt.wrap (42 + Z.of_nat r))]))).
Proof.
  intros H1 HN Hr p.
  assert (r <> O -> p = (r - 1)%nat) as Hp1.
  { intros Hr0. unfold p, ring_pred.
    replace (r + N - 1)%nat with (r - 1 + 1 * N)%nat by lia.
    rewrite Nat.Div0.mod_add. apply Nat.mod_small. lia. }
  assert (r = O -> p = (N - 1)%nat) as Hp0.
  { intros ->. unfold p, ring_pred. rewrite Nat.add_0_l.
    apply Nat.mod_small. lia. }
  split; [|split; [exact Hp1|split; [exact Hp0|]]].
  - intros Hfit. apply wrap_small.
    unfold CInt.in_range, CInt.INT_MIN. lia.
  - intros c Hc.
    pose proof (ring_prefix cap N cell0 c H1 HN Hc r Hr) as Hpre.
    assert ((p + 1) mod N = r)%nat as Hsucc.
    { destruct (Nat.eq_dec r 0) as [E|E].
      - rewrite (Hp0 E), E. replace (N - 1 + 1)%nat with N by lia.
        apply Nat.Div0.mod_same.
      - rewrite (Hp1 E). replace (r - 1 + 1)%nat with r by lia.
        apply Nat.mod_small. lia. }
    split; [|split].
    + intros m Hm. apply (prefix_in _ _ _ Hpre) in Hm.
      destruct (ring_trace_messages N r _ Hr HN Hm) as [[x [=]]|[[= ->]|[=]]].
      unfold ring_msg. now rewrite tok_wrap.
    + intros m Hm. apply (prefix_in _ _ _ Hpre) in Hm.
      destruct (ring_trace_messages N r _ Hr HN Hm) as [[x [=]]|[[=]|[= ->]]].
      fold p. unfold ring_msg. now rewrite tok_wrap, Hsucc.
    + intros s fmt args Hm. apply (prefix_in _ _ _ Hpre) in Hm.
      destruct r as [|r'].
      * rewrite ring_trace_first in Hm by lia. cbn [In] in Hm.
        repeat (destruct Hm as [Hm|Hm]; try discriminate Hm); try contradiction.
        injection Hm as <- <- <-. split; [reflexivity|]. left.
        rewrite (Hp0 eq_refl), tok_wrap. auto.
      * rewrite ring_trace_next in Hm by lia. cbn [In] in Hm.
        repeat (destruct Hm as [Hm|Hm]; try discriminate Hm); try contradiction.
        injection Hm as <- <- <-. split; [reflexivity|]. right.
        change (tok r' +! 1) with (tok (S r')). rewrite tok_wrap.
        split; [discriminate|]. split; reflexivity.
Qed.

Lemma ring_topology_and_tokens_witness :
  (1 <= 4)%nat /\ Z.of_nat 4 <= CInt.INT_MAX /\ (3 < 4)%nat /\
  ring_pred 4 3 = 2%nat /\
  forall c, reachable 0 4 ring_main 0 c ->
    forall m, In (ASend m) (log c 3%nat) -> m = Msg 3 0 0 MPI_INT [45].
Proof.
  assert (1 <= 4)%nat as H1 by lia.
  assert (Z.of_nat 4 <= CInt.INT_MAX) as H4 by (unfold CInt.INT_MAX; simpl; lia).
  assert (3 < 4)%nat as H3 by lia.
  destruct (ring_topology_and_tokens 0 4 0 3 H1 H4 H3) as (_ & _ & _ & Hc).
  repeat split; auto.
  intros c Hr m Hm. destruct (Hc c Hr) as (Hsend & _ & _).
  exact (Hsend m Hm).
Defined.


(* ================================================================= *)
(** * Programs that only make local calls *)

Section CallsOnly.

Variable cap : nat.
Variable N : nat.
Variable main : Z -> Z -> prog Z.
Variable cell0 : Z.
Variable T : nat -> list act.
Variable fin : nat -> prog Z.

Hypothesis T_follows :
  forall r, (r < N)%nat -> follows r (main (Z.of_nat r) (Z.of_nat N)) (T r) (fin r).
Hypothesis fin_halted : forall r, halted (fin r).
Hypothesis T_calls : forall r a, (r < N)%nat -> In a (T r) -> exists x, a = ACall x.

(** Every rank is somewhere along its trace and nothing is in flight. *)
Lemma calls_only_invariant c :
  reachable cap N main cell0 c ->
  (forall r, (r < N)%nat -> prefix (log c r) (T r)) /\ net c = [].
Proof.
  intros Hc.
  destruct (trace_invariant cap N main cell0 unit (fun _ => True)
              (fun _ => T) (fun _ => False)) with (c := c)
    as [Hp Hn]; auto.
  - now exists tt.
  - intros _ r _ Hr. exists (fin r). auto.
  - intros r _ l b rest a Hr _ E Hs _ _.
    destruct (T_calls r b Hr) as [x ->]; [rewrite E; apply in_middle|].
    apply skeleton_fixed in Hs; [subst a|exact I].
    split; [|intros m [=]]. exists tt. split; [exact I|].
    eapply prefix_snoc; eauto.
  - split.
    + intros r Hr. destruct (Hp r Hr) as (_ & _ & H). exact H.
    + destruct (net c) as [|m ?]; [reflexivity|].
      destruct (Hn m). now left.
Qed.

(** From wherever the ranks are, each can finish on its own. *)
Lemma calls_only_completes c :
  reachable cap N main cell0 c ->
  exists c', steps cap N c c' /\
    forall r, (r < N)%nat -> log c' r = T r /\ code c' r = fin r.
Proof.
  intros Hc. destruct (calls_only_invariant c Hc) as [Hp _].
  destruct (trace_each_steps cap N main cell0 T fin T_follows c
              (fun _ _ => True)
              (fun r => skipn (length (log c r)) (T r)) (fun _ => []))
    as (c' & Hs & Hl & _); auto.
  - intros r Hr. rewrite app_nil_r. apply prefix_skipn. auto.
  - intros r v Hr _. exists v. split; [|exact I].
    apply mem_run_calls. intros a Ha. apply (T_calls r); [assumption|].
    rewrite (prefix_skipn _ _ (Hp r Hr)). apply in_or_app. now right.
  - exists c'. split; [assumption|]. intros r Hr.
    assert (log c' r = T r) as E.
    { rewrite Hl by assumption. symmetry. apply prefix_skipn. auto. }
    split; [assumption|].
    apply (trace_done cap N main cell0 T fin T_follows c' r); auto.
    eapply reachable_steps; eauto.
Qed.

End CallsOnly.

(* ================================================================= *)
(** * Further properties of the deadlock example *)

(** ** Started with a number of ranks other than two *)

(** What rank [r] does when the world does not have exactly two ranks. *)
Definition deadlock_refusal (r : nat) : list act :=
  match r with
  | O => [ACall CInit;
          ACall (CPrintf stdout
                   "This program requires exactly 2 MPI processes\n" []);
          ACall CFinalize]
  | S _ => [ACall CInit; ACall CFinalize]
  end.

Lemma deadlock_refusal_follows N r :
  N <> 2%nat ->
  follows r (deadlock_main (Z.of_nat r) (Z.of_nat N)) (deadlock_refusal r) (Ret 1).
Proof.
  intros HN. unfold deadlock_main, deadlock_refusal.
  replace (Z.of_nat N =? 2) with false by (symmetry; apply Z.eqb_neq; lia).
  destruct r as [|r].
  - cbn [negb Z.of_nat Z.eqb bind MPI_Init printf MPI_Finalize follows].
    repeat (eexists; split; [constructor|]). reflexivity.
  - replace (Z.of_nat (S r) =? 0) with false by (symmetry; apply Z.eqb_neq; lia).
    cbn [negb bind MPI_Init skip MPI_Finalize follows].
    repeat (eexists; split; [constructor|]). reflexivity.
Qed.

Lemma deadlock_refusal_calls r a :
  In a (deadlock_refusal r) -> exists x, a = ACall x.
Proof.
  destruct r; simpl; intros H;
    repeat (destruct H as [<-|H]; [eauto|]); contradiction.
Qed.

(** Started with one rank, or with three or more, the deadlock example
    refuses to run: whatever the schedule, no rank ever sends, receives or
    prints any of the "Process ..." lines; rank 0 prints the line that
    asks for exactly two processes, once, between initialisation and
    finalisation; the other ranks only initialise and finalise; every
    rank can always run on to its [return], and what it returns is 1. *)
Theorem deadlock_refuses_other_sizes (cap N : nat) (cell0 : Z) :
  (1 <= N)%nat -> N <> 2%nat ->
  forall c, reachable cap N deadlock_main cell0 c ->
    net c = [] /\
    prefix (log c O)
      [ACall CInit;
       ACall (CPrintf stdout
                "This program requires exactly 2 MPI processes\n" []);
       ACall CFinalize] /\
    (forall r, (1 <= r < N)%nat ->
       prefix (log c r) [ACall CInit; ACall CFinalize]) /\
    (forall r m, (r < N)%nat ->
       ~ In (ASend m) (log c r) /\ ~ In (ARecv m) (log c r)) /\
    (forall r v, (r < N)%nat -> exited c r v ->
       v = 1 /\ In (ACall CFinalize) (log c r)) /\
    (exists c', steps cap N c c' /\ all_exited N c' 1).
Proof.
  intros H1 HN c Hc.
  pose proof (fun r (_ : (r < N)%nat) => deadlock_refusal_follows N r HN) as Hfol.
  assert (forall r : nat, halted (Ret 1)) as Hhalt by (intros _; now exists 1).
  pose proof (fun r a (_ : (r < N)%nat) => deadlock_refusal_calls r a) as Hcalls.
  destruct (calls_only_invariant cap N deadlock_main cell0 deadlock_refusal
              (fun _ => Ret 1) Hfol Hhalt Hcalls c Hc) as [Hp Hn].
  split; [exact Hn|]. split; [exact (Hp O H1)|]. split; [|split; [|split]].
  - intros r Hr. destruct r as [|r]; [lia|]. apply (Hp (S r)). lia.
  - intros r m Hr. split; intros Hm;
      apply (prefix_in _ _ _ (Hp r Hr)) in Hm;
      destruct (deadlock_refusal_calls _ _ Hm) as [x [=]].
  - intros r v Hr He.
    destruct (trace_exit cap N deadlock_main cell0 deadlock_refusal
                (fun _ => Ret 1) Hfol c r v Hc Hr (Hp r Hr) He) as [E [= <-]].
    split; [reflexivity|]. rewrite E. destruct r; simpl; auto.
  - destruct (calls_only_completes cap N deadlock_main cell0 deadlock_refusal
                (fun _ => Ret 1) Hfol Hhalt Hcalls c Hc) as (c' & Hs & Hl).
    exists c'. split; [assumption|]. intros r Hr. now apply Hl.
Qed.

Lemma deadlock_refuses_other_sizes_witness :
  (1 <= 3)%nat /\ 3%nat <> 2%nat /\
  exists c', steps 0 3 (init 3 deadlock_main 0) c' /\ all_exited 3 c' 1.
Proof.
  assert (1 <= 3)%nat as H1 by lia.
  assert (3 <> 2)%nat as H3 by lia.
  destruct (deadlock_refuses_other_sizes 0 3 0 H1 H3 _
              (reachable_init 0 3 deadlock_main 0)) as (_ & _ & _ & _ & _ & Hrun).
  repeat split; auto.
Defined.


(* ================================================================= *)
(** * Runs that cannot get stuck *)

Lemma steps_stuck cap N c c' : steps cap N c c' -> stuck cap N c -> c' = c.
Proof.
  induction 1 as [|c2 c3 H12 IH Hs]; intros Hst; [reflexivity|].
  rewrite (IH Hst) in Hs. destruct (Hst _ Hs).
Qed.

(** A configuration from which the run can be completed is not a dead
    end: if no rule applies to it, it is already complete. *)
Lemma completable_not_stuck cap N c (P : config -> Prop) :
  (exists c', steps cap N c c' /\ P c') -> stuck cap N c -> P c.
Proof.
  intros (c' & Hs & HP) Hst. now rewrite (steps_stuck _ _ _ _ Hs Hst) in HP.
Qed.

(** ** Single steps along traces *)

Section TraceSteps.

Variable cap : nat.
Variable N : nat.
Variable main : Z -> Z -> prog Z.
Variable cell0 : Z.
Variable T : nat -> list act.
Variable fin : nat -> prog Z.

Hypothesis T_follows :
  forall r, (r < N)%nat -> follows r (main (Z.of_nat r) (Z.of_nat N)) (T r) (fin r).

Local Abbreviation reach := (reachable cap N main cell0).

Lemma trace_sync_step c x (rest : nat -> list act) :
  reach c -> (0 < N)%nat ->
  (forall r, (r < N)%nat -> T r = log c r ++ ASync x :: rest r) ->
  exists c', step cap N c c' /\
    (forall r, (r < N)%nat -> log c' r = log c r ++ [ASync x]) /\
    net c' = net c /\ cell c' = cell c.
Proof.
  intros Hc HN E.
  destruct (fire_sync cap N x c HN) as (c' & Hs & Hin & _ & Hn & Hv).
  - intros r Hr.
    destruct (code_follows cap N main cell0 T fin T_follows c r _ _ Hc Hr
                eq_refl (E r Hr)) as (p1 & Hl & _).
    inversion Hl; subst. eauto.
  - exists c'. repeat split; auto.
    intros r Hr. now apply Hin.
Qed.

Lemma trace_internal_step c r a rest :
  reach c -> (r < N)%nat -> T r = log c r ++ a :: rest -> internal a ->
  exists c', step cap N c c' /\ log c' r = log c r ++ [a] /\
    (forall j, j <> r -> log c' j = log c j) /\
    net c' = net c /\ cell c' = cell c.
Proof.
  intros Hc Hr E Hi.
  destruct (code_follows cap N main cell0 T fin T_follows c r _ _ Hc Hr
              eq_refl E) as (p1 & Hl & _).
  exists (advance c r a p1). split; [now apply G_local|].
  simpl. rewrite upd_same. repeat split; auto.
  intros j Hj. now rewrite upd_other.
Qed.

Lemma trace_post_step c s m rs :
  reach c -> (s < N)%nat -> T s = log c s ++ ASend m :: rs ->
  (length (net c) < cap)%nat ->
  exists c', step cap N c c' /\ log c' s = log c s ++ [ASend m] /\
    (forall j, j <> s -> log c' j = log c j) /\
    net c' = net c ++ [m] /\ cell c' = cell c.
Proof.
  intros Hc Hs Es Hcap.
  destruct (code_follows cap N main cell0 T fin T_follows c s _ _ Hc Hs
              eq_refl Es) as (ps & Hls & _).
  exists (with_net (advance c s (ASend m) ps) (net c ++ [m])).
  split; [now apply G_post|].
  simpl. rewrite upd_same. repeat split; auto.
  intros j Hj. now rewrite upd_other.
Qed.

Lemma trace_deliver_step c d m rd l1 l2 :
  reach c -> (d < N)%nat -> T d = log c d ++ ARecv m :: rd ->
  net c = l1 ++ m :: l2 ->
  (forall m', In m' l1 -> ~ same_envelope m' m) ->
  exists c', step cap N c c' /\ log c' d = log c d ++ [ARecv m] /\
    (forall j, j <> d -> log c' j = log c j) /\
    net c' = l1 ++ l2 /\ cell c' = cell c.
Proof.
  intros Hc Hd Ed Hnet Hfirst.
  destruct (code_follows cap N main cell0 T fin T_follows c d _ _ Hc Hd
              eq_refl Ed) as (pd & Hld & _).
  exists (with_net (advance c d (ARecv m) pd) (l1 ++ l2)).
  split; [now apply G_deliver|].
  simpl. rewrite upd_same. repeat split; auto.
  intros j Hj. now rewrite upd_other.
Qed.

Lemma trace_rendezvous_step c s d m rs rd :
  reach c -> (s < N)%nat -> (d < N)%nat ->
  T s = log c s ++ ASend m :: rs ->
  T d = log c d ++ ARecv m :: rd ->
  (forall m', In m' (net c) -> ~ same_envelope m' m) ->
  exists c', step cap N c c' /\ s <> d /\
    log c' s = log c s ++ [ASend m] /\ log c' d = log c d ++ [ARecv m] /\
    (forall j, j <> s -> j <> d -> log c' j = log c j) /\
    net c' = net c /\ cell c' = cell c.
Proof.
  intros Hc Hs Hd Es Ed Hnet.
  destruct (code_follows cap N main cell0 T fin T_follows c s _ _ Hc Hs
              eq_refl Es) as (ps & Hls & _).
  destruct (code_follows cap N main cell0 T fin T_follows c d _ _ Hc Hd
              eq_refl Ed) as (pd & Hld & _).
  assert (s <> d) as Hsd.
  { intros ->. eapply lstep_not_send_recv; eauto. }
  exists (advance (advance c s (ASend m) ps) d (ARecv m) pd).
  split; [now apply G_rendezvous|]. split; [assumption|].
  simpl. rewrite !upd_same, !(upd_other _ d _ s), !upd_same by assumption.
  rewrite !(upd_other _ s _ d) by congruence.
  split; [reflexivity|]. split; [reflexivity|]. split; [|split; reflexivity].
  intros j Hjs Hjd. now rewrite !upd_other.
Qed.

End TraceSteps.

(* ================================================================= *)
(** * Epoch-structured programs never get stuck *)

Section EpochsFrom.

Variable cap : nat.
Variable N : nat.
Variable main : Z -> Z -> prog Z.
Variable cell0 : Z.
Variable Es : list epoch.
Variable fin : nat -> prog Z.

Hypothesis N_pos : (0 < N)%nat.
Hypothesis fin_halted : forall r, halted (fin r).
Hypothesis Es_follows :
  forall r, (r < N)%nat ->
    follows r (main (Z.of_nat r) (Z.of_nat N)) (btrace Es r) (fin r).
Hypothesis Es_ok : forall e, In e Es -> epoch_ok N e.
Hypothesis Es_linked : linked Es.
Hypothesis Es_start : exists e0 E, Es = e0 :: E /\ e_in e0 = cell0.

Local Abbreviation bsp_reach := (reachable cap N main cell0).

(** All ranks finish the epoch they are in, one after the other, from
    wherever each of them stands in it. *)
Lemma epoch_finish c done cur todo (lf : nat -> list act) :
  bsp_reach c -> Es = done ++ cur :: todo ->
  (forall r, (r < N)%nat ->
     log c r = base done cur r ++ lf r /\ prefix (lf r) (e_seg cur r)) ->
  ((cell c = e_in cur /\
    forall r a, (r < N)%nat -> In a (lf r) -> writes a = false) \/
   (cell c = e_out cur /\
    exists r a, (r < N)%nat /\ In a (lf r) /\ writes a = true)) ->
  exists c', steps cap N c c' /\
    (forall r, (r < N)%nat -> log c' r = base done cur r ++ e_seg cur r) /\
    net c' = net c /\ cell c' = e_out cur.
Proof.
  intros Hc EEs Hlog Hmem.
  assert (epoch_ok N cur) as (Hloc & Hrd & Hwr & Hnw)
    by (apply Es_ok; rewrite EEs; apply in_elt).
  pose (seg := fun r => skipn (length (lf r)) (e_seg cur r)).
  assert (forall r, (r < N)%nat -> e_seg cur r = lf r ++ seg r) as Eseg.
  { intros r Hr. apply prefix_skipn. now apply Hlog. }
  assert (forall r a, (r < N)%nat -> In a (seg r) -> In a (e_seg cur r)) as Hsub.
  { intros r a Hr Ha. rewrite (Eseg r Hr). apply in_or_app. now right. }
  assert (forall r a, (r < N)%nat -> In a (lf r) -> In a (e_seg cur r)) as Hsub'.
  { intros r a Hr Ha. rewrite (Eseg r Hr). apply in_or_app. now left. }
  destruct (trace_each_steps cap N main cell0 (btrace Es) fin Es_follows c
    (fun r v =>
       (v = e_in cur /\
        (forall r' a, (r' < N)%nat -> In a (lf r') -> writes a = false) /\
        forall r' a, (r' < r)%nat -> In a (seg r') -> writes a = false) \/
       (v = e_out cur /\
        exists r' a, (r' < N)%nat /\ In a (e_seg cur r') /\ writes a = true))
    seg (fun r => flat todo r) Hc) as (c' & Hs & Hl & Hn & HI).
  - intros r Hr. destruct (Hlog r Hr) as [-> _].
    rewrite EEs, btrace_split, (Eseg r Hr), <- !app_assoc. reflexivity.
  - destruct Hmem as [[Hv Hnone]|[Hv (r0 & a0 & Hr0 & Ha0 & Hw0)]].
    + left. split; [assumption|]. split; [assumption|]. intros r' a Hr'. lia.
    + right. split; [assumption|]. exists r0, a0. auto.
  - intros r v Hr [(-> & Hnone & Hbefore)|[-> (r0 & a0 & Hr0 & Ha0 & Hw0)]].
    + destruct (existsb writes (seg r)) eqn:Ew.
      * exists (e_out cur). split.
        -- pose proof (writes_run (seg r) (e_in cur) (e_out cur)) as Hrun.
           rewrite Ew in Hrun. apply Hrun. intros a Ha.
           split; [eauto|]. split; [|eauto].
           destruct (reads a) eqn:Hra; [|reflexivity].
           destruct (Hrd r a Hr (Hsub r a Hr Ha) Hra) as [_ Hno].
           apply existsb_exists in Ew as (b & Hb & Hwb).
           rewrite (Hno r b Hr (Hsub r b Hr Hb)) in Hwb. discriminate.
        -- right. split; [reflexivity|].
           apply existsb_exists in Ew as (b & Hb & Hwb).
           exists r, b. repeat split; auto.
      * exists (e_in cur). split.
        -- apply reads_only_run. intros a Ha.
           split; [eauto|]. split; [now apply (existsb_writes_false _ Ew)|].
           intros Hra. now destruct (Hrd r a Hr (Hsub r a Hr Ha) Hra).
        -- left. split; [reflexivity|]. split; [assumption|].
           intros r' a Hr' Ha.
           destruct (Nat.eq_dec r' r) as [->|Hne].
           ++ now apply (existsb_writes_false _ Ew).
           ++ apply (Hbefore r' a); [lia|assumption].
    + exists (e_out cur). split.
      * pose proof (writes_run (seg r) (e_out cur) (e_out cur)) as Hrun.
        destruct (existsb writes (seg r)); apply Hrun; intros a Ha;
          (split; [eauto|]; split; [|eauto];
           destruct (reads a) eqn:Hra; [|reflexivity];
           destruct (Hrd r a Hr (Hsub r a Hr Ha) Hra) as [_ Hno];
           rewrite (Hno r0 a0 Hr0 Ha0) in Hw0; discriminate).
      * right. split; [reflexivity|]. exists r0, a0. repeat split; auto.
  - exists c'. split; [assumption|]. split; [|split; [assumption|]].
    + intros r Hr. rewrite (Hl r Hr). destruct (Hlog r Hr) as [-> _].
      now rewrite (Eseg r Hr), <- app_assoc.
    + destruct HI as [(Hv & Hnone & Hbefore)|[Hv _]]; [|assumption].
      rewrite Hv. symmetry. apply Hnw. intros r a Hr Ha.
      rewrite (Eseg r Hr) in Ha. apply in_app_or in Ha as [Ha|Ha]; eauto.
Qed.

(** From the end of an epoch, through all the epochs that remain. *)
Lemma bsp_run_rest todo :
  forall done cur c, Es = done ++ cur :: todo -> bsp_reach c ->
    (forall r, (r < N)%nat -> log c r = base done cur r ++ e_seg cur r) ->
    cell c = e_out cur ->
    exists c', steps cap N c c' /\
      (forall r, (r < N)%nat -> log c' r = btrace Es r).
Proof.
  induction todo as [|nxt todo IH]; intros done cur c EEs Hc Hl Hv.
  - exists c. split; [apply steps_refl|]. intros r Hr.
    rewrite (Hl r Hr), EEs, btrace_split. cbn [flat]. now rewrite app_nil_r.
  - destruct (trace_sync_step cap N main cell0 (btrace Es) fin Es_follows c
                (e_col nxt) (fun r => e_seg nxt r ++ flat todo r) Hc N_pos)
      as (c1 & Hs1 & Hl1 & Hn1 & Hv1).
    { intros r Hr. rewrite (Hl r Hr), EEs, btrace_split. cbn [flat].
      now rewrite <- app_assoc. }
    assert (bsp_reach c1) as Hc1 by (eapply reachable_step; eauto).
    assert (Es = (done ++ [cur]) ++ nxt :: todo) as EEs'
      by (now rewrite <- app_assoc).
    destruct (epoch_finish c1 (done ++ [cur]) nxt todo (fun _ => []) Hc1 EEs')
      as (c2 & Hs2 & Hl2 & Hn2 & Hv2).
    + intros r Hr. split; [|apply prefix_nil].
      rewrite (Hl1 r Hr), (Hl r Hr), base_next, app_nil_r, <- !app_assoc.
      reflexivity.
    + left. split; [|intros r a _ []].
      rewrite Hv1, Hv. apply (linked_app_inv done cur nxt todo).
      rewrite <- EEs. exact Es_linked.
    + destruct (IH (done ++ [cur]) nxt c2 EEs') as (c3 & Hs3 & Hl3); auto.
      * eapply reachable_steps; eauto.
      * exists c3. split; [|assumption].
        eapply steps_trans; [apply steps_one; exact Hs1|].
        eapply steps_trans; eauto.
Qed.

(** From every reachable configuration the run can be completed. *)
Theorem bsp_can_complete c :
  bsp_reach c ->
  exists c', steps cap N c c' /\
    forall r, (r < N)%nat -> log c' r = btrace Es r /\ code c' r = fin r.
Proof.
  intros Hc.
  destruct (bsp_reachable cap N main cell0 Es fin N_pos fin_halted Es_follows
              Es_ok Es_linked Es_start c Hc)
    as (done & cur & todo & lf & EEs & Hlog & Hmem).
  destruct (epoch_finish c done cur todo lf Hc EEs Hlog Hmem)
    as (c1 & Hs1 & Hl1 & _ & Hv1).
  assert (bsp_reach c1) as Hc1 by (eapply reachable_steps; eauto).
  destruct (bsp_run_rest todo done cur c1 EEs Hc1 Hl1 Hv1) as (c2 & Hs2 & Hl2).
  exists c2. split; [eapply steps_trans; eauto|].
  intros r Hr. split; [auto|].
  apply (trace_done cap N main cell0 (btrace Es) fin Es_follows c2 r); auto.
  eapply reachable_steps; eauto.
Qed.

End EpochsFrom.


(* ================================================================= *)
(** * Further properties of the racy counter *)

Lemma mul_small a b : CInt.in_range (a * b) -> a *! b = a * b.
Proof. apply wrap_small. Qed.

(** ** The run cannot get stuck *)

(** The racy counter never deadlocks: all ranks enter the same
    collectives in the same order, so from every configuration a run can
    reach, whatever the schedule so far, the run can be continued until
    every rank has returned 0; a configuration in which no rank can move
    is one in which all have returned. *)
Theorem race_never_deadlocks (cap N : nat) (K cell0 : Z) :
  (1 <= N)%nat ->
  forall c, reachable cap N (race_prog K) cell0 c ->
    (exists c', steps cap N c c' /\ all_exited N c' 0) /\
    (stuck cap N c -> all_exited N c 0).
Proof.
  intros HN c Hc.
  assert (exists c', steps cap N c c' /\ all_exited N c' 0) as Hrun.
  { destruct (bsp_can_complete cap N (race_prog K) cell0
                (race_epochs K (Z.of_nat N) cell0) (fun _ => Ret 0)
                HN (fun _ => ex_intro _ 0 eq_refl)
                (fun r0 _ => race_follows K N cell0 r0)
                (fun e => race_epochs_ok K N cell0 e HN)
                (race_epochs_linked K (Z.of_nat N) cell0)
                (race_start N K cell0) c Hc) as (c' & Hs & Hl).
    exists c'. split; [assumption|]. intros r Hr. now apply Hl. }
  split; [exact Hrun|].
  exact (completable_not_stuck cap N c (fun c0 => all_exited N c0 0) Hrun).
Qed.

Lemma race_never_deadlocks_witness :
  (1 <= 2)%nat /\
  exists c', steps 0 2 (init 2 race_main 0) c' /\ all_exited 2 c' 0.
Proof.
  assert (1 <= 2)%nat as H2 by lia.
  destruct (race_never_deadlocks 0 2 NUM_INCREMENTS 0 H2 _
              (reachable_init 0 2 race_main 0)) as [Hrun _].
  split; assumption.
Defined.

(** ** What the final check reports with two or more ranks *)

Definition final_line (v expected : Z) : act :=
  ACall (CPrintf stdout "Final counter value: %d (expected: %d)\n"
           [AInt v; AInt expected]).

Definition race_line (lost : Z) : act :=
  ACall (CPrintf stdout "RACE CONDITION DETECTED! Lost updates: %d\n"
           [AInt lost]).

Definition no_race_line : act :=
  ACall (CPrintf stdout
           "No race detected in this run (but race still exists!)\n" []).

(** With [N >= 2] ranks and [K >= 1] rounds (the product fitting an
    [int]) the outcome does not depend on the schedule: when all ranks
    have returned, rank 0 has reported the counter as [K] against an
    expected [K * N], has printed the "RACE CONDITION DETECTED" line with
    [K * (N - 1)] lost updates, and has not printed the "No race" line. *)
Theorem race_lost_updates (cap N : nat) (K cell0 : Z) :
  (2 <= N)%nat -> 1 <= K -> K * Z.of_nat N <= CInt.INT_MAX ->
  (exists c, reachable cap N (race_prog K) cell0 c /\ all_exited N c 0) /\
  forall c, reachable cap N (race_prog K) cell0 c ->
    (forall r, (r < N)%nat -> exists v, exited c r v) ->
    In (final_line K (K * Z.of_nat N)) (log c O) /\
    In (race_line (K * (Z.of_nat N - 1))) (log c O) /\
    ~ In no_race_line (log c O).
Proof.
  intros HN HK Hfit.
  assert (1 <= N)%nat as H1 by lia.
  assert (0 <= K <= CInt.INT_MAX) as HK' by nia.
  pose proof (cnt_rounds K HK') as Ecnt.
  split.
  - destruct (race_run cap N K cell0 H1) as (c & Hc & He & _). eauto.
  - intros c Hc Hex.
    destruct (race_final_state cap N K cell0 H1 c Hc Hex) as [_ Hl].
    rewrite (Hl O H1), race_trace_rank0, Ecnt.
    assert (race_check_log K (Z.of_nat N) K =
            [ALoad K; final_line K (K * Z.of_nat N); ALoad K; ALoad K;
             race_line (K * (Z.of_nat N - 1))]) as ->.
    { unfold race_check_log, final_line, race_line.
      rewrite mul_small
        by (unfold CInt.in_range, CInt.INT_MIN, CInt.INT_MAX in *; nia).
      replace (K =? K * Z.of_nat N) with false
        by (symmetry; apply Z.eqb_neq; nia).
      rewrite sub_small
        by (unfold CInt.in_range, CInt.INT_MIN, CInt.INT_MAX in *; nia).
      replace (K * Z.of_nat N - K) with (K * (Z.of_nat N - 1)) by lia.
      reflexivity. }
    split; [|split].
    + apply in_or_app. right. right. apply in_or_app. left.
      cbn [In]. auto.
    + apply in_or_app. right. right. apply in_or_app. left.
      cbn [In]. auto 6.
    + unfold no_race_line, final_line, race_line. intros Hin.
      apply in_app_or in Hin as [Hin|Hin].
      * apply in_app_or in Hin as [Hin|Hin].
        -- simpl in Hin. repeat (destruct Hin as [Hin|Hin]; try discriminate Hin).
           contradiction.
        -- destruct (race_rounds_kinds _ _ _ _ _ Hin)
             as [[y [=]]|[[y [=]]|[[y [=]]|[[=]|[y [=]]]]]].
      * simpl in Hin. repeat (destruct Hin as [Hin|Hin]; try discriminate Hin).
        contradiction.
Qed.

Lemma race_lost_updates_witness :
  (2 <= 4)%nat /\ 1 <= 1000 /\ 1000 * Z.of_nat 4 <= CInt.INT_MAX /\
  exists c, reachable 0 4 race_main 0 c /\ all_exited 4 c 0 /\
    In (race_line 3000) (log c O).
Proof.
  assert (2 <= 4)%nat as H4 by lia.
  assert (1 <= 1000) as HK by lia.
  assert (1000 * Z.of_nat 4 <= CInt.INT_MAX) as Hfit
    by (unfold CInt.INT_MAX; simpl; lia).
  destruct (race_lost_updates 0 4 1000 0 H4 HK Hfit)
    as [(c & Hc & He) Hall].
  split; [assumption|]. split; [assumption|]. split; [assumption|].
  exists c. split; [assumption|]. split; [assumption|].
  apply (Hall c Hc). intros r Hr. exists 0. now apply He.
Defined.

(** ** The progress lines *)








(* ================================================================= *)
(** * Messages arrive in the order they were sent *)

(** Does [m] carry the envelope (source [s], destination [d], tag [g])? *)
Definition env_eqb (s d g : Z) (m : message) : bool :=
  (src m =? s) && (dst m =? d) && (tag m =? g).

Definition sent_of (s d g : Z) (a : act) : list message :=
  match a with
  | ASend m => if env_eqb s d g m then [m] else []
  | _ => []
  end.

Definition recv_of (s d g : Z) (a : act) : list message :=
  match a with
  | ARecv m => if env_eqb s d g m then [m] else []
  | _ => []
  end.

(** The messages with a given envelope that a log records as sent, as
    received, and those among the messages in flight, oldest first. *)
Definition sent (s d g : Z) (l : list act) : list message :=
  flat_map (sent_of s d g) l.

Definition received (s d g : Z) (l : list act) : list message :=
  flat_map (recv_of s d g) l.

Definition in_flight (s d g : Z) (n : list message) : list message :=
  filter (env_eqb s d g) n.

(** Per envelope, what the sender has sent is what the receiver has
    received followed by what is in flight. *)
Definition fifo_inv (c : config) : Prop :=
  forall (s d : nat) (g : Z),
    sent (Z.of_nat s) (Z.of_nat d) g (log c s) =
    received (Z.of_nat s) (Z.of_nat d) g (log c d) ++
    in_flight (Z.of_nat s) (Z.of_nat d) g (net c).

Lemma sent_app s d g l1 l2 : sent s d g (l1 ++ l2) = sent s d g l1 ++ sent s d g l2.
Proof. apply flat_map_app. Qed.

Lemma received_app s d g l1 l2 :
  received s d g (l1 ++ l2) = received s d g l1 ++ received s d g l2.
Proof. apply flat_map_app. Qed.

Lemma sent_advance c r a p s d g x :
  sent s d g (log (advance c r a p) x) =
  sent s d g (log c x) ++ (if Nat.eqb x r then sent_of s d g a else []).
Proof.
  simpl. unfold upd. destruct (Nat.eqb_spec x r) as [->|Hne].
  - rewrite sent_app. simpl. now rewrite app_nil_r.
  - now rewrite app_nil_r.
Qed.

Lemma received_advance c r a p s d g x :
  received s d g (log (advance c r a p) x) =
  received s d g (log c x) ++ (if Nat.eqb x r then recv_of s d g a else []).
Proof.
  simpl. unfold upd. destruct (Nat.eqb_spec x r) as [->|Hne].
  - rewrite received_app. simpl. now rewrite app_nil_r.
  - now rewrite app_nil_r.
Qed.

Lemma lstep_send_src r p m p' : lstep r p (ASend m) p' -> src m = Z.of_nat r.
Proof. intros H. inversion H; subst. reflexivity. Qed.

Lemma lstep_recv_dst r p m p' : lstep r p (ARecv m) p' -> dst m = Z.of_nat r.
Proof. intros H. inversion H; subst. reflexivity. Qed.

Lemma env_eqb_self m : env_eqb (src m) (dst m) (tag m) m = true.
Proof. unfold env_eqb. now rewrite !Z.eqb_refl. Qed.

Lemma env_eqb_same s d g m m' :
  env_eqb s d g m = true -> env_eqb s d g m' = true -> same_envelope m' m.
Proof.
  unfold env_eqb, same_envelope. intros H H'.
  apply andb_prop in H as [H Hg]. apply andb_prop in H as [Hs Hd].
  apply andb_prop in H' as [H' Hg']. apply andb_prop in H' as [Hs' Hd'].
  apply Z.eqb_eq in Hs, Hd, Hg, Hs', Hd', Hg'. repeat split; congruence.
Qed.

Lemma same_envelope_eqb m m' :
  same_envelope m' m -> env_eqb (src m) (dst m) (tag m) m' = true.
Proof.
  unfold env_eqb, same_envelope. intros (-> & -> & ->). now rewrite !Z.eqb_refl.
Qed.

Lemma env_eqb_src s d g m : env_eqb s d g m = true -> src m = s.
Proof.
  unfold env_eqb. intros H. apply andb_prop in H as [H _].
  apply andb_prop in H as [H _]. now apply Z.eqb_eq in H.
Qed.

Lemma env_eqb_dst s d g m : env_eqb s d g m = true -> dst m = d.
Proof.
  unfold env_eqb. intros H. apply andb_prop in H as [H _].
  apply andb_prop in H as [_ H]. now apply Z.eqb_eq in H.
Qed.

Lemma in_flight_none s d g n :
  (forall m, In m n -> env_eqb s d g m = false) -> in_flight s d g n = [].
Proof.
  induction n as [|m n IH]; intros H; [reflexivity|].
  simpl. rewrite (H m) by now left. apply IH. intros m' Hm'. apply H. now right.
Qed.

Lemma in_flight_empty s d g n m :
  in_flight s d g n = [] -> In m n -> env_eqb s d g m = false.
Proof.
  intros H Hm. destruct (env_eqb s d g m) eqn:E; [|reflexivity].
  assert (In m (in_flight s d g n)) as Hin by (apply filter_In; auto).
  rewrite H in Hin. contradiction.
Qed.

(** The oldest message with a given envelope among those in flight. *)
Lemma in_flight_first s d g n m rest :
  in_flight s d g n = m :: rest ->
  exists l1 l2, n = l1 ++ m :: l2 /\
    (forall m', In m' l1 -> env_eqb s d g m' = false) /\
    in_flight s d g l2 = rest.
Proof.
  induction n as [|x n IH]; simpl; [discriminate|].
  destruct (env_eqb s d g x) eqn:E.
  - intros [= -> <-]. exists [], n. repeat split. intros m' [].
  - intros H. destruct (IH H) as (l1 & l2 & -> & Hl1 & Hl2).
    exists (x :: l1), l2. repeat split; auto.
    intros m' [<-|Hm']; auto.
Qed.

Section Fifo.

Variable cap : nat.
Variable N : nat.

Lemma fifo_step c c' : fifo_inv c -> step cap N c c' -> fifo_inv c'.
Proof.
  intros IH H s0 d0 g. specialize (IH s0 d0 g).
  destruct H as [c r a p Hr Hl Hi | c r m p Hr Hl Hc
                | c r m p l1 l2 Hr Hl Hn Hf | c s d m ps pd Hs Hd Hls Hld Hf
                | c c' x HN Hall Hout Hnet Hcell | c r p Hr Hl
                | c r v p Hr Hl | c r p Hr Hl | c r v p Hr Hl].
  - (* a local call *)
    rewrite sent_advance, received_advance.
    destruct a; simpl in Hi; try contradiction; simpl;
      destruct (Nat.eqb s0 r), (Nat.eqb d0 r); rewrite ?app_nil_r; exact IH.
  - (* a send taken by the transport *)
    change (log (with_net (advance c r (ASend m) p) (net c ++ [m])))
      with (log (advance c r (ASend m) p)).
    rewrite sent_advance, received_advance. cbn [recv_of sent_of net with_net].
    unfold in_flight. rewrite filter_app. cbn [filter].
    destruct (env_eqb (Z.of_nat s0) (Z.of_nat d0) g m) eqn:E.
    + assert (s0 = r) as ->.
      { apply env_eqb_src in E. apply lstep_send_src in Hl.
        apply Nat2Z.inj. congruence. }
      rewrite Nat.eqb_refl.
      destruct (Nat.eqb d0 r); rewrite ?app_nil_r; rewrite IH;
        unfold in_flight; now rewrite app_assoc.
    + destruct (Nat.eqb s0 r), (Nat.eqb d0 r); rewrite ?app_nil_r; exact IH.
  - (* a receive from the transport *)
    change (log (with_net (advance c r (ARecv m) p) (l1 ++ l2)))
      with (log (advance c r (ARecv m) p)).
    rewrite sent_advance, received_advance. cbn [recv_of sent_of net with_net].
    rewrite Hn in IH. unfold in_flight in *. rewrite filter_app in *.
    cbn [filter] in IH.
    destruct (env_eqb (Z.of_nat s0) (Z.of_nat d0) g m) eqn:E.
    + assert (d0 = r) as ->.
      { apply env_eqb_dst in E. apply lstep_recv_dst in Hl.
        apply Nat2Z.inj. congruence. }
      rewrite Nat.eqb_refl.
      assert (filter (env_eqb (Z.of_nat s0) (Z.of_nat r) g) l1 = []) as E1.
      { apply in_flight_none. intros m' Hm'.
        destruct (env_eqb (Z.of_nat s0) (Z.of_nat r) g m') eqn:E'; [|reflexivity].
        destruct (Hf m' Hm'). eapply env_eqb_same; eauto. }
      rewrite E1 in *. cbn [app] in *.
      destruct (Nat.eqb s0 r); rewrite ?app_nil_r; rewrite IH;
        now rewrite <- app_assoc.
    + destruct (Nat.eqb s0 r), (Nat.eqb d0 r); rewrite ?app_nil_r; exact IH.
  - (* sender and receiver meet *)
    assert (s <> d) as Hsd.
    { intros ->. eapply lstep_not_send_recv; eauto. }
    rewrite sent_advance, received_advance, sent_advance, received_advance.
    unfold sent_of at 2, recv_of at 1.
    change (net (advance (advance c s (ASend m) ps) d (ARecv m) pd))
      with (net c).
    replace (if (s0 =? d)%nat then @nil message else []) with (@nil message)
      by now destruct (s0 =? d)%nat.
    replace (if (d0 =? s)%nat then @nil message else []) with (@nil message)
      by now destruct (d0 =? s)%nat.
    rewrite !app_nil_r. cbn [sent_of recv_of].
    destruct (env_eqb (Z.of_nat s0) (Z.of_nat d0) g m) eqn:E.
    + assert (s0 = s) as ->.
      { apply env_eqb_src in E. apply lstep_send_src in Hls.
        apply Nat2Z.inj. congruence. }
      assert (d0 = d) as ->.
      { apply env_eqb_dst in E. apply lstep_recv_dst in Hld.
        apply Nat2Z.inj. congruence. }
      rewrite !Nat.eqb_refl.
      assert (in_flight (Z.of_nat s) (Z.of_nat d) g (net c) = []) as E1.
      { apply in_flight_none. intros m' Hm'.
        destruct (env_eqb (Z.of_nat s) (Z.of_nat d) g m') eqn:E'; [|reflexivity].
        destruct (Hf m' Hm'). eapply env_eqb_same; eauto. }
      rewrite E1, app_nil_r in *. now rewrite IH.
    + destruct (Nat.eqb s0 s), (Nat.eqb d0 d); rewrite ?app_nil_r; exact IH.
  - (* a collective *)
    rewrite Hnet.
    assert (forall j, sent (Z.of_nat s0) (Z.of_nat d0) g (log c' j) =
                      sent (Z.of_nat s0) (Z.of_nat d0) g (log c j)) as Es.
    { intros j. destruct (Nat.lt_ge_cases j N) as [Hlt|Hge].
      - destruct (Hall j Hlt) as [_ ->]. rewrite sent_app. simpl.
        now rewrite app_nil_r.
      - now destruct (Hout j Hge) as [_ ->]. }
    assert (forall j, received (Z.of_nat s0) (Z.of_nat d0) g (log c' j) =
                      received (Z.of_nat s0) (Z.of_nat d0) g (log c j)) as Er.
    { intros j. destruct (Nat.lt_ge_cases j N) as [Hlt|Hge].
      - destruct (Hall j Hlt) as [_ ->]. rewrite received_app. simpl.
        now rewrite app_nil_r.
      - now destruct (Hout j Hge) as [_ ->]. }
    now rewrite Es, Er.
  - rewrite sent_advance, received_advance. simpl.
    destruct (Nat.eqb s0 r), (Nat.eqb d0 r); rewrite ?app_nil_r; exact IH.
  - change (log (with_cell (advance c r (APut v) p) v))
      with (log (advance c r (APut v) p)).
    rewrite sent_advance, received_advance. simpl.
    destruct (Nat.eqb s0 r), (Nat.eqb d0 r); rewrite ?app_nil_r; exact IH.
  - rewrite sent_advance, received_advance. simpl.
    destruct (Nat.eqb s0 r), (Nat.eqb d0 r); rewrite ?app_nil_r; exact IH.
  - change (log (with_cell (advance c r (AStore v) p) v))
      with (log (advance c r (AStore v) p)).
    rewrite sent_advance, received_advance. simpl.
    destruct (Nat.eqb s0 r), (Nat.eqb d0 r); rewrite ?app_nil_r; exact IH.
Qed.

Lemma fifo_reachable main cell0 c : reachable cap N main cell0 c -> fifo_inv c.
Proof.
  induction 1 as [|c2 c3 Hc2 IH Hs].
  - intros s d g. reflexivity.
  - eapply fifo_step; eauto.
Qed.

End Fifo.


(* ================================================================= *)
(** * Prefixes, ranks and sums *)

Lemma prefix_same_length l1 l2 full :
  prefix l1 full -> prefix l2 full -> length l1 = length l2 -> l1 = l2.
Proof.
  intros [r1 ->] [r2 E] Hlen. revert l2 E Hlen.
  induction l1 as [|a l1 IH]; intros [|b l2] E Hlen; try discriminate Hlen.
  - reflexivity.
  - simpl in E. injection E as -> E. f_equal. apply IH; auto.
Qed.

Lemma prefix_shorter l full :
  prefix l full -> (length l < length full)%nat ->
  exists b rest, full = l ++ b :: rest.
Proof.
  intros [[|b rest] ->] Hlen; [|eauto].
  rewrite app_nil_r in Hlen. lia.
Qed.

Lemma prefix_longer l1 b rest l2 :
  prefix l2 (l1 ++ b :: rest) -> (length l1 < length l2)%nat ->
  exists more, l2 = l1 ++ b :: more.
Proof.
  intros [r2 E]. revert l2 E.
  induction l1 as [|a l1 IH]; intros [|c l2] E Hlen; simpl in Hlen; try lia.
  - simpl in E. injection E as -> _. now exists l2.
  - simpl in E. injection E as -> E.
    destruct (IH l2 E) as [more ->]; [lia|]. now exists more.
Qed.

Lemma prefix_full l full :
  prefix l full -> (length full <= length l)%nat -> l = full.
Proof.
  intros [[|b rest] ->] Hlen; [now rewrite app_nil_r|].
  rewrite length_app in Hlen. simpl in Hlen. lia.
Qed.

Lemma follows_send_src r p l m rest q :
  follows r p (l ++ ASend m :: rest) q -> src m = Z.of_nat r.
Proof.
  intros H. destruct (follows_split _ _ _ _ _ H) as (p1 & _ & (p2 & Hl & _)).
  eapply lstep_send_src; eauto.
Qed.

Lemma follows_recv_dst r p l m rest q :
  follows r p (l ++ ARecv m :: rest) q -> dst m = Z.of_nat r.
Proof.
  intros H. destruct (follows_split _ _ _ _ _ H) as (p1 & _ & (p2 & Hl & _)).
  eapply lstep_recv_dst; eauto.
Qed.

(** Among the ranks below [n] that satisfy [P], one with the least [f]. *)
Lemma min_rank (f : nat -> nat) (P : nat -> bool) n :
  (forall r, (r < n)%nat -> P r = false) \/
  exists r, (r < n)%nat /\ P r = true /\
    forall r', (r' < n)%nat -> P r' = true -> (f r <= f r')%nat.
Proof.
  induction n as [|n IH].
  - left. intros r Hr. lia.
  - destruct (P n) eqn:En.
    + right. destruct IH as [Hnone|(r & Hr & Hp & Hmin)].
      * exists n. repeat split; auto. intros r' Hr' Hp'.
        destruct (Nat.eq_dec r' n) as [->|Hne]; [lia|].
        rewrite Hnone in Hp' by lia. discriminate.
      * destruct (Nat.le_gt_cases (f r) (f n)) as [Hle|Hgt].
        -- exists r. repeat split; auto. intros r' Hr' Hp'.
           destruct (Nat.eq_dec r' n) as [->|Hne]; [assumption|].
           apply Hmin; [lia|assumption].
        -- exists n. repeat split; auto. intros r' Hr' Hp'.
           destruct (Nat.eq_dec r' n) as [->|Hne]; [lia|].
           specialize (Hmin r' ltac:(lia) Hp'). lia.
    + destruct IH as [Hnone|(r & Hr & Hp & Hmin)].
      * left. intros r Hr. destruct (Nat.eq_dec r n) as [->|Hne]; [assumption|].
        apply Hnone. lia.
      * right. exists r. repeat split; auto. intros r' Hr' Hp'.
        destruct (Nat.eq_dec r' n) as [->|Hne]; [congruence|].
        apply Hmin; [lia|assumption].
Qed.

(** The sum of [f] over the ranks below [n]. *)
Fixpoint total (f : nat -> nat) (n : nat) : nat :=
  match n with
  | O => O
  | S n' => (total f n' + f n')%nat
  end.

Lemma total_le f g n :
  (forall r, (r < n)%nat -> (g r <= f r)%nat) -> (total g n <= total f n)%nat.
Proof.
  induction n as [|n IH]; intros H; simpl; [lia|].
  specialize (IH ltac:(intros; apply H; lia)). specialize (H n ltac:(lia)). lia.
Qed.

Lemma total_lt f g n :
  (forall r, (r < n)%nat -> (g r <= f r)%nat) ->
  (exists r, (r < n)%nat /\ (g r < f r)%nat) -> (total g n < total f n)%nat.
Proof.
  induction n as [|n IH]; intros H (r & Hr & Hlt); [lia|]. simpl.
  destruct (Nat.eq_dec r n) as [->|Hne].
  - pose proof (total_le f g n ltac:(intros; apply H; lia)). lia.
  - specialize (IH ltac:(intros; apply H; lia)
                   ltac:(exists r; split; [lia|assumption])).
    specialize (H n ltac:(lia)). lia.
Qed.

(** Logs only grow. *)
Lemma log_grows cap N c c' j a :
  step cap N c c' -> In a (log c j) -> In a (log c' j).
Proof.
  intros Hs Ha.
  destruct (step_rank_view _ _ _ _ Hs j) as [[_ ->]|[_ [b [_ ->]]]]; auto.
  apply in_or_app. now left.
Qed.

(** Whatever is in flight has been sent by some rank. *)
Lemma in_net_sent cap N main cell0 c m :
  reachable cap N main cell0 c -> In m (net c) ->
  exists s, (s < N)%nat /\ In (ASend m) (log c s).
Proof.
  induction 1 as [|c2 c3 Hc2 IH Hs]; [simpl; contradiction|]. intros Hm.
  assert (In m (net c2) -> exists s, (s < N)%nat /\ In (ASend m) (log c3 s))
    as Hold.
  { intros H. destruct (IH H) as (s & Hlt & Hin). exists s.
    split; [assumption|]. eapply log_grows; eauto. }
  destruct (step_view_of _ _ _ _ Hs)
    as [r a Hr Hl El Ho Hsolo|s d m0 Hs' Hd Hsd Hls Hld Els Eld Ho Hn Hv
       |x HN Hall Hn Hv].
  - destruct a; simpl in Hsolo.
    + apply Hold. destruct Hsolo as [Hn _]. congruence.
    + apply Hold. destruct Hsolo as [Hn _]. congruence.
    + apply Hold. destruct Hsolo as [Hn _]. congruence.
    + destruct Hsolo as (_ & Hn & _). rewrite Hn in Hm.
      apply in_app_or in Hm as [Hm|[<-|[]]]; [auto|].
      exists r. split; [assumption|]. rewrite El. apply in_or_app. right. now left.
    + destruct Hsolo as [(l1 & l2 & Hn & Hn') _]. apply Hold.
      rewrite Hn' in Hm. rewrite Hn.
      apply in_app_or in Hm as [Hm|Hm]; apply in_or_app; simpl; auto.
    + contradiction.
    + apply Hold. destruct Hsolo as (_ & Hn & _). congruence.
    + apply Hold. destruct Hsolo as [Hn _]. congruence.
    + apply Hold. destruct Hsolo as (_ & Hn & _). congruence.
    + apply Hold. destruct Hsolo as [Hn _]. congruence.
  - apply Hold. congruence.
  - apply Hold. congruence.
Qed.

(** The last message with a given envelope that a list of actions sends. *)
Lemma sent_last s d g l :
  sent s d g l <> [] ->
  exists l0 m rest, l = l0 ++ ASend m :: rest /\ env_eqb s d g m = true /\
    sent s d g rest = [].
Proof.
  induction l as [|a l IH] using rev_ind; intros H; [now destruct H|].
  rewrite sent_app in H. destruct (sent_of s d g a) as [|m0 ?] eqn:Ea.
  - destruct IH as (l0 & m & rest & -> & Hm & Hrest).
    { intros E. apply H. rewrite E. simpl. now rewrite Ea. }
    exists l0, m, (rest ++ [a]). rewrite <- app_assoc. repeat split; auto.
    rewrite sent_app, Hrest. simpl. now rewrite Ea.
  - destruct a as [| | |m| | | | | |]; simpl in Ea; try discriminate Ea.
    destruct (env_eqb s d g m) eqn:Em; [|discriminate Ea].
    exists l, m, []. repeat split; auto.
Qed.

(* ================================================================= *)
(** * Completing a run step by step *)

(** What is left to do: the entries of the traces [T] that the ranks have
    not performed yet. *)
Definition remaining (N : nat) (T : nat -> list act) (c : config) : nat :=
  total (fun r => length (T r) - length (log c r))%nat N.

Lemma grown N T c c' r :
  (forall j, (j < N)%nat ->
     log c' j = log c j \/
     exists a, log c' j = log c j ++ [a] /\ prefix (log c j ++ [a]) (T j)) ->
  (forall j, (j < N)%nat -> prefix (log c j) (T j)) ->
  (r < N)%nat -> (exists a, log c' r = log c r ++ [a]) ->
  (forall j, (j < N)%nat -> prefix (log c' j) (T j)) /\
  (remaining N T c' < remaining N T c)%nat.
Proof.
  intros Hlog Hp Hr [a Ea].
  assert (forall j, (j < N)%nat -> prefix (log c' j) (T j)) as Hp'.
  { intros j Hj. destruct (Hlog j Hj) as [->|(b & -> & H)]; auto. }
  split; [exact Hp'|]. apply total_lt.
  - intros j Hj. destruct (Hlog j Hj) as [->|(b & -> & H)]; [lia|].
    rewrite length_app. simpl. lia.
  - exists r. split; [assumption|].
    pose proof (prefix_length _ _ (Hp' r Hr)) as Hlen.
    rewrite Ea, length_app in *. simpl in *. lia.
Qed.

Section Progress.

Variable cap : nat.
Variable N : nat.
Variable main : Z -> Z -> prog Z.
Variable cell0 : Z.
Variable T : nat -> list act.
Variable fin : nat -> prog Z.

Hypothesis T_follows :
  forall r, (r < N)%nat -> follows r (main (Z.of_nat r) (Z.of_nat N)) (T r) (fin r).

(** As long as some rank has not finished, some step along the traces is
    possible. *)
Hypothesis progress :
  forall c, reachable cap N main cell0 c ->
    (forall r, (r < N)%nat -> prefix (log c r) (T r)) ->
    (forall r, (r < N)%nat -> log c r = T r) \/
    exists c', step cap N c c' /\
      (forall r, (r < N)%nat -> prefix (log c' r) (T r)) /\
      (remaining N T c' < remaining N T c)%nat.

(** Then the run can be completed from wherever it is. *)
Theorem progress_completes c :
  reachable cap N main cell0 c ->
  (forall r, (r < N)%nat -> prefix (log c r) (T r)) ->
  exists c', steps cap N c c' /\
    forall r, (r < N)%nat -> log c' r = T r /\ code c' r = fin r.
Proof.
  remember (remaining N T c) as k eqn:Ek. revert c Ek.
  induction k as [k IH] using lt_wf_ind. intros c Ek Hc Hp.
  destruct (progress c Hc Hp) as [Hdone|(c' & Hs & Hp' & Hlt)].
  - exists c. split; [apply steps_refl|]. intros r Hr.
    split; [auto|].
    apply (trace_done cap N main cell0 T fin T_follows c r); auto.
  - destruct (IH (remaining N T c') ltac:(lia) c' eq_refl) as (c2 & Hs2 & Hfull);
      auto.
    + eapply reachable_step; eauto.
    + exists c2. split; [|assumption].
      eapply steps_trans; [apply steps_one; exact Hs|exact Hs2].
Qed.

End Progress.

(* ================================================================= *)
(** * Programs that are safe without buffering never get stuck *)

(** A program is safe here when its sends and receives can be paired off
    along a common time line: it would complete even if every send waited
    for its receive.  Such a program completes under every schedule and
    every capacity of the transport. *)
Section SafePrograms.

Variable cap : nat.
Variable N : nat.
Variable main : Z -> Z -> prog Z.
Variable cell0 : Z.

(** The trace of every rank, and a time stamp for each of its entries. *)
Variable T : nat -> list act.
Variable fin : nat -> prog Z.
Variable ts : nat -> nat -> nat.

Hypothesis T_follows :
  forall r, (r < N)%nat -> follows r (main (Z.of_nat r) (Z.of_nat N)) (T r) (fin r).

(** Ranks call and exchange messages, nothing else. *)
Hypothesis T_kinds :
  forall r a, (r < N)%nat -> In a (T r) ->
    internal a \/ (exists m, a = ASend m) \/ (exists m, a = ARecv m).

(** Time goes forward along each trace. *)
Hypothesis ts_mono :
  forall r i j, (r < N)%nat -> (i < j < length (T r))%nat -> (ts r i < ts r j)%nat.

(** Every send is paired with a receive that bears the same time stamp,
    in the trace of the rank it is addressed to; before the two, as many
    messages with this envelope are received as are sent.  And the other
    way round. *)
Hypothesis send_matched :
  forall s l m rest, (s < N)%nat -> T s = l ++ ASend m :: rest ->
    exists d l' rest', (d < N)%nat /\ T d = l' ++ ARecv m :: rest' /\
      ts d (length l') = ts s (length l) /\
      received (src m) (dst m) (tag m) l' = sent (src m) (dst m) (tag m) l.

Hypothesis recv_matched :
  forall d l' m rest', (d < N)%nat -> T d = l' ++ ARecv m :: rest' ->
    exists s l rest, (s < N)%nat /\ T s = l ++ ASend m :: rest /\
      ts s (length l) = ts d (length l') /\
      sent (src m) (dst m) (tag m) l = received (src m) (dst m) (tag m) l'.

Local Abbreviation reach := (reachable cap N main cell0).

(** As long as some rank has not finished, some rank can move: the one
    whose next entry bears the least time stamp. *)
Lemma safe_progress c :
  reach c -> (forall r, (r < N)%nat -> prefix (log c r) (T r)) ->
  (forall r, (r < N)%nat -> log c r = T r) \/
  exists c', step cap N c c' /\
    (forall r, (r < N)%nat -> prefix (log c' r) (T r)) /\
    (remaining N T c' < remaining N T c)%nat.
Proof.
  intros Hc Hp.
  pose proof (fifo_reachable cap N main cell0 c Hc) as Hfifo.
  destruct (min_rank (fun r => ts r (length (log c r)))
              (fun r => (length (log c r) <? length (T r))%nat) N)
    as [Hdone|(r & Hr & Hopen & Hmin)].
  - left. intros r Hr. specialize (Hdone r Hr). apply Nat.ltb_ge in Hdone.
    apply prefix_full; auto.
  - right. apply Nat.ltb_lt in Hopen.
    destruct (prefix_shorter _ _ (Hp r Hr) Hopen) as (b & rest & E).
    assert (forall j, (j < N)%nat ->
              (length (log c j) < length (T j))%nat ->
              (ts r (length (log c r)) <= ts j (length (log c j)))%nat) as Hleast.
    { intros j Hj Hlt. apply Hmin; [assumption|]. now apply Nat.ltb_lt. }
    destruct (T_kinds r b Hr) as [Hi|[[m ->]|[m ->]]];
      [rewrite E; apply in_middle| | |].
    + (* a call *)
      destruct (trace_internal_step cap N main cell0 T fin T_follows
                  c r b rest Hc Hr E Hi) as (c' & Hs & Hl & Ho & _).
      exists c'. split; [assumption|].
      apply (grown N T c c' r); auto; [|eauto].
      intros j Hj. destruct (Nat.eq_dec j r) as [->|Hne].
      * right. exists b. split; [assumption|]. eapply prefix_snoc; eauto.
      * left. now apply Ho.
    + (* a send *)
      destruct (send_matched r (log c r) m rest Hr E)
        as (d & l' & rest' & Hd & Ed & Ets & Em).
      assert (src m = Z.of_nat r) as Hsrc.
      { pose proof (T_follows r Hr) as Hf. rewrite E in Hf.
        eapply follows_send_src; eauto. }
      assert (dst m = Z.of_nat d) as Hdst.
      { pose proof (T_follows d Hd) as Hf. rewrite Ed in Hf.
        eapply follows_recv_dst; eauto. }
      specialize (Hfifo r d (tag m)). rewrite <- Hsrc, <- Hdst in Hfifo.
      assert (prefix (log c d) (l' ++ ARecv m :: rest')) as Hpd
        by (rewrite <- Ed; auto).
      destruct (lt_eq_lt_dec (length (log c d)) (length l')) as [[Hlt|Heq]|Hgt].
      * exfalso.
        assert (length l' < length (T d))%nat as Hl'
          by (rewrite Ed, length_app; simpl; lia).
        specialize (Hleast d Hd ltac:(lia)).
        pose proof (ts_mono d (length (log c d)) (length l') Hd ltac:(lia)).
        lia.
      * assert (log c d = l') as El.
        { apply (prefix_same_length _ _ (T d)); auto.
          rewrite Ed. now exists (ARecv m :: rest'). }
        subst l'.
        assert (in_flight (src m) (dst m) (tag m) (net c) = []) as Hnone.
        { apply (app_inv_head (sent (src m) (dst m) (tag m) (log c r))).
          rewrite app_nil_r. rewrite <- Em at 1. now rewrite <- Hfifo. }
        destruct (trace_rendezvous_step cap N main cell0 T fin T_follows
                    c r d m rest rest' Hc Hr Hd E Ed)
          as (c' & Hs & Hrd & Hls & Hld & Ho & _).
        { intros m' Hm' Hse. apply same_envelope_eqb in Hse.
          rewrite (in_flight_empty _ _ _ _ _ Hnone Hm') in Hse. discriminate. }
        exists c'. split; [assumption|].
        apply (grown N T c c' r); auto; [|eauto].
        intros j Hj. destruct (Nat.eq_dec j r) as [->|Hne].
        -- right. exists (ASend m). split; [assumption|].
           eapply prefix_snoc; eauto.
        -- destruct (Nat.eq_dec j d) as [->|Hne'].
           ++ right. exists (ARecv m). split; [assumption|].
              eapply prefix_snoc; eauto.
           ++ left. now apply Ho.
      * exfalso. destruct (prefix_longer _ _ _ _ Hpd Hgt) as [more El].
        rewrite El, received_app in Hfifo. cbn [received flat_map recv_of] in Hfifo.
        rewrite env_eqb_self in Hfifo. rewrite Em in Hfifo.
        apply (f_equal (@length message)) in Hfifo.
        rewrite !length_app in Hfifo. simpl in Hfifo. lia.
    + (* a receive *)
      destruct (recv_matched r (log c r) m rest Hr E)
        as (s & l & rests & Hs & Es & Ets & Em).
      assert (src m = Z.of_nat s) as Hsrc.
      { pose proof (T_follows s Hs) as Hf. rewrite Es in Hf.
        eapply follows_send_src; eauto. }
      assert (dst m = Z.of_nat r) as Hdst.
      { pose proof (T_follows r Hr) as Hf. rewrite E in Hf.
        eapply follows_recv_dst; eauto. }
      specialize (Hfifo s r (tag m)). rewrite <- Hsrc, <- Hdst in Hfifo.
      assert (prefix (log c s) (l ++ ASend m :: rests)) as Hps
        by (rewrite <- Es; auto).
      destruct (lt_eq_lt_dec (length (log c s)) (length l)) as [[Hlt|Heq]|Hgt].
      * exfalso.
        assert (length l < length (T s))%nat as Hl'
          by (rewrite Es, length_app; simpl; lia).
        specialize (Hleast s Hs ltac:(lia)).
        pose proof (ts_mono s (length (log c s)) (length l) Hs ltac:(lia)).
        lia.
      * assert (log c s = l) as El.
        { apply (prefix_same_length _ _ (T s)); auto.
          rewrite Es. now exists (ASend m :: rests). }
        subst l.
        assert (in_flight (src m) (dst m) (tag m) (net c) = []) as Hnone.
        { apply (app_inv_head (sent (src m) (dst m) (tag m) (log c s))).
          rewrite app_nil_r. rewrite Em at 1. now rewrite <- Hfifo. }
        destruct (trace_rendezvous_step cap N main cell0 T fin T_follows
                    c s r m rests rest Hc Hs Hr Es E)
          as (c' & Hst & Hrd & Hls & Hld & Ho & _).
        { intros m' Hm' Hse. apply same_envelope_eqb in Hse.
          rewrite (in_flight_empty _ _ _ _ _ Hnone Hm') in Hse. discriminate. }
        exists c'. split; [assumption|].
        apply (grown N T c c' r); auto; [|eauto].
        intros j Hj. destruct (Nat.eq_dec j r) as [->|Hne].
        -- right. exists (ARecv m). split; [assumption|].
           eapply prefix_snoc; eauto.
        -- destruct (Nat.eq_dec j s) as [->|Hne'].
           ++ right. exists (ASend m). split; [assumption|].
              eapply prefix_snoc; eauto.
           ++ left. now apply Ho.
      * destruct (prefix_longer _ _ _ _ Hps Hgt) as [more El].
        rewrite El, sent_app in Hfifo. cbn [sent flat_map sent_of] in Hfifo.
        rewrite env_eqb_self, Em in Hfifo. cbn [app] in Hfifo.
        apply app_inv_head in Hfifo. symmetry in Hfifo.
        destruct (in_flight_first _ _ _ _ _ _ Hfifo) as (l1 & l2 & En & Hl1 & _).
        destruct (trace_deliver_step cap N main cell0 T fin T_follows
                    c r m rest l1 l2 Hc Hr E En)
          as (c' & Hst & Hl & Ho & _).
        { intros m' Hm' Hse. apply same_envelope_eqb in Hse.
          rewrite (Hl1 m' Hm') in Hse. discriminate. }
        exists c'. split; [assumption|].
        apply (grown N T c c' r); auto; [|eauto].
        intros j Hj. destruct (Nat.eq_dec j r) as [->|Hne].
        -- right. exists (ARecv m). split; [assumption|].
           eapply prefix_snoc; eauto.
        -- left. now apply Ho.
Qed.

(** From every configuration along the traces the run can be completed,
    whatever the capacity of the transport. *)
Theorem safe_completes c :
  reach c -> (forall r, (r < N)%nat -> prefix (log c r) (T r)) ->
  exists c', steps cap N c c' /\
    forall r, (r < N)%nat -> log c' r = T r /\ code c' r = fin r.
Proof.
  apply (progress_completes cap N main cell0 T fin T_follows).
  intros c0 Hc0 Hp0. apply safe_progress; assumption.
Qed.

(** When every rank has performed its trace nothing is left in
    flight. *)
Theorem safe_final_net c :
  reach c -> (forall r, (r < N)%nat -> log c r = T r) -> net c = [].
Proof.
  intros Hc Hfull. destruct (net c) as [|m n] eqn:En; [reflexivity|]. exfalso.
  destruct (in_net_sent cap N main cell0 c m Hc) as (s & Hs & Hin);
    [rewrite En; now left|].
  rewrite (Hfull s Hs) in Hin. apply in_split in Hin as (l1 & r1 & E1).
  assert (src m = Z.of_nat s) as Hsrc.
  { pose proof (T_follows s Hs) as Hf. rewrite E1 in Hf.
    eapply follows_send_src; eauto. }
  destruct (send_matched s l1 m r1 Hs E1) as (d' & l1' & r1' & Hd' & Ed' & _ & _).
  assert (dst m = Z.of_nat d') as Hdst.
  { pose proof (T_follows d' Hd') as Hf. rewrite Ed' in Hf.
    eapply follows_recv_dst; eauto. }
  pose proof (fifo_reachable cap N main cell0 c Hc s d' (tag m)) as Hfifo.
  rewrite <- Hsrc, <- Hdst, (Hfull s Hs), (Hfull d' Hd'), En in Hfifo.
  destruct (sent_last (src m) (dst m) (tag m) (T s))
    as (l0 & m0 & rest & E0 & Hm0 & Hrest).
  { rewrite E1, sent_app. cbn [sent flat_map sent_of].
    rewrite env_eqb_self. intros E. apply app_eq_nil in E as [_ E].
    discriminate E. }
  destruct (send_matched s l0 m0 rest Hs E0)
    as (d0 & l0' & rest0' & Hd0 & Ed0 & _ & Em0).
  assert (src m0 = src m /\ dst m0 = dst m /\ tag m0 = tag m) as (Es0 & Ed00 & Eg0).
  { unfold env_eqb in Hm0. apply andb_prop in Hm0 as [Hm0 Hg].
    apply andb_prop in Hm0 as [Hs0 Hd00].
    apply Z.eqb_eq in Hg, Hs0, Hd00. auto. }
  assert (d0 = d') as ->.
  { pose proof (T_follows d0 Hd0) as Hf. rewrite Ed0 in Hf.
    apply follows_recv_dst in Hf. apply Nat2Z.inj. congruence. }
  rewrite Es0, Ed00, Eg0 in Em0.
  rewrite E0 in Hfifo at 1. rewrite Ed0 in Hfifo.
  rewrite sent_app, received_app in Hfifo.
  cbn [sent received flat_map sent_of recv_of] in Hfifo.
  rewrite Hm0 in Hfifo. fold (sent (src m) (dst m) (tag m) rest) in Hfifo.
  rewrite Hrest, Em0 in Hfifo.
  apply (f_equal (@length message)) in Hfifo.
  cbn [in_flight filter] in Hfifo. rewrite env_eqb_self in Hfifo.
  rewrite !length_app in Hfifo. cbn [length app] in Hfifo.
  rewrite ?length_app in Hfifo. cbn [length] in Hfifo. lia.
Qed.

End SafePrograms.


(* ================================================================= *)
(** * The ring never gets stuck *)

(** A time stamp for every entry of a ring trace: the message of rank [s]
    is passed on at time [s + 1]. *)
Definition ring_stamp (N r i : nat) : nat :=
  match i with
  | O => O
  | S _ => match r with
           | O => if Nat.eqb i 1 then 1 else N + i - 2
           | S _ => r + i - 1
           end
  end.

Lemma ring_trace_length N r : length (ring_trace N r) = 5%nat.
Proof. destruct r; reflexivity. Qed.

Lemma ring_stamp_mono N r i j :
  (2 <= N)%nat -> (i < j < 5)%nat -> (ring_stamp N r i < ring_stamp N r j)%nat.
Proof.
  intros HN Hij. unfold ring_stamp.
  destruct r as [|r];
    destruct i as [|[|[|[|[|i]]]]]; try lia;
    destruct j as [|[|[|[|[|j]]]]]; try lia; cbn [Nat.eqb]; lia.
Qed.

Lemma ring_kinds N r a :
  (r < N)%nat -> Z.of_nat N <= CInt.INT_MAX -> In a (ring_trace N r) ->
  internal a \/ (exists m, a = ASend m) \/ (exists m, a = ARecv m).
Proof.
  intros Hr HN Ha.
  destruct (ring_trace_messages N r a Hr HN Ha) as [[x ->]|[->| ->]]; eauto.
  left. exact I.
Qed.

(** Where in a list of at most five entries a given entry sits. *)
Ltac at_position E l :=
  destruct l as [|? [|? [|? [|? [|? [|? l]]]]]]; cbn [app] in E;
  try discriminate E.

Lemma ring_send_matched N s l m rest :
  (2 <= N)%nat -> Z.of_nat N <= CInt.INT_MAX -> (s < N)%nat ->
  ring_trace N s = l ++ ASend m :: rest ->
  exists d l' rest', (d < N)%nat /\ ring_trace N d = l' ++ ARecv m :: rest' /\
    ring_stamp N d (length l') = ring_stamp N s (length l) /\
    received (src m) (dst m) (tag m) l' = sent (src m) (dst m) (tag m) l.
Proof.
  intros H2 HN Hs E. destruct s as [|s].
  - rewrite ring_trace_first in E by lia. at_position E l.
    injection E as <- <- <-.
    exists 1%nat, [ACall CInit]. eexists. split; [lia|].
    split; [rewrite ring_trace_next by lia; reflexivity|].
    split; reflexivity.
  - rewrite ring_trace_next in E by lia. at_position E l.
    injection E as <- <- <- <-.
    destruct (Nat.eq_dec (S (S s)) N) as [EN|Hne].
    + exists O, [ACall CInit; ASend (ring_msg N 0)]. eexists. split; [lia|].
      split; [rewrite ring_trace_first by lia|split; [|reflexivity]].
      * replace (N - 1)%nat with (S s) by lia. reflexivity.
      * cbn [ring_stamp length Nat.eqb]. lia.
    + exists (S (S s)), [ACall CInit]. eexists. split; [lia|].
      split; [rewrite ring_trace_next by lia; reflexivity|].
      split; [|reflexivity]. cbn [ring_stamp length]. lia.
Qed.

Lemma ring_recv_matched N d l' m rest' :
  (2 <= N)%nat -> Z.of_nat N <= CInt.INT_MAX -> (d < N)%nat ->
  ring_trace N d = l' ++ ARecv m :: rest' ->
  exists s l rest, (s < N)%nat /\ ring_trace N s = l ++ ASend m :: rest /\
    ring_stamp N s (length l) = ring_stamp N d (length l') /\
    sent (src m) (dst m) (tag m) l = received (src m) (dst m) (tag m) l'.
Proof.
  intros H2 HN Hd E. destruct d as [|d].
  - rewrite ring_trace_first in E by lia. at_position E l'.
    injection E as <- <- <- <-.
    pose (n := (N - 2)%nat). assert (N - 1 = S n)%nat as EN by (unfold n; lia).
    assert (S n < N)%nat as Hn by (unfold n; lia). clearbody n.
    exists (S n), [ACall CInit; ARecv (ring_msg N n)]. eexists. split; [lia|].
    split; [rewrite ring_trace_next, EN by lia; reflexivity|].
    split; [|reflexivity]. cbn [ring_stamp length Nat.eqb]. lia.
  - rewrite ring_trace_next in E by lia. at_position E l'.
    injection E as <- <- <-.
    destruct d as [|d].
    + exists O, [ACall CInit]. eexists. split; [lia|].
      split; [rewrite ring_trace_first by lia; reflexivity|].
      split; reflexivity.
    + exists (S d), [ACall CInit; ARecv (ring_msg N d)]. eexists. split; [lia|].
      split; [rewrite ring_trace_next by lia; reflexivity|].
      split; [|reflexivity]. cbn [ring_stamp length]. lia.
Qed.

(** In a ring of two or more ranks no schedule and no amount of buffering
    leads to a deadlock: from every configuration a run can reach, the run
    can be continued until every rank has returned 0 and no message is
    left in flight; a configuration from which no rank can move is one in
    which all ranks have returned. *)
Theorem ring_never_deadlocks (cap N : nat) (cell0 : Z) :
  (2 <= N)%nat -> Z.of_nat N <= CInt.INT_MAX ->
  forall c, reachable cap N ring_main cell0 c ->
    (exists c', steps cap N c c' /\ all_exited N c' 0 /\ net c' = []) /\
    (stuck cap N c -> all_exited N c 0).
Proof.
  intros H2 HN c Hc.
  assert (forall r i j, (r < N)%nat -> (i < j < length (ring_trace N r))%nat ->
            (ring_stamp N r i < ring_stamp N r j)%nat) as Hmono.
  { intros r i j _ Hij. rewrite ring_trace_length in Hij.
    now apply ring_stamp_mono. }
  pose proof (fun r a (Hr : (r < N)%nat) => ring_kinds N r a Hr HN) as Hkinds.
  pose proof (fun s l m rest (Hs : (s < N)%nat) =>
                ring_send_matched N s l m rest H2 HN Hs) as Hsend.
  pose proof (fun d l m rest (Hd : (d < N)%nat) =>
                ring_recv_matched N d l m rest H2 HN Hd) as Hrecv.
  assert (exists c', steps cap N c c' /\ all_exited N c' 0 /\ net c' = [])
    as Hrun.
  { destruct (safe_completes cap N ring_main cell0 (ring_trace N)
                (fun _ => Ret 0) (ring_stamp N) (ring_follows_all N)
                Hkinds Hmono Hsend Hrecv c Hc) as (c' & Hs & Hfull).
    - apply (ring_prefix cap N cell0); auto; lia.
    - exists c'. split; [assumption|]. split.
      + intros r Hr. now apply Hfull.
      + apply (safe_final_net cap N ring_main cell0 (ring_trace N)
                 (fun _ => Ret 0) (ring_stamp N) (ring_follows_all N) Hsend).
        * eapply reachable_steps; eauto.
        * intros r Hr. now apply Hfull. }
  split; [exact Hrun|]. intros Hst.
  destruct (completable_not_stuck cap N c
              (fun c0 => all_exited N c0 0 /\ net c0 = []) Hrun Hst) as [H _].
  exact H.
Qed.

Lemma ring_never_deadlocks_witness :
  (2 <= 3)%nat /\ Z.of_nat 3 <= CInt.INT_MAX /\
  exists c', steps 1 3 (init 3 ring_main 0) c' /\ all_exited 3 c' 0 /\
             net c' = [].
Proof.
  assert (2 <= 3)%nat as H2 by lia.
  assert (Z.of_nat 3 <= CInt.INT_MAX) as H3 by (unfold CInt.INT_MAX; simpl; lia).
  destruct (ring_never_deadlocks 1 3 0 H2 H3 _ (reachable_init 1 3 ring_main 0))
    as [Hrun _].
  repeat split; auto.
Defined.


(* ================================================================= *)
(** * The ping-pong never gets stuck *)

(** Where an entry of a concatenation sits. *)
Lemma app_split_mid {X} (A B l : list X) b rest :
  A ++ B = l ++ b :: rest ->
  (exists rest0, A = l ++ b :: rest0 /\ rest = rest0 ++ B) \/
  (exists l1, l = A ++ l1 /\ B = l1 ++ b :: rest).
Proof.
  revert l. induction A as [|a A IH]; intros l E.
  - right. now exists l.
  - destruct l as [|y l]; simpl in E.
    + injection E as -> <-. left. now exists A.
    + injection E as -> E. destruct (IH l E) as [(r0 & -> & ->)|(l1 & -> & ->)].
      * left. now exists r0.
      * right. now exists l1.
Qed.

(** Where an entry of [n] repetitions of a block sits. *)
Lemma concat_repeat_split {X} (R : list X) n l b rest :
  concat (repeat R n) = l ++ b :: rest ->
  exists k j l0 rest0, n = (k + S j)%nat /\ R = l0 ++ b :: rest0 /\
    l = concat (repeat R k) ++ l0 /\ rest = rest0 ++ concat (repeat R j).
Proof.
  revert l. induction n as [|n IH]; intros l E; simpl in E.
  - destruct l; discriminate E.
  - destruct (app_split_mid _ _ _ _ _ E) as [(r0 & ER & ->)|(l1 & -> & E')].
    + exists O, n, l, r0. repeat split; auto.
    + destruct (IH l1 E') as (k & j & l0 & r0 & -> & ER & -> & ->).
      exists (S k), j, l0, r0. repeat split; auto.
      simpl. now rewrite app_assoc.
Qed.

(** One function that answers for every rank, from an answer for each. *)
Lemma rank_choice {X} (P : nat -> X -> Prop) (x0 : X) n :
  (forall r, (r < n)%nat -> exists x, P r x) ->
  exists f, forall r, (r < n)%nat -> P r (f r).
Proof.
  induction n as [|n IH]; intros H.
  - exists (fun _ => x0). intros r Hr. lia.
  - destruct IH as [f Hf]; [intros r Hr; apply H; lia|].
    destruct (H n ltac:(lia)) as [x Hx].
    exists (fun r => if Nat.eqb r n then x else f r). intros r Hr.
    destruct (Nat.eqb_spec r n) as [->|Hne]; [assumption|].
    apply Hf. lia.
Qed.

Lemma sent_concat_repeat s d g (R : list act) n :
  sent s d g (concat (repeat R n)) = concat (repeat (sent s d g R) n).
Proof.
  induction n as [|n IH]; simpl; [reflexivity|]. now rewrite sent_app, IH.
Qed.

Lemma received_concat_repeat s d g (R : list act) n :
  received s d g (concat (repeat R n)) = concat (repeat (received s d g R) n).
Proof.
  induction n as [|n IH]; simpl; [reflexivity|]. now rewrite received_app, IH.
Qed.

Lemma pp_rounds_length sz r k :
  (r < 2)%nat -> length (pp_rounds sz r k) = (2 * k)%nat.
Proof.
  intros Hr. unfold pp_rounds. induction k as [|k IH]; [reflexivity|].
  cbn [repeat concat]. rewrite length_app, IH.
  destruct r as [|[|r]]; simpl; lia.
Qed.

(** Where a send or a receive sits in a ping-pong trace: in some round. *)
Lemma pp_round_position sz th r l b rest :
  pp_trace sz th r = l ++ b :: rest ->
  (exists m, b = ASend m) \/ (exists m, b = ARecv m) ->
  exists k j l0 rest0, Z.to_nat iters = (k + S j)%nat /\
    pp_round sz r = l0 ++ b :: rest0 /\
    l = pp_pre sz th ++ pp_rounds sz r k ++ l0 /\
    rest = rest0 ++ pp_rounds sz r j ++ AWtime (pp_t1 th) :: pp_post sz th r.
Proof.
  intros E Hb. unfold pp_trace in E.
  destruct (app_split_mid _ _ _ _ _ E) as [(r0 & E0 & _)|(l1 & -> & E1)].
  { exfalso. assert (In b (pp_pre sz th)) as Hin by (rewrite E0; apply in_middle).
    simpl in Hin. destruct Hb as [[m ->]|[m ->]];
      repeat (destruct Hin as [Hin|Hin]; try discriminate Hin); contradiction. }
  destruct (app_split_mid _ _ _ _ _ E1) as [(r0 & E0 & ->)|(l2 & _ & E2)].
  - unfold pp_rounds in E0.
    destruct (concat_repeat_split _ _ _ _ _ E0)
      as (k & j & l0 & rest0 & En & ER & -> & ->).
    exists k, j, l0, rest0. repeat split; auto.
    now rewrite <- app_assoc.
  - exfalso.
    assert (In b (AWtime (pp_t1 th) :: pp_post sz th r)) as Hin
      by (rewrite E2; apply in_middle).
    destruct Hin as [<-|Hin].
    + destruct Hb as [[m [=]]|[m [=]]].
    + destruct (pp_post_calls _ _ _ _ Hin) as [x ->].
      destruct Hb as [[m [=]]|[m [=]]].
Qed.

(** The trace of a rank, split at the start of a round. *)
Lemma pp_trace_at_round sz th r k j :
  Z.to_nat iters = (k + S j)%nat ->
  pp_trace sz th r =
    (pp_pre sz th ++ pp_rounds sz r k) ++ pp_round sz r ++
    pp_rounds sz r j ++ AWtime (pp_t1 th) :: pp_post sz th r.
Proof.
  intros En. unfold pp_trace. rewrite En, pp_rounds_split.
  now rewrite <- !app_assoc.
Qed.

Section PingPongSafe.

Variable N : nat.
Variable sz : Z.

(** The answers of the environment to each rank. *)
Variable th : nat -> pp_env.

Let T (r : nat) : list act := pp_trace sz (th r) r.

Lemma pp_send_matched s l m rest :
  (2 <= N)%nat -> (s < N)%nat -> T s = l ++ ASend m :: rest ->
  exists d l' rest', (d < N)%nat /\ T d = l' ++ ARecv m :: rest' /\
    length l' = length l /\
    received (src m) (dst m) (tag m) l' = sent (src m) (dst m) (tag m) l.
Proof.
  intros HN Hs E. unfold T in *.
  destruct (pp_round_position _ _ _ _ _ _ E) as (k & j & l0 & r0 & En & ER & -> & ->);
    [eauto|].
  destruct s as [|[|s]]; cbn [pp_round] in ER.
  - at_position ER l0. injection ER as <- <-.
    exists 1%nat, (pp_pre sz (th 1%nat) ++ pp_rounds sz 1 k). eexists.
    split; [lia|]. split; [rewrite (pp_trace_at_round _ _ _ k j En); reflexivity|].
    split.
    + rewrite !length_app, !pp_rounds_length by lia. cbn [pp_pre length]. lia.
    + rewrite app_nil_r, !sent_app, !received_app.
      unfold pp_rounds. rewrite sent_concat_repeat, received_concat_repeat.
      reflexivity.
  - at_position ER l0. injection ER as <- <- <-.
    exists O, (pp_pre sz (th O) ++ pp_rounds sz 0 k ++ [ASend (pp_msg sz 0 1)]).
    eexists. split; [lia|].
    split; [rewrite (pp_trace_at_round _ _ _ k j En), <- !app_assoc; reflexivity|].
    split.
    + rewrite !length_app, !pp_rounds_length by lia. cbn [pp_pre length]. lia.
    + rewrite !sent_app, !received_app.
      unfold pp_rounds. rewrite sent_concat_repeat, received_concat_repeat.
      reflexivity.
  - destruct l0; discriminate ER.
Qed.

Lemma pp_recv_matched d l' m rest' :
  (2 <= N)%nat -> (d < N)%nat -> T d = l' ++ ARecv m :: rest' ->
  exists s l rest, (s < N)%nat /\ T s = l ++ ASend m :: rest /\
    length l = length l' /\
    sent (src m) (dst m) (tag m) l = received (src m) (dst m) (tag m) l'.
Proof.
  intros HN Hd E. unfold T in *.
  destruct (pp_round_position _ _ _ _ _ _ E) as (k & j & l0 & r0 & En & ER & -> & ->);
    [eauto|].
  destruct d as [|[|d]]; cbn [pp_round] in ER.
  - at_position ER l0. injection ER as <- <- <-.
    exists 1%nat, (pp_pre sz (th 1%nat) ++ pp_rounds sz 1 k ++ [ARecv (pp_msg sz 0 1)]).
    eexists. split; [lia|].
    split; [rewrite (pp_trace_at_round _ _ _ k j En), <- !app_assoc; reflexivity|].
    split.
    + rewrite !length_app, !pp_rounds_length by lia. cbn [pp_pre length]. lia.
    + rewrite !sent_app, !received_app.
      unfold pp_rounds. rewrite sent_concat_repeat, received_concat_repeat.
      reflexivity.
  - at_position ER l0. injection ER as <- <-.
    exists O, (pp_pre sz (th O) ++ pp_rounds sz 0 k). eexists.
    split; [lia|]. split; [rewrite (pp_trace_at_round _ _ _ k j En); reflexivity|].
    split.
    + rewrite !length_app, !pp_rounds_length by lia. cbn [pp_pre length]. lia.
    + rewrite app_nil_r, !sent_app, !received_app.
      unfold pp_rounds. rewrite sent_concat_repeat, received_concat_repeat.
      reflexivity.
  - destruct l0; discriminate ER.
Qed.

Lemma pp_kinds r a :
  In a (T r) ->
  internal a \/ (exists m, a = ASend m) \/ (exists m, a = ARecv m).
Proof.
  intros Ha. destruct (pp_trace_kinds _ _ _ _ Ha)
    as [[x ->]|[Hb|[Hb|[(m & -> & _)|(m & -> & _)]]]]; eauto.
  - left. exact I.
  - left. destruct a; simpl in Hb; try contradiction. exact I.
  - left. destruct a; simpl in Hb; try contradiction. exact I.
Qed.

End PingPongSafe.

(** Among two or more ranks the ping-pong cannot deadlock, whatever the
    schedule and the buffering: from every configuration a run can reach,
    the run can be continued until every rank has returned 0 and no
    message is left in flight; a configuration from which no rank can move
    is one in which all ranks have returned. *)
Theorem pingpong_never_deadlocks (cap N : nat) (MSG_SIZE cell0 : Z) :
  0 <= MSG_SIZE -> (2 <= N)%nat ->
  forall c, reachable cap N (pingpong_main MSG_SIZE) cell0 c ->
    (exists c', steps cap N c c' /\ all_exited N c' 0 /\ net c' = []) /\
    (stuck cap N c -> all_exited N c 0).
Proof.
  intros Hsz HN c Hc.
  destruct (pp_invariant cap N MSG_SIZE cell0 c Hsz HN Hc) as [Hp _].
  destruct (rank_choice
              (fun r x => pp_valid MSG_SIZE x /\
                          prefix (log c r) (pp_trace MSG_SIZE x r))
              (PPEnv (zeros MSG_SIZE) 0%float 0%float) N Hp) as [th Hth].
  pose (T := fun r => pp_trace MSG_SIZE (th r) r).
  assert (forall r, (r < N)%nat ->
            follows r (pingpong_main MSG_SIZE (Z.of_nat r) (Z.of_nat N)) (T r)
              (Ret 0)) as Hfol.
  { intros r Hr. apply pp_follows; auto. now apply Hth. }
  pose proof (fun r a (_ : (r < N)%nat) => pp_kinds MSG_SIZE th r a) as Hkinds.
  assert (forall r i j, (r < N)%nat -> (i < j < length (T r))%nat -> (i < j)%nat)
    as Hmono by (intros; lia).
  pose proof (fun s l m rest (Hs : (s < N)%nat) =>
                pp_send_matched N MSG_SIZE th s l m rest HN Hs) as Hsend.
  pose proof (fun d l m rest (Hd : (d < N)%nat) =>
                pp_recv_matched N MSG_SIZE th d l m rest HN Hd) as Hrecv.
  assert (exists c', steps cap N c c' /\ all_exited N c' 0 /\ net c' = [])
    as Hrun.
  { destruct (safe_completes cap N (pingpong_main MSG_SIZE) cell0 T
                (fun _ => Ret 0) (fun _ i => i) Hfol
                Hkinds Hmono Hsend Hrecv c Hc) as (c' & Hs & Hfull).
    - intros r Hr. now apply Hth.
    - exists c'. split; [assumption|]. split.
      + intros r Hr. now apply Hfull.
      + apply (safe_final_net cap N (pingpong_main MSG_SIZE) cell0 T
                 (fun _ => Ret 0) (fun _ i => i) Hfol Hsend).
        * eapply reachable_steps; eauto.
        * intros r Hr. now apply Hfull. }
  split; [exact Hrun|]. intros Hst.
  destruct (completable_not_stuck cap N c
              (fun c0 => all_exited N c0 0 /\ net c0 = []) Hrun Hst) as [H _].
  exact H.
Qed.

Lemma pingpong_never_deadlocks_witness :
  0 <= 8 /\ (2 <= 3)%nat /\
  exists c', steps 0 3 (init 3 (pingpong_main 8) 0) c' /\ all_exited 3 c' 0 /\
             net c' = [].
Proof.
  assert (0 <= 8) as H8 by lia.
  assert (2 <= 3)%nat as H3 by lia.
  destruct (pingpong_never_deadlocks 0 3 8 0 H8 H3 _
              (reachable_init 0 3 (pingpong_main 8) 0)) as [Hrun _].
  repeat split; auto.
Defined.


(* ================================================================= *)
(** * The ring with a single rank *)

(** With one rank, the neighbour on either side is rank 0 itself:
    [(0 + 1) % 1 = 0] and [size - 1 = 0]. *)
Definition ring_alone : list act :=
  [ACall CInit;
   ASend (Msg 0 0 0 MPI_INT [42]);
   ARecv (Msg 0 0 0 MPI_INT [42]);
   ACall (CPrintf stdout "Rank %d received final token=%d\n" [AInt 0; AInt 42]);
   ACall CFinalize].

Lemma ring_alone_trace : ring_trace 1 0 = ring_alone.
Proof. reflexivity. Qed.

Lemma ring_alone_follows r :
  (r < 1)%nat ->
  follows r (ring_main (Z.of_nat r) (Z.of_nat 1)) (ring_trace 1 r) (Ret 0).
Proof. intros _. apply ring_follows. Qed.

Lemma ring_alone_prefix cap cell0 c :
  reachable cap 1 ring_main cell0 c -> prefix (log c O) ring_alone.
Proof.
  intros Hc. rewrite <- ring_alone_trace.
  apply (ring_prefix cap 1 cell0 c); auto. unfold CInt.INT_MAX. simpl. lia.
Qed.

(** ** On an unbuffered channel *)

Section RingAloneUnbuffered.

Variable cell0 : Z.

Local Abbreviation alone_reach := (reachable 0 1 ring_main cell0).

(** The next action of the rank as long as it has not got past its
    initialisation. *)
Lemma ring_alone_next c a p' :
  alone_reach c -> prefix (log c O) [ACall CInit] ->
  lstep O (code c O) a p' ->
  (log c O = [] /\ a = ACall CInit) \/
  (log c O = [ACall CInit] /\ a = ASend (Msg 0 0 0 MPI_INT [42])).
Proof.
  intros Hc [rest0 Hp] Hl.
  destruct (next_entry 0 1 ring_main cell0 (ring_trace 1) (fun _ => Ret 0)
              ring_alone_follows c O a p' Hc)
    as (b & rest & E & Hs); auto.
  - now exists 0.
  - rewrite ring_alone_trace. now apply (ring_alone_prefix 0 cell0).
  - rewrite ring_alone_trace in E. unfold ring_alone in E.
    destruct (log c O) as [|x [|y l]]; cbn [app] in E, Hp.
    + injection E as <- _. apply skeleton_fixed in Hs; [|exact I]. auto.
    + injection E as <- <- _. apply skeleton_fixed in Hs; [|exact I]. auto.
    + discriminate Hp.
Qed.

Lemma ring_alone_inv c :
  alone_reach c -> net c = [] /\ prefix (log c O) [ACall CInit].
Proof.
  induction 1 as [|c2 c3 Hc2 [Hn Hp] Hs].
  - split; [reflexivity|apply prefix_nil].
  - destruct (step_view_of _ _ _ _ Hs)
      as [r a Hr Hl El Ho Hsolo|s d m Hs' Hd Hsd Hls Hld Els Eld Ho Hn' Hv
         |x HN Hall Hn' Hv].
    + assert (r = O) as -> by lia.
      destruct (ring_alone_next c2 a _ Hc2 Hp Hl) as [[E ->]|[E ->]];
        simpl in Hsolo.
      * destruct Hsolo as [Hn' _]. split; [congruence|].
        rewrite El, E. now exists [].
      * lia.
    + lia.
    + destruct (Hall O ltac:(lia)) as [Hl _].
      destruct (ring_alone_next c2 _ _ Hc2 Hp Hl) as [[_ [=]]|[_ [=]]].
Qed.

(** Standing at its send, the rank cannot move: nobody is there to
    receive. *)
Lemma ring_alone_stuck c :
  alone_reach c -> log c O = [ACall CInit] -> stuck 0 1 c.
Proof.
  intros Hc Hlog c' Hs.
  destruct (ring_alone_inv c Hc) as [Hn Hp].
  destruct (step_view_of _ _ _ _ Hs)
    as [r a Hr Hl El Ho Hsolo|s d m Hs' Hd Hsd Hls Hld Els Eld Ho Hn' Hv
       |x HN Hall Hn' Hv].
  - assert (r = O) as -> by lia.
    destruct (ring_alone_next c a _ Hc Hp Hl) as [[E _]|[_ ->]];
      simpl in Hsolo.
    + rewrite Hlog in E. discriminate E.
    + lia.
  - lia.
  - destruct (Hall O ltac:(lia)) as [Hl _].
    destruct (ring_alone_next c _ _ Hc Hp Hl) as [[_ [=]]|[_ [=]]].
Qed.

Lemma ring_alone_blocks c :
  alone_reach c ->
  exists c', steps 0 1 c c' /\ alone_reach c' /\ log c' O = [ACall CInit].
Proof.
  intros Hc. destruct (ring_alone_inv c Hc) as [_ [rest Hp]].
  destruct (log c O) as [|x [|y l]] eqn:El; cbn [app] in Hp.
  - destruct (trace_internal_step 0 1 ring_main cell0 (ring_trace 1)
                (fun _ => Ret 0) ring_alone_follows c O (ACall CInit)
                (tl ring_alone) Hc) as (c' & Hs & Hl & _); auto.
    + now rewrite El.
    + exact I.
    + exists c'. split; [now apply steps_one|].
      split; [eapply reachable_step; eauto|]. now rewrite Hl, El.
  - injection Hp as <- _. exists c. split; [apply steps_refl|]. auto.
  - discriminate Hp.
Qed.

End RingAloneUnbuffered.

(** A ring of one rank on an unbuffered channel blocks at once: rank 0
    addresses its send to itself and there is nobody to take it.  The
    configuration in which it stands at that send is reachable and no rule
    applies to it; in every reachable configuration rank 0 has at most
    initialised, so it never prints and never returns; and every run ends
    in the blocked configuration. *)
Theorem ring_alone_unbuffered (cell0 : Z) :
  (exists c, reachable 0 1 ring_main cell0 c /\ stuck 0 1 c /\
     exists k, code c O = Send [42] MPI_INT 0 0 k) /\
  (forall c, reachable 0 1 ring_main cell0 c ->
     prefix (log c O) [ACall CInit] /\ net c = [] /\
     (forall v, ~ exited c O v) /\
     (exists c', steps 0 1 c c' /\ stuck 0 1 c')).
Proof.
  split.
  - destruct (ring_alone_blocks cell0 _ (reachable_init 0 1 ring_main cell0))
      as (c & _ & Hc & Hl).
    exists c. split; [assumption|].
    split; [now apply ring_alone_stuck with cell0|].
    pose proof (code_follows 0 1 ring_main cell0 (ring_trace 1)
                  (fun _ => Ret 0) ring_alone_follows c O _ (tl ring_alone)
                  Hc ltac:(lia) Hl eq_refl) as (p1 & Hstep & _).
    inversion Hstep; subst. eauto.
  - intros c Hc. destruct (ring_alone_inv cell0 c Hc) as [Hn Hp].
    split; [assumption|]. split; [assumption|]. split.
    + intros v He.
      destruct (trace_exit 0 1 ring_main cell0 (ring_trace 1) (fun _ => Ret 0)
                  ring_alone_follows c O v Hc) as [E _]; auto.
      * rewrite ring_alone_trace. now apply (ring_alone_prefix 0 cell0).
      * apply prefix_length in Hp. rewrite E in Hp. simpl in Hp. lia.
    + destruct (ring_alone_blocks cell0 c Hc) as (c' & Hs & Hc' & Hl).
      exists c'. split; [assumption|]. now apply ring_alone_stuck with cell0.
Qed.

(** ** On a channel that buffers *)

Lemma ring_alone_progress cap cell0 c :
  (1 <= cap)%nat -> reachable cap 1 ring_main cell0 c ->
  (forall r, (r < 1)%nat -> prefix (log c r) (ring_trace 1 r)) ->
  (forall r, (r < 1)%nat -> log c r = ring_trace 1 r) \/
  exists c', step cap 1 c c' /\
    (forall r, (r < 1)%nat -> prefix (log c' r) (ring_trace 1 r)) /\
    (remaining 1 (ring_trace 1) c' < remaining 1 (ring_trace 1) c)%nat.
Proof.
  intros Hcap Hc Hp.
  pose proof (Hp O ltac:(lia)) as Hp0.
  destruct (Nat.lt_ge_cases (length (log c O)) (length (ring_trace 1 0)))
    as [Hlt|Hge].
  2:{ left. intros r Hr. assert (r = O) as -> by lia. now apply prefix_full. }
  right. destruct (prefix_shorter _ _ Hp0 Hlt) as (b & rest & E).
  assert (forall c', step cap 1 c c' -> log c' O = log c O ++ [b] ->
            exists c', step cap 1 c c' /\
              (forall r, (r < 1)%nat -> prefix (log c' r) (ring_trace 1 r)) /\
              (remaining 1 (ring_trace 1) c' < remaining 1 (ring_trace 1) c)%nat)
    as Hgo.
  { intros c' Hs Hl. exists c'. split; [assumption|].
    apply (grown 1 (ring_trace 1) c c' O); auto; [|eauto].
    intros j Hj. assert (j = O) as -> by lia. right. exists b.
    split; [assumption|]. eapply prefix_snoc; eauto. }
  pose proof E as E'. rewrite ring_alone_trace in E'. unfold ring_alone in E'.
  destruct (log c O) as [|x0 [|x1 [|x2 [|x3 [|x4 [|x5 l]]]]]] eqn:El;
    cbn [app] in E'; try discriminate E'.
  - injection E' as <- _.
    destruct (trace_internal_step cap 1 ring_main cell0 (ring_trace 1)
                (fun _ => Ret 0) ring_alone_follows c O (ACall CInit) rest Hc)
      as (c' & Hs & Hl & _); auto; [now rewrite El|exact I|].
    apply (Hgo c'); auto. now rewrite Hl, El.
  - injection E' as <- <- _.
    destruct (trace_post_step cap 1 ring_main cell0 (ring_trace 1)
                (fun _ => Ret 0) ring_alone_follows c O
                (Msg 0 0 0 MPI_INT [42]) rest Hc)
      as (c' & Hs & Hl & _); auto; [now rewrite El| |].
    + destruct (net c) as [|m n] eqn:En; [simpl; lia|]. exfalso.
      destruct (in_net_sent cap 1 ring_main cell0 c m Hc) as (s & Hs & Hin);
        [rewrite En; now left|].
      assert (s = O) as -> by lia. rewrite El in Hin.
      destruct Hin as [Hin|[]]. discriminate Hin.
    + apply (Hgo c'); auto. now rewrite Hl, El.
  - injection E' as <- <- <- _.
    pose proof (fifo_reachable cap 1 ring_main cell0 c Hc O O 0) as Hfifo.
    rewrite El in Hfifo.
    change ([Msg 0 0 0 MPI_INT [42]] =
            in_flight (Z.of_nat 0) (Z.of_nat 0) 0 (net c)) in Hfifo.
    symmetry in Hfifo.
    destruct (in_flight_first _ _ _ _ _ _ Hfifo) as (l1 & l2 & En & Hl1 & _).
    destruct (trace_deliver_step cap 1 ring_main cell0 (ring_trace 1)
                (fun _ => Ret 0) ring_alone_follows c O
                (Msg 0 0 0 MPI_INT [42]) rest l1 l2 Hc)
      as (c' & Hs & Hl & _); auto; [now rewrite El| |].
    + intros m' Hm' Hse. apply same_envelope_eqb in Hse.
      change (env_eqb (Z.of_nat 0) (Z.of_nat 0) 0 m' = true) in Hse.
      rewrite (Hl1 m' Hm') in Hse. discriminate Hse.
    + apply (Hgo c'); auto. now rewrite Hl, El.
  - injection E' as <- <- <- <- _.
    destruct (trace_internal_step cap 1 ring_main cell0 (ring_trace 1)
                (fun _ => Ret 0) ring_alone_follows c O
                (ACall (CPrintf stdout "Rank %d received final token=%d\n"
                          [AInt 0; AInt 42])) rest Hc)
      as (c' & Hs & Hl & _); auto; [rewrite El; exact E|exact I|].
    apply (Hgo c'); auto. now rewrite Hl, El.
  - injection E' as <- <- <- <- <- _.
    destruct (trace_internal_step cap 1 ring_main cell0 (ring_trace 1)
                (fun _ => Ret 0) ring_alone_follows c O (ACall CFinalize)
                rest Hc)
      as (c' & Hs & Hl & _); auto; [rewrite El; exact E|exact I|].
    apply (Hgo c'); auto. now rewrite Hl, El.
Qed.

(** A ring of one rank on a channel with room for at least one message
    always completes: the transport takes the message rank 0 addresses to
    itself, rank 0 receives it back unchanged, prints 42 as the final
    token and returns 0, with nothing left in flight.  No schedule
    blocks. *)
Theorem ring_alone_buffered (cap : nat) (cell0 : Z) :
  (1 <= cap)%nat ->
  forall c, reachable cap 1 ring_main cell0 c ->
    (exists c', steps cap 1 c c' /\ exited c' O 0 /\ net c' = [] /\
       log c' O =
         [ACall CInit;
          ASend (Msg 0 0 0 MPI_INT [42]);
          ARecv (Msg 0 0 0 MPI_INT [42]);
          ACall (CPrintf stdout "Rank %d received final token=%d\n"
                   [AInt 0; AInt 42]);
          ACall CFinalize]) /\
    (stuck cap 1 c -> exited c O 0).
Proof.
  intros Hcap c Hc.
  assert (exists c', steps cap 1 c c' /\ exited c' O 0 /\ net c' = [] /\
                     log c' O = ring_alone)
    as Hrun.
  { destruct (progress_completes cap 1 ring_main cell0 (ring_trace 1)
                (fun _ => Ret 0) ring_alone_follows
                (fun c0 => ring_alone_progress cap cell0 c0 Hcap) c Hc)
      as (c' & Hs & Hfull).
    - intros r Hr. assert (r = O) as -> by lia.
      rewrite ring_alone_trace. now apply (ring_alone_prefix cap cell0).
    - exists c'. split; [assumption|].
      destruct (Hfull O ltac:(lia)) as [Hl Hcode].
      split; [assumption|]. split; [|assumption].
      assert (reachable cap 1 ring_main cell0 c') as Hc'
        by (eapply reachable_steps; eauto).
      pose proof (fifo_reachable cap 1 ring_main cell0 c' Hc' O O 0) as Hfifo.
      rewrite Hl in Hfifo.
      assert (in_flight 0 0 0 (net c') = []) as Hnone.
      { apply (app_inv_head [Msg 0 0 0 MPI_INT [42]]). symmetry. exact Hfifo. }
      destruct (net c') as [|m n] eqn:En; [reflexivity|]. exfalso.
      destruct (in_net_sent cap 1 ring_main cell0 c' m Hc') as (s & Hs' & Hin);
        [rewrite En; now left|].
      assert (s = O) as -> by lia. rewrite Hl in Hin. simpl in Hin.
      repeat (destruct Hin as [Hin|Hin]; try discriminate Hin); try contradiction.
      injection Hin as <-.
      assert (env_eqb 0 0 0 (Msg 0 0 0 MPI_INT [42]) = false) as Hf
        by (apply (in_flight_empty _ _ _ _ _ Hnone); now left).
      discriminate Hf. }
  split; [exact Hrun|]. intros Hst.
  destruct (completable_not_stuck cap 1 c
              (fun c0 => exited c0 O 0 /\ net c0 = [] /\ log c0 O = ring_alone)
              Hrun Hst)
    as [H _].
  exact H.
Qed.

Lemma ring_alone_buffered_witness :
  (1 <= 1)%nat /\
  exists c', steps 1 1 (init 1 ring_main 7) c' /\ exited c' O 0.
Proof.
  assert (1 <= 1)%nat as H1 by lia.
  destruct (ring_alone_buffered 1 7 H1 _ (reachable_init 1 1 ring_main 7))
    as [(c' & Hs & He & _) _].
  split; [assumption|]. exists c'. auto.
Defined.


(* ================================================================= *)
(** * The deadlock example on a channel that buffers *)

Lemma deadlock_trace_kinds r a :
  (r < 2)%nat -> In a (deadlock_trace r) ->
  (exists x, a = ACall x) \/ a = ASend (deadlock_msg r) \/
  a = ARecv (deadlock_msg (1 - r)).
Proof.
  intros Hr Ha. destruct r as [|[|r]]; [| |lia];
    cbv [deadlock_trace deadlock_pre deadlock_post app] in Ha; cbn [In] in Ha;
    repeat (destruct Ha as [<-|Ha]; [eauto|]); contradiction.
Qed.

(** Whatever the capacity, each rank is somewhere along its trace. *)
Lemma deadlock_prefix cap cell0 c :
  reachable cap 2 deadlock_main cell0 c ->
  forall r, (r < 2)%nat -> prefix (log c r) (deadlock_trace r).
Proof.
  intros Hc r Hr.
  destruct (trace_invariant cap 2 deadlock_main cell0 unit (fun _ => True)
              (fun _ => deadlock_trace) (fun m => data m = [42])) with (c := c)
    as [Hp _]; auto.
  - now exists tt.
  - intros _ r0 _ Hr0. exists (Ret 0).
    split; [now apply deadlock_follows|now exists 0].
  - intros r0 _ l b rest a Hr0 _ E Hs _ Hg.
    assert (a = b ->
            exists _ : unit, True /\ prefix (l ++ [a]) (deadlock_trace r0))
      as Hsame by (intros ->; exists tt; split; [exact I|];
                   eapply prefix_snoc; eauto).
    destruct (deadlock_trace_kinds r0 b Hr0) as [[x ->]|[->| ->]];
      [rewrite E; apply in_middle| | |].
    + apply skeleton_fixed in Hs; [subst a|exact I].
      split; [auto|intros m [=]].
    + apply skeleton_fixed in Hs; [subst a|exact I].
      split; [auto|]. intros m [= <-]. now destruct r0.
    + destruct (skeleton_recv _ _ Hs) as [d ->].
      split; [|intros m [=]]. apply Hsame.
      specialize (Hg _ eq_refl). cbn [data] in Hg. subst d.
      now destruct (1 - r0)%nat.
  - destruct (Hp r Hr) as (_ & _ & H). exact H.
Qed.

(** What a rank has sent and received, by where it stands. *)
Definition deadlock_sent (r : nat) : list act :=
  deadlock_pre r ++ ASend (deadlock_msg r) :: firstn 1 (deadlock_post r).

(** Where a rank stands: before a call, at its send, at its receive, or
    at the end. *)
Lemma deadlock_where r l :
  (r < 2)%nat -> prefix l (deadlock_trace r) ->
  (exists b rest, deadlock_trace r = l ++ b :: rest /\ internal b) \/
  l = deadlock_pre r \/ l = deadlock_sent r \/ l = deadlock_trace r.
Proof.
  intros Hr [rest E].
  destruct r as [|[|r]]; [| |lia];
    cbv [deadlock_trace deadlock_sent deadlock_pre deadlock_post deadlock_msg
         firstn app] in *;
    do 11 (destruct l as [|? l];
           [first [left; do 2 eexists; split; [reflexivity|exact I]
                  |right; left; reflexivity
                  |right; right; left; reflexivity]
           |cbn [app] in E; injection E as <- E]);
    (destruct l; [right; right; right; reflexivity|discriminate E]).
Qed.

Lemma deadlock_grown c c' r :
  (forall j, (j < 2)%nat -> prefix (log c j) (deadlock_trace j)) ->
  (forall j, (j < 2)%nat ->
     log c' j = log c j \/
     exists a rest, log c' j = log c j ++ [a] /\
                    deadlock_trace j = log c j ++ a :: rest) ->
  (r < 2)%nat -> (exists a, log c' r = log c r ++ [a]) ->
  (forall j, (j < 2)%nat -> prefix (log c' j) (deadlock_trace j)) /\
  (remaining 2 deadlock_trace c' < remaining 2 deadlock_trace c)%nat.
Proof.
  intros Hp Hlog Hr Ha. apply (grown 2 deadlock_trace c c' r); auto.
  intros j Hj. destruct (Hlog j Hj) as [E|(a & rest & E & ET)]; [now left|].
  right. exists a. split; [assumption|]. eapply prefix_snoc; eauto.
Qed.

Section DeadlockBuffered.

Variable cap : nat.
Variable cell0 : Z.
Hypothesis cap_pos : (1 <= cap)%nat.

Local Abbreviation dlb_reach := (reachable cap 2 deadlock_main cell0).

(** A rank at its send can complete it when the other rank has not
    returned: the message is buffered, or the other rank is there to
    receive it. *)
Lemma deadlock_send_step c r :
  dlb_reach c -> (r < 2)%nat ->
  (forall j, (j < 2)%nat -> prefix (log c j) (deadlock_trace j)) ->
  log c r = deadlock_pre r ->
  log c (1 - r)%nat = deadlock_pre (1 - r) \/
  log c (1 - r)%nat = deadlock_sent (1 - r) ->
  exists c', step cap 2 c c' /\
    (forall j, (j < 2)%nat -> prefix (log c' j) (deadlock_trace j)) /\
    (remaining 2 deadlock_trace c' < remaining 2 deadlock_trace c)%nat.
Proof.
  intros Hc Hr Hp Hl [Ho|Ho].
  - (* nothing is in flight: the transport takes the message *)
    assert (net c = []) as Hn.
    { destruct (net c) as [|m n] eqn:En; [reflexivity|]. exfalso.
      destruct (in_net_sent cap 2 deadlock_main cell0 c m Hc) as (s & Hs & Hin);
        [rewrite En; now left|].
      assert (In (ASend m) (deadlock_pre s)) as Hin'.
      { destruct (Nat.eq_dec s r) as [->|Hne]; [now rewrite <- Hl|].
        assert (s = (1 - r)%nat) as -> by lia. now rewrite <- Ho. }
      destruct (deadlock_pre_calls _ _ Hin') as [x [=]]. }
    destruct (trace_post_step cap 2 deadlock_main cell0 deadlock_trace
                (fun _ => Ret 0) deadlock_follows c r (deadlock_msg r)
                (deadlock_post r) Hc Hr)
      as (c' & Hs & Hl' & Ho' & _).
    + now rewrite Hl.
    + rewrite Hn. simpl. lia.
    + exists c'. split; [assumption|].
      apply (deadlock_grown c c' r); auto; [|eauto].
      intros j Hj. destruct (Nat.eq_dec j r) as [->|Hne].
      * right. exists (ASend (deadlock_msg r)), (deadlock_post r).
        split; [assumption|]. now rewrite Hl.
      * left. now apply Ho'.
  - (* the other rank stands at its receive *)
    pose proof (fifo_reachable cap 2 deadlock_main cell0 c Hc r (1 - r)%nat 0)
      as Hfifo.
    rewrite Hl, Ho in Hfifo.
    assert (in_flight (Z.of_nat r) (Z.of_nat (1 - r)) 0 (net c) = []) as Hnone.
    { destruct r as [|[|r]]; [| |lia]; symmetry; exact Hfifo. }
    destruct (trace_rendezvous_step cap 2 deadlock_main cell0 deadlock_trace
                (fun _ => Ret 0) deadlock_follows c r (1 - r)%nat
                (deadlock_msg r) (deadlock_post r)
                (skipn 2 (deadlock_post (1 - r))) Hc Hr ltac:(lia))
      as (c' & Hs & Hne & Hls & Hld & Ho' & _).
    + now rewrite Hl.
    + rewrite Ho. destruct r as [|[|r]]; [| |lia]; reflexivity.
    + intros m' Hm' Hse. apply same_envelope_eqb in Hse.
      assert (env_eqb (Z.of_nat r) (Z.of_nat (1 - r)) 0 m' = true) as Ht
        by (destruct r as [|[|r]]; [| |lia]; exact Hse).
      rewrite (in_flight_empty _ _ _ _ _ Hnone Hm') in Ht. discriminate Ht.
    + exists c'. split; [assumption|].
      apply (deadlock_grown c c' r); auto; [|eauto].
      intros j Hj. destruct (Nat.eq_dec j r) as [->|Hjr].
      * right. exists (ASend (deadlock_msg r)), (deadlock_post r).
        split; [assumption|]. now rewrite Hl.
      * assert (j = (1 - r)%nat) as -> by lia.
        right. exists (ARecv (deadlock_msg r)), (skipn 2 (deadlock_post (1 - r))).
        split; [assumption|]. rewrite Ho.
        destruct r as [|[|r]]; [| |lia]; reflexivity.
Qed.

(** A rank at its receive finds the message of the other rank in flight
    as soon as the other rank is past its send. *)
Lemma deadlock_recv_step c r :
  dlb_reach c -> (r < 2)%nat ->
  (forall j, (j < 2)%nat -> prefix (log c j) (deadlock_trace j)) ->
  log c r = deadlock_sent r ->
  log c (1 - r)%nat = deadlock_sent (1 - r) \/
  log c (1 - r)%nat = deadlock_trace (1 - r) ->
  exists c', step cap 2 c c' /\
    (forall j, (j < 2)%nat -> prefix (log c' j) (deadlock_trace j)) /\
    (remaining 2 deadlock_trace c' < remaining 2 deadlock_trace c)%nat.
Proof.
  intros Hc Hr Hp Hl Ho.
  pose proof (fifo_reachable cap 2 deadlock_main cell0 c Hc (1 - r)%nat r 0)
    as Hfifo.
  rewrite Hl in Hfifo.
  assert (in_flight (Z.of_nat (1 - r)) (Z.of_nat r) 0 (net c) =
          [deadlock_msg (1 - r)]) as Hone.
  { destruct Ho as [Ho|Ho]; rewrite Ho in Hfifo;
      (destruct r as [|[|r]]; [| |lia]); symmetry; exact Hfifo. }
  destruct (in_flight_first _ _ _ _ _ _ Hone) as (l1 & l2 & En & Hl1 & _).
  destruct (trace_deliver_step cap 2 deadlock_main cell0 deadlock_trace
              (fun _ => Ret 0) deadlock_follows c r (deadlock_msg (1 - r))
              (skipn 2 (deadlock_post r)) l1 l2 Hc Hr)
    as (c' & Hs & Hl' & Ho' & _); auto.
  - rewrite Hl. destruct r as [|[|r]]; [| |lia]; reflexivity.
  - intros m' Hm' Hse. apply same_envelope_eqb in Hse.
    assert (env_eqb (Z.of_nat (1 - r)) (Z.of_nat r) 0 m' = true) as Ht
      by (destruct r as [|[|r]]; [| |lia]; exact Hse).
    rewrite (Hl1 m' Hm') in Ht. discriminate Ht.
  - exists c'. split; [assumption|].
    apply (deadlock_grown c c' r); auto; [|eauto].
    intros j Hj. destruct (Nat.eq_dec j r) as [->|Hjr].
    + right. exists (ARecv (deadlock_msg (1 - r))), (skipn 2 (deadlock_post r)).
      split; [assumption|]. rewrite Hl.
      destruct r as [|[|r]]; [| |lia]; reflexivity.
    + left. now apply Ho'.
Qed.

(** A rank cannot have returned while the other one stands at its send:
    it would have received what was never sent. *)
Lemma deadlock_not_ahead c r :
  dlb_reach c -> (r < 2)%nat ->
  log c r = deadlock_pre r -> log c (1 - r)%nat = deadlock_trace (1 - r) ->
  False.
Proof.
  intros Hc Hr Hl Ho.
  pose proof (fifo_reachable cap 2 deadlock_main cell0 c Hc r (1 - r)%nat 0)
    as Hfifo.
  rewrite Hl, Ho in Hfifo.
  destruct r as [|[|r]]; [| |lia]; discriminate Hfifo.
Qed.

Lemma deadlock_progress c :
  dlb_reach c ->
  (forall r, (r < 2)%nat -> prefix (log c r) (deadlock_trace r)) ->
  (forall r, (r < 2)%nat -> log c r = deadlock_trace r) \/
  exists c', step cap 2 c c' /\
    (forall r, (r < 2)%nat -> prefix (log c' r) (deadlock_trace r)) /\
    (remaining 2 deadlock_trace c' < remaining 2 deadlock_trace c)%nat.
Proof.
  intros Hc Hp.
  assert (forall r, (r < 2)%nat ->
            (exists b rest, deadlock_trace r = log c r ++ b :: rest /\ internal b) ->
            exists c', step cap 2 c c' /\
              (forall j, (j < 2)%nat -> prefix (log c' j) (deadlock_trace j)) /\
              (remaining 2 deadlock_trace c' < remaining 2 deadlock_trace c)%nat)
    as Hint.
  { intros r Hr (b & rest & E & Hi).
    destruct (trace_internal_step cap 2 deadlock_main cell0 deadlock_trace
                (fun _ => Ret 0) deadlock_follows c r b rest Hc Hr E Hi)
      as (c' & Hs & Hl & Ho & _).
    exists c'. split; [assumption|].
    apply (deadlock_grown c c' r); auto; [|eauto].
    intros j Hj. destruct (Nat.eq_dec j r) as [->|Hne]; [right; eauto|].
    left. now apply Ho. }
  destruct (deadlock_where O (log c O) ltac:(lia) (Hp O ltac:(lia)))
    as [H0|[H0|[H0|H0]]];
    [right; apply (Hint O); [lia|assumption]| | |];
    (destruct (deadlock_where 1%nat (log c 1%nat) ltac:(lia) (Hp 1%nat ltac:(lia)))
      as [H1|[H1|[H1|H1]]];
     [right; apply (Hint 1%nat); [lia|assumption]| | |]).
  - right. apply (deadlock_send_step c O); auto.
  - right. apply (deadlock_send_step c O); auto.
  - destruct (deadlock_not_ahead c O); auto.
  - right. apply (deadlock_send_step c 1%nat); auto.
  - right. apply (deadlock_recv_step c O); auto.
  - right. apply (deadlock_recv_step c O); auto.
  - destruct (deadlock_not_ahead c 1%nat); auto.
  - right. apply (deadlock_recv_step c 1%nat); auto.
  - left. intros r Hr. destruct r as [|[|r]]; [assumption|assumption|lia].
Qed.

End DeadlockBuffered.

(** With room for at least one message in the transport the two-rank
    deadlock example cannot deadlock, whatever the schedule: from every
    configuration a run can reach, the run can be continued until both
    ranks have returned 0, each having printed that it received 42, with
    nothing left in flight; a configuration from which no rank can move is
    one in which both have returned. *)
Theorem deadlock_buffered_always_completes (cap : nat) (cell0 : Z) :
  (1 <= cap)%nat ->
  forall c, reachable cap 2 deadlock_main cell0 c ->
    (exists c', steps cap 2 c c' /\ all_exited 2 c' 0 /\ net c' = [] /\
       In (ACall (CPrintf stdout "Process 0: Received %d\n" [AInt 42]))
          (log c' O) /\
       In (ACall (CPrintf stdout "Process 1: Received %d\n" [AInt 42]))
          (log c' 1%nat)) /\
    (stuck cap 2 c -> all_exited 2 c 0).
Proof.
  intros Hcap c Hc.
  assert (exists c', steps cap 2 c c' /\ all_exited 2 c' 0 /\ net c' = [] /\
            In (ACall (CPrintf stdout "Process 0: Received %d\n" [AInt 42]))
               (log c' O) /\
            In (ACall (CPrintf stdout "Process 1: Received %d\n" [AInt 42]))
               (log c' 1%nat)) as Hrun.
  { destruct (progress_completes cap 2 deadlock_main cell0 deadlock_trace
                (fun _ => Ret 0) deadlock_follows
                (deadlock_progress cap cell0 Hcap) c Hc
                (deadlock_prefix cap cell0 c Hc))
      as (c' & Hs & Hfull).
    exists c'. split; [assumption|].
    split; [intros r Hr; now apply Hfull|].
    destruct (Hfull O ltac:(lia)) as [Hl0 _].
    destruct (Hfull 1%nat ltac:(lia)) as [Hl1 _].
    split; [|rewrite Hl0, Hl1; split; simpl; auto 12].
    assert (reachable cap 2 deadlock_main cell0 c') as Hc'
      by (eapply reachable_steps; eauto).
    pose proof (fifo_reachable cap 2 deadlock_main cell0 c' Hc' 0%nat 1%nat 0)
      as F01.
    pose proof (fifo_reachable cap 2 deadlock_main cell0 c' Hc' 1%nat 0%nat 0)
      as F10.
    rewrite Hl0, Hl1 in F01, F10.
    assert (in_flight 0 1 0 (net c') = []) as N01.
    { apply (app_inv_head [deadlock_msg 0]). symmetry. exact F01. }
    assert (in_flight 1 0 0 (net c') = []) as N10.
    { apply (app_inv_head [deadlock_msg 1]). symmetry. exact F10. }
    destruct (net c') as [|m n] eqn:En; [reflexivity|]. exfalso.
    destruct (in_net_sent cap 2 deadlock_main cell0 c' m Hc') as (s & Hs' & Hin);
      [rewrite En; now left|].
    destruct s as [|[|s]]; [| |lia].
    - rewrite Hl0 in Hin.
      destruct (deadlock_trace_kinds O _ ltac:(lia) Hin) as [[x [=]]|[[= ->]|[=]]].
      assert (env_eqb 0 1 0 (deadlock_msg 0) = false) as Hf
        by (apply (in_flight_empty _ _ _ _ _ N01); now left).
      discriminate Hf.
    - rewrite Hl1 in Hin.
      destruct (deadlock_trace_kinds 1%nat _ ltac:(lia) Hin)
        as [[x [=]]|[[= ->]|[=]]].
      assert (env_eqb 1 0 0 (deadlock_msg 1) = false) as Hf
        by (apply (in_flight_empty _ _ _ _ _ N10); now left).
      discriminate Hf. }
  split; [exact Hrun|]. intros Hst.
  destruct (completable_not_stuck cap 2 c
              (fun c0 => all_exited 2 c0 0 /\ net c0 = [] /\
                 In (ACall (CPrintf stdout "Process 0: Received %d\n" [AInt 42]))
                    (log c0 O) /\
                 In (ACall (CPrintf stdout "Process 1: Received %d\n" [AInt 42]))
                    (log c0 1%nat)) Hrun Hst) as [H _].
  exact H.
Qed.

Lemma deadlock_buffered_always_completes_witness :
  (1 <= 1)%nat /\
  exists c', steps 1 2 (init 2 deadlock_main 0) c' /\ all_exited 2 c' 0 /\
             net c' = [].
Proof.
  assert (1 <= 1)%nat as H1 by lia.
  destruct (deadlock_buffered_always_completes 1 0 H1 _
              (reachable_init 1 2 deadlock_main 0))
    as [(c' & Hs & He & Hn & _) _].
  split; [assumption|]. exists c'. auto.
Defined.


(** ** What has been printed when the two ranks hang *)

(** Two ranks on an unbuffered channel: in a configuration from which no
    rank can move, each rank has initialised, printed and flushed its
    "starting" line and its "Attempting to send" line, and done nothing
    else: the last output before the hang is on the screen, and no "Send
    completed" line is. *)
Theorem deadlock_hang_output (cell0 : Z) :
  forall c, reachable 0 2 deadlock_main cell0 c -> stuck 0 2 c ->
    log c O =
      [ACall CInit;
       ACall (CPrintf stdout "Process %d starting...\n" [AInt 0]);
       ACall (CFflush stdout);
       ACall (CPrintf stdout
                "Process 0: Attempting to send to process 1...\n" []);
       ACall (CFflush stdout)] /\
    log c 1%nat =
      [ACall CInit;
       ACall (CPrintf stdout "Process %d starting...\n" [AInt 1]);
       ACall (CFflush stdout);
       ACall (CPrintf stdout
                "Process 1: Attempting to send to process 0...\n" []);
       ACall (CFflush stdout)].
Proof.
  intros c Hc Hst.
  destruct (deadlock_inv_reachable cell0 c Hc) as [_ Hlog].
  assert (forall r, (r < 2)%nat -> log c r = deadlock_pre r) as Hfull.
  { intros r Hr.
    destruct (Nat.lt_ge_cases (length (log c r)) (length (deadlock_pre r)))
      as [Hlt|Hge].
    - exfalso.
      destruct (prefix_shorter _ _ (Hlog r Hr) Hlt) as (b & rest & E).
      destruct (deadlock_pre_calls r b) as [x ->]; [rewrite E; apply in_middle|].
      destruct (trace_internal_step 0 2 deadlock_main cell0 deadlock_trace
                  (fun _ => Ret 0) deadlock_follows c r (ACall x)
                  (rest ++ ASend (deadlock_msg r) :: deadlock_post r) Hc Hr)
        as (c' & Hs & _).
      + unfold deadlock_trace. rewrite E, <- app_assoc. reflexivity.
      + exact I.
      + exact (Hst c' Hs).
    - apply prefix_full; auto. }
  split; [exact (Hfull O ltac:(lia))|exact (Hfull 1%nat ltac:(lia))].
Qed.

Lemma deadlock_hang_output_witness :
  exists c, reachable 0 2 deadlock_main 0 c /\ stuck 0 2 c /\
    length (log c O) = 5%nat /\ length (log c 1%nat) = 5%nat.
Proof.
  destruct (deadlock_inevitable 0 _ (reachable_init 0 2 deadlock_main 0))
    as (c & _ & Hc & Hfull).
  pose proof (deadlock_stuck 0 c Hc Hfull) as Hst.
  destruct (deadlock_hang_output 0 c Hc Hst) as [E0 E1].
  exists c. split; [assumption|]. split; [assumption|].
  rewrite E0, E1. split; reflexivity.
Defined.

(* ================================================================= *)
(** * Further properties of the ping-pong *)

(** ** At most one message is in flight *)

Lemma prefix_app_cases l (A B : list act) :
  prefix l (A ++ B) -> prefix l A \/ exists l1, l = A ++ l1 /\ prefix l1 B.
Proof.
  revert l. induction A as [|a A IH]; intros l [rest E].
  - right. exists l. split; [reflexivity|now exists rest].
  - destruct l as [|x l]; [left; apply prefix_nil|].
    simpl in E. injection E as -> E.
    destruct (IH l) as [[r0 ->]|(l1 & -> & Hp)]; [now exists rest| |].
    + left. now exists r0.
    + right. now exists l1.
Qed.

Lemma prefix_rounds l (R : list act) n :
  prefix l (concat (repeat R n)) ->
  exists k l0, l = concat (repeat R k) ++ l0 /\ prefix l0 R.
Proof.
  revert l. induction n as [|n IH]; intros l Hp; simpl in Hp.
  - destruct Hp as [rest E]. destruct l; [|discriminate E].
    exists O, []. split; [reflexivity|apply prefix_nil].
  - destruct (prefix_app_cases _ _ _ Hp) as [H|(l1 & -> & H)].
    + exists O, l. auto.
    + destruct (IH l1 H) as (k & l0 & -> & Hl0).
      exists (S k), l0. split; [|assumption]. simpl. now rewrite app_assoc.
Qed.

Lemma sent_none s d g l : (forall m, ~ In (ASend m) l) -> sent s d g l = [].
Proof.
  induction l as [|a l IH]; intros H; [reflexivity|].
  change (sent s d g (a :: l)) with (sent_of s d g a ++ sent s d g l).
  rewrite IH by (intros m Hm; apply (H m); now right).
  destruct a; try reflexivity. destruct (H m). now left.
Qed.

Lemma received_none s d g l :
  (forall m, ~ In (ARecv m) l) -> received s d g l = [].
Proof.
  induction l as [|a l IH]; intros H; [reflexivity|].
  change (received s d g (a :: l)) with (recv_of s d g a ++ received s d g l).
  rewrite IH by (intros m Hm; apply (H m); now right).
  destruct a; try reflexivity. destruct (H m). now left.
Qed.

Lemma length_concat_repeat {X} (R : list X) k :
  length (concat (repeat R k)) = (k * length R)%nat.
Proof.
  induction k as [|k IH]; simpl; [reflexivity|]. rewrite length_app, IH. lia.
Qed.

(** Neither the start nor the end of a ping-pong trace sends or
    receives. *)
Lemma pp_pre_quiet sz th a :
  In a (pp_pre sz th) -> (forall m, a <> ASend m) /\ (forall m, a <> ARecv m).
Proof.
  simpl. intros [<-|[<-|[<-|[]]]]; split; intros m; discriminate.
Qed.

Lemma pp_tail_quiet sz th r a :
  In a (AWtime (pp_t1 th) :: pp_post sz th r) ->
  (forall m, a <> ASend m) /\ (forall m, a <> ARecv m).
Proof.
  intros [<-|H]; [split; intros m; discriminate|].
  destruct (pp_post_calls _ _ _ _ H) as [x ->]. split; intros m; discriminate.
Qed.

(** Along the trace of rank 0, and of rank 1, sends and receives
    alternate: rank 0 has sent as many messages as it has received, or one
    more; rank 1 has received as many as it has sent, or one more. *)
Lemma pp_balance sz th r l :
  (r < 2)%nat -> prefix l (pp_trace sz th r) ->
  let out := length (sent (Z.of_nat r) (Z.of_nat (1 - r)) 0 l) in
  let back := length (received (Z.of_nat (1 - r)) (Z.of_nat r) 0 l) in
  match r with
  | O => (back <= out <= back + 1)%nat
  | S _ => (out <= back <= out + 1)%nat
  end.
Proof.
  intros Hr Hp.
  assert (forall q s d g, prefix q (pp_pre sz th) ->
            sent s d g q = [] /\ received s d g q = []) as Hpre.
  { intros q s d g Hq. split; [apply sent_none|apply received_none];
      intros m Hm; apply (prefix_in _ _ _ Hq) in Hm;
      destruct (pp_pre_quiet _ _ _ Hm) as [H1 H2];
      [now apply (H1 m)|now apply (H2 m)]. }
  assert (forall q s d g, prefix q (AWtime (pp_t1 th) :: pp_post sz th r) ->
            sent s d g q = [] /\ received s d g q = []) as Htail.
  { intros q s d g Hq. split; [apply sent_none|apply received_none];
      intros m Hm; apply (prefix_in _ _ _ Hq) in Hm;
      destruct (pp_tail_quiet _ _ _ _ Hm) as [H1 H2];
      [now apply (H1 m)|now apply (H2 m)]. }
  unfold pp_trace in Hp.
  destruct (prefix_app_cases _ _ _ Hp) as [H|(l1 & -> & H)].
  { destruct (Hpre l (Z.of_nat r) (Z.of_nat (1 - r)) 0 H) as [-> _].
    destruct (Hpre l (Z.of_nat (1 - r)) (Z.of_nat r) 0 H) as [_ ->].
    destruct r; simpl; lia. }
  rewrite sent_app, received_app, !length_app.
  destruct (Hpre (pp_pre sz th) (Z.of_nat r) (Z.of_nat (1 - r)) 0) as [-> _];
    [now exists []|].
  destruct (Hpre (pp_pre sz th) (Z.of_nat (1 - r)) (Z.of_nat r) 0) as [_ ->];
    [now exists []|].
  cbn [length Nat.add].
  assert (exists k l0 l2,
            l1 = pp_rounds sz r k ++ l0 ++ l2 /\ prefix l0 (pp_round sz r) /\
            prefix l2 (AWtime (pp_t1 th) :: pp_post sz th r)) as (k & l0 & l2 & -> & Hl0 & Hl2).
  { destruct (prefix_app_cases _ _ _ H) as [H'|(l2 & -> & H')].
    - destruct (prefix_rounds _ _ _ H') as (k & l0 & -> & Hl0).
      exists k, l0, []. rewrite app_nil_r. repeat split; auto. apply prefix_nil.
    - exists (Z.to_nat iters), [], l2. repeat split; auto. apply prefix_nil. }
  rewrite !sent_app, !received_app, !length_app.
  destruct (Htail l2 (Z.of_nat r) (Z.of_nat (1 - r)) 0 Hl2) as [-> _].
  destruct (Htail l2 (Z.of_nat (1 - r)) (Z.of_nat r) 0 Hl2) as [_ ->].
  unfold pp_rounds. rewrite sent_concat_repeat, received_concat_repeat.
  rewrite !length_concat_repeat. cbn [length Nat.add].
  destruct Hl0 as [rest0 E0].
  destruct r as [|[|r]]; [| |lia]; cbn [pp_round] in *;
    (destruct l0 as [|x0 [|x1 [|x2 l0]]]; cbn [app] in E0;
     [|injection E0 as <- _|injection E0 as <- <- _|discriminate E0]);
    vm_compute sent; vm_compute received; cbn [length]; lia.
Qed.

(** The two kinds of message of the ping-pong. *)
Lemma pp_sends sz th r m :
  In (ASend m) (pp_trace sz th r) ->
  (r = O /\ m = pp_msg sz 0 1) \/ (r = 1%nat /\ m = pp_msg sz 1 0).
Proof.
  intros Hin. apply in_split in Hin as (l & rest & E).
  destruct (pp_round_position _ _ _ _ _ _ E) as (k & j & l0 & r0 & _ & ER & _);
    [eauto|].
  destruct r as [|[|r]]; cbn [pp_round] in ER.
  - at_position ER l0. injection ER as <- _. auto.
  - at_position ER l0. injection ER as _ <- _. auto.
  - destruct l0; discriminate ER.
Qed.

Lemma in_flight_two (n : list message) m1 m2 s1 d1 g1 s2 d2 g2 :
  env_eqb s1 d1 g1 m1 = true -> env_eqb s2 d2 g2 m1 = false ->
  env_eqb s1 d1 g1 m2 = false -> env_eqb s2 d2 g2 m2 = true ->
  (forall m, In m n -> m = m1 \/ m = m2) ->
  length n = (length (in_flight s1 d1 g1 n) + length (in_flight s2 d2 g2 n))%nat.
Proof.
  intros H11 H21 H12 H22. induction n as [|m n IH]; intros H; [reflexivity|].
  specialize (IH ltac:(intros m' Hm'; apply H; now right)).
  cbn [in_flight filter length].
  destruct (H m ltac:(now left)) as [-> | ->].
  - rewrite H11, H21. cbn [length]. unfold in_flight in IH. lia.
  - rewrite H12, H22. cbn [length]. unfold in_flight in IH. lia.
Qed.

(** The ping-pong is a strict alternation: at any moment of any run among
    two or more ranks at most one message is in flight, whatever the
    capacity of the transport, and it is either the buffer on its way from
    rank 0 to rank 1 or the buffer on its way back. *)
Theorem pingpong_one_in_flight (cap N : nat) (MSG_SIZE cell0 : Z) :
  0 <= MSG_SIZE -> (2 <= N)%nat ->
  forall c, reachable cap N (pingpong_main MSG_SIZE) cell0 c ->
    (length (net c) <= 1)%nat /\
    forall m, In m (net c) ->
      m = Msg 0 1 0 MPI_CHAR (repeat 0 (Z.to_nat MSG_SIZE)) \/
      m = Msg 1 0 0 MPI_CHAR (repeat 0 (Z.to_nat MSG_SIZE)).
Proof.
  intros Hsz HN c Hc.
  destruct (pp_invariant cap N MSG_SIZE cell0 c Hsz HN Hc) as [Hp _].
  assert (forall m, In m (net c) ->
            m = pp_msg MSG_SIZE 0 1 \/ m = pp_msg MSG_SIZE 1 0) as Hkinds.
  { intros m Hm.
    destruct (in_net_sent cap N (pingpong_main MSG_SIZE) cell0 c m Hc Hm)
      as (s & Hs & Hin).
    destruct (Hp s Hs) as (th & _ & Hpre).
    apply (prefix_in _ _ _ Hpre) in Hin.
    destruct (pp_sends _ _ _ _ Hin) as [[_ ->]|[_ ->]]; auto. }
  split; [|exact Hkinds].
  rewrite (in_flight_two (net c) (pp_msg MSG_SIZE 0 1) (pp_msg MSG_SIZE 1 0)
             0 1 0 1 0 0) by (reflexivity || assumption).
  pose proof (fifo_reachable cap N (pingpong_main MSG_SIZE) cell0 c Hc
                0%nat 1%nat 0) as F01.
  pose proof (fifo_reachable cap N (pingpong_main MSG_SIZE) cell0 c Hc
                1%nat 0%nat 0) as F10.
  apply (f_equal (@length message)) in F01, F10.
  rewrite length_app in F01, F10.
  destruct (Hp O ltac:(lia)) as (th0 & _ & Hp0).
  destruct (Hp 1%nat ltac:(lia)) as (th1 & _ & Hp1).
  pose proof (pp_balance MSG_SIZE th0 O (log c O) ltac:(lia) Hp0) as B0.
  pose proof (pp_balance MSG_SIZE th1 1%nat (log c 1%nat) ltac:(lia) Hp1) as B1.
  cbn [Nat.sub] in B0, B1.
  change (Z.of_nat 0) with 0 in *. change (Z.of_nat 1) with 1 in *.
  lia.
Qed.

Lemma pingpong_one_in_flight_witness :
  0 <= 8 /\ (2 <= 2)%nat /\
  exists c, reachable 1 2 (pingpong_main 8) 0 c /\ all_exited 2 c 0 /\
    (length (net c) <= 1)%nat.
Proof.
  assert (0 <= 8) as H8 by lia.
  assert (2 <= 2)%nat as H2 by lia.
  destruct (pp_completes 1 2 8 0 H8 H2 (PPEnv (zeros 8) 0%float 0%float)
              (zeros_length 8)) as (c & Hc & _ & He).
  destruct (pingpong_one_in_flight 1 2 8 0 H8 H2 c Hc) as [Hlen _].
  split; [assumption|]. split; [assumption|]. exists c. auto.
Defined.

(** ** The partner *)

(** Rank 1 echoes: when it has returned, its log is initialisation,
    allocation, a clock reading, exactly 10000 rounds of receiving the
    buffer from rank 0 and sending it back, a second clock reading,
    release and finalisation.  No rank other than rank 0 ever prints. *)
Theorem pingpong_echo (cap N : nat) (MSG_SIZE cell0 : Z) :
  0 <= MSG_SIZE -> (2 <= N)%nat ->
  forall c, reachable cap N (pingpong_main MSG_SIZE) cell0 c ->
    (forall v, exited c 1%nat v ->
       exists bytes t0 t1,
         log c 1%nat =
           [ACall CInit; AMalloc MSG_SIZE bytes; AWtime t0] ++
           concat (repeat
             [ARecv (Msg 0 1 0 MPI_CHAR (repeat 0 (Z.to_nat MSG_SIZE)));
              ASend (Msg 1 0 0 MPI_CHAR (repeat 0 (Z.to_nat MSG_SIZE)))]
             (Z.to_nat 10000)) ++
           [AWtime t1; ACall CFree; ACall CFinalize]) /\
    (forall r s fmt args, (1 <= r < N)%nat ->
       ~ In (ACall (CPrintf s fmt args)) (log c r)).
Proof.
  intros Hsz HN c Hc.
  destruct (pp_invariant cap N MSG_SIZE cell0 c Hsz HN Hc) as [Hp _].
  split.
  - intros v He. destruct (Hp 1%nat ltac:(lia)) as (th & Hth & Hpre).
    destruct (trace_exit cap N (pingpong_main MSG_SIZE) cell0
                (pp_trace MSG_SIZE th) (fun _ => Ret 0)
                (fun r _ => pp_follows MSG_SIZE th N r Hsz HN Hth)
                c 1%nat v Hc ltac:(lia) Hpre He) as [E _].
    exists (pp_bytes th), (pp_t0 th), (pp_t1 th). rewrite E. reflexivity.
  - intros r s fmt args Hr Hin. destruct (Hp r ltac:(lia)) as (th & _ & Hpre).
    apply (prefix_in _ _ _ Hpre) in Hin.
    destruct r as [|r]; [lia|]. unfold pp_trace in Hin.
    apply in_app_or in Hin as [Hin|Hin].
    + simpl in Hin. repeat (destruct Hin as [Hin|Hin]; try discriminate Hin).
      contradiction.
    + apply in_app_or in Hin as [Hin|Hin].
      * destruct (pp_rounds_kinds _ _ _ _ Hin) as [(m & [=] & _)|(m & [=] & _)].
      * simpl in Hin. repeat (destruct Hin as [Hin|Hin]; try discriminate Hin).
        contradiction.
Qed.

Lemma pingpong_echo_witness :
  0 <= 8 /\ (2 <= 2)%nat /\
  exists c, reachable 0 2 (pingpong_main 8) 0 c /\ exited c 1%nat 0 /\
    forall s fmt args, ~ In (ACall (CPrintf s fmt args)) (log c 1%nat).
Proof.
  assert (0 <= 8) as H8 by lia.
  assert (2 <= 2)%nat as H2 by lia.
  destruct (pp_completes 0 2 8 0 H8 H2 (PPEnv (zeros 8) 0%float 0%float)
              (zeros_length 8)) as (c & Hc & _ & He).
  destruct (pingpong_echo 0 2 8 0 H8 H2 c Hc) as [_ Hquiet].
  split; [assumption|]. split; [assumption|]. exists c.
  split; [assumption|]. split; [apply He; lia|].
  intros s fmt args. apply Hquiet. lia.
Defined.


(* ================================================================= *)
(** * The counter and the pointer to it *)

(** ** The counter at any moment *)

(** Every epoch but the first starts and ends with the counter at the
    number of some round. *)
Lemma race_later_values K size cell0 e :
  In e (tl (race_epochs K size cell0)) ->
  exists j j', (j <= Z.to_nat K)%nat /\ (j' <= Z.to_nat K)%nat /\
    e_in e = cnt j /\ e_out e = cnt j'.
Proof.
  unfold race_epochs, race_head. cbn [app tl In].
  intros [<-|[<-|He]]; [exists O, O; repeat split; lia..|].
  apply in_app_or in He as [He|He].
  - unfold race_rounds in He. apply in_concat in He as (l & Hl & He).
    apply in_map_iff in Hl as (j & <- & Hj). apply in_seq in Hj.
    cbn [race_iter In] in He. destruct He as [<-|[<-|[<-|[<-|[]]]]];
      cbn [e_in e_out]; [exists j, j|exists j, j|exists j, (S j)|exists (S j), (S j)];
      repeat split; lia.
  - cbn [race_tail In] in He. destruct He as [<-|[<-|[]]];
      exists (Z.to_nat K), (Z.to_nat K); repeat split; lia.
Qed.

(** Until rank 0 has initialised it, the counter holds whatever the
    memory held; from then on, at every moment of every run, it holds a
    value between 0 and the number of rounds [K]: never more, whatever the
    number of ranks that increment it. *)
Theorem race_counter_invariant (cap N : nat) (K cell0 : Z) :
  (1 <= N)%nat -> 0 <= K <= CInt.INT_MAX ->
  forall c, reachable cap N (race_prog K) cell0 c ->
    (~ In (AStore 0) (log c O) -> cell c = cell0) /\
    (In (AStore 0) (log c O) -> 0 <= cell c <= K).
Proof.
  intros HN HK c Hc.
  destruct (bsp_reachable cap N (race_prog K) cell0
              (race_epochs K (Z.of_nat N) cell0) (fun _ => Ret 0)
              HN (fun _ => ex_intro _ 0 eq_refl)
              (fun r0 _ => race_follows K N cell0 r0)
              (fun e => race_epochs_ok K N cell0 e HN)
              (race_epochs_linked K (Z.of_nat N) cell0)
              (race_start N K cell0) c Hc)
    as (done & cur & todo & lf & EEs & Hl & Hmem).
  destruct (Hl O HN) as [Elog Hpre].
  destruct done as [|d0 done].
  - (* the first epoch *)
    cbn [app] in EEs. unfold race_epochs, race_head in EEs. cbn [app] in EEs.
    injection EEs as <- _. cbn [e_in e_out e_seg] in *.
    change (base [] _ O) with (@nil act) in Elog. cbn [app] in Elog.
    split.
    + intros Hno. destruct Hmem as [[Hv _]|[_ (r & a & Hr & Ha & Hw)]];
        [assumption|]. exfalso.
      destruct (Hl r Hr) as [_ Hpr]. cbn [e_seg] in Hpr.
      pose proof (prefix_in _ _ _ Hpr Ha) as Ha'.
      destruct Ha' as [<-|Ha']; [discriminate Hw|].
      destruct (Z.eqb_spec (Z.of_nat r) 0) as [E0|]; [|contradiction].
      assert (r = O) as -> by lia.
      destruct Ha' as [<-|[<-|[]]]; [discriminate Hw|].
      apply Hno. now rewrite Elog.
    + intros Hin. rewrite Elog in Hin.
      destruct Hmem as [[_ Hnone]|[-> _]]; [|lia].
      specialize (Hnone O _ HN Hin). discriminate Hnone.
  - (* a later epoch *)
    assert (d0 = Epoch Barrier
              (fun r => ACall CInit ::
                 (if Z.of_nat r =? 0 then [ACall (CAllocMem sizeof_int); AStore 0]
                  else []))
              cell0 0) as ->.
    { unfold race_epochs, race_head in EEs. cbn [app] in EEs.
      now injection EEs as <- _. }
    assert (In (AStore 0) (log c O)) as Hst.
    { rewrite Elog. apply in_or_app. left. unfold base.
      cbn [flat e_col e_seg app tl Z.of_nat Z.eqb In]. auto. }
    split; [intros Hno; destruct (Hno Hst)|]. intros _.
    destruct (race_later_values K (Z.of_nat N) cell0 cur)
      as (j & j' & Hj & Hj' & Ein & Eout).
    { rewrite EEs. cbn [app tl]. apply in_elt. }
    rewrite cnt_small in Ein, Eout by lia.
    destruct Hmem as [[-> _]|[-> _]]; lia.
Qed.

Lemma race_counter_invariant_witness :
  (1 <= 3)%nat /\ 0 <= 1000 <= CInt.INT_MAX /\
  exists c, reachable 0 3 race_main 7 c /\ all_exited 3 c 0 /\
    (In (AStore 0) (log c O) -> 0 <= cell c <= 1000).
Proof.
  assert (1 <= 3)%nat as H3 by lia.
  assert (0 <= 1000 <= CInt.INT_MAX) as HK by (unfold CInt.INT_MAX; lia).
  destruct (race_run 0 3 NUM_INCREMENTS 7 H3) as (c & Hc & He & _).
  destruct (race_counter_invariant 0 3 1000 7 H3 HK c Hc) as [_ Hafter].
  split; [assumption|]. split; [assumption|]. exists c. auto.
Defined.

(** ** Who dereferences the pointer, and when *)

(** [*shared_counter] read or written. *)
Definition derefs (a : act) : Prop :=
  match a with
  | ALoad _ | AStore _ => True
  | _ => False
  end.

Lemma in_flat E r a :
  In a (flat E r) ->
  (exists x, a = ASync x) \/ exists e, In e E /\ In a (e_seg e r).
Proof.
  induction E as [|e E IH]; [contradiction|]. cbn [flat].
  intros [<-|H]; [eauto|].
  apply in_app_or in H as [H|H].
  - right. exists e. split; [now left|assumption].
  - destruct (IH H) as [Hs|(e' & He' & Ha)]; [auto|].
    right. exists e'. split; [now right|assumption].
Qed.

Lemma in_tl {X} (x : X) l : In x (tl l) -> In x l.
Proof. destruct l; simpl; auto. Qed.

(** What a rank other than 0 does inside an epoch touches neither the
    pointer nor the memory behind it. *)
Lemma race_seg_other K size cell0 e r a :
  In e (race_epochs K size cell0) -> (Z.of_nat r =? 0) = false ->
  In a (e_seg e r) ->
  ~ derefs a /\ a <> ACall (CAllocMem sizeof_int) /\ a <> ACall CFreeMem.
Proof.
  unfold race_epochs. intros He Hr Hin.
  apply in_app_or in He as [He|He]; [|apply in_app_or in He as [He|He]].
  - cbn [race_head In] in He. destruct He as [<-|[<-|[<-|[]]]];
      cbn [e_seg] in Hin; rewrite ?Hr in Hin; simpl in Hin;
      repeat (destruct Hin as [<-|Hin];
              [repeat split; (intros H; (exact H || discriminate H))|]);
      contradiction.
  - unfold race_rounds in He. apply in_concat in He as (l & Hl & He).
    apply in_map_iff in Hl as (j & <- & _).
    cbn [race_iter In] in He. destruct He as [<-|[<-|[<-|[<-|[]]]]];
      cbn [e_seg] in Hin; rewrite ?Hr, ?andb_false_r in Hin; simpl in Hin;
      repeat (destruct Hin as [<-|Hin];
              [repeat split; (intros H; (exact H || discriminate H))|]);
      contradiction.
  - cbn [race_tail In] in He. destruct He as [<-|[<-|[]]];
      cbn [e_seg] in Hin; rewrite ?Hr in Hin; simpl in Hin;
      repeat (destruct Hin as [<-|Hin];
              [repeat split; (intros H; (exact H || discriminate H))|]);
      contradiction.
Qed.

(** Rank 0's trace up to the release of the memory. *)
Definition race_before_free (K size : Z) : list act :=
  ([ACall CInit; ACall (CAllocMem sizeof_int); AStore 0;
    ASync WinCreate; ASync Barrier;
    ACall (CPrintf stdout "Process %d: Starting race condition test...\n"
             [AInt 0])] ++
   flat (race_rounds size 0 (Z.to_nat K)) O) ++
  ASync Barrier :: race_check_log K size (cnt (Z.to_nat K)) ++ [ASync WinFree].

Lemma race_trace_rank0_free K size cell0 :
  btrace (race_epochs K size cell0) O =
  race_before_free K size ++ [ACall CFreeMem; ACall CFinalize].
Proof.
  rewrite race_trace_rank0. unfold race_before_free.
  rewrite <- !app_assoc. cbn [app]. now rewrite <- !app_assoc.
Qed.

Lemma race_before_free_no_free K size :
  ~ In (ACall CFreeMem) (race_before_free K size).
Proof.
  unfold race_before_free. intros Hin.
  apply in_app_or in Hin as [Hin|Hin].
  - apply in_app_or in Hin as [Hin|Hin].
    + simpl in Hin. repeat (destruct Hin as [Hin|Hin]; try discriminate Hin).
      contradiction.
    + destruct (race_rounds_kinds _ _ _ _ _ Hin)
        as [[x [=]]|[[x [=]]|[[x [=]]|[[=]|[x [=]]]]]].
  - destruct Hin as [Hin|Hin]; [discriminate Hin|].
    apply in_app_or in Hin as [Hin|Hin].
    + unfold race_check_log in Hin. apply in_app_or in Hin as [Hin|Hin].
      * simpl in Hin. repeat (destruct Hin as [Hin|Hin]; try discriminate Hin).
        contradiction.
      * destruct (negb _); simpl in Hin;
          repeat (destruct Hin as [Hin|Hin]; try discriminate Hin); contradiction.
    + destruct Hin as [Hin|[]]. discriminate Hin.
Qed.

(** The pointer [shared_counter] is dereferenced by rank 0 only (on the
    other ranks it is [NULL]); only rank 0 allocates and releases the
    memory behind it; and whenever rank 0 reads or writes through it, the
    memory has been allocated and has not been released. *)
Theorem race_pointer_discipline (cap N : nat) (K cell0 : Z) :
  (1 <= N)%nat ->
  forall c, reachable cap N (race_prog K) cell0 c ->
    (forall r a, (r < N)%nat -> In a (log c r) ->
       derefs a \/ a = ACall (CAllocMem sizeof_int) \/ a = ACall CFreeMem ->
       r = O) /\
    (forall l1 a l2, log c O = l1 ++ a :: l2 -> derefs a ->
       In (ACall (CAllocMem sizeof_int)) l1 /\ ~ In (ACall CFreeMem) l1).
Proof.
  intros HN c Hc. split.
  - intros r a Hr Hin Ha.
    destruct (Z.eqb_spec (Z.of_nat r) 0) as [E|E]; [lia|]. exfalso.
    apply (prefix_in _ _ _ (race_prefix cap N K cell0 HN c r Hc Hr)) in Hin.
    apply in_tl, in_flat in Hin as [[x ->]|(e & He & Hin)].
    + destruct Ha as [[]|[[=]|[=]]].
    + destruct (race_seg_other K (Z.of_nat N) cell0 e r a He) as (H1 & H2 & H3);
        auto.
      * now apply Z.eqb_neq.
      * destruct Ha as [Ha|[Ha|Ha]]; auto.
  - intros l1 a l2 Elog Ha.
    destruct (race_prefix cap N K cell0 HN c O Hc HN) as [rest E].
    rewrite Elog, <- app_assoc in E. cbn [app] in E. split.
    + rewrite race_trace_rank0 in E. cbn [app] in E.
      destruct l1 as [|x [|y l1]]; cbn [app] in E.
      * injection E as <- _. destruct Ha.
      * injection E as _ <- _. destruct Ha.
      * injection E as _ <- _. right. now left.
    + rewrite race_trace_rank0_free in E. intros Hfree.
      destruct (app_split_mid _ _ _ _ _ E) as [(r0 & E0 & _)|(l1' & -> & E1)].
      * apply (race_before_free_no_free K (Z.of_nat N)). rewrite E0.
        apply in_or_app. now left.
      * assert (In a [ACall CFreeMem; ACall CFinalize]) as Hin
          by (rewrite E1; apply in_middle).
        destruct Hin as [<-|[<-|[]]]; destruct Ha.
Qed.

Lemma race_pointer_discipline_witness :
  (1 <= 2)%nat /\
  exists c, reachable 0 2 race_main 0 c /\ all_exited 2 c 0 /\
    forall v, ~ In (ALoad v) (log c 1%nat).
Proof.
  assert (1 <= 2)%nat as H2 by lia.
  destruct (race_run 0 2 NUM_INCREMENTS 0 H2) as (c & Hc & He & _).
  destruct (race_pointer_discipline 0 2 NUM_INCREMENTS 0 H2 c Hc) as [Honly _].
  split; [assumption|]. exists c. split; [assumption|]. split; [assumption|].
  intros v Hin.
  assert (1%nat = O) as E by (apply (Honly 1%nat (ALoad v)); simpl; auto).
  discriminate E.
Defined.

(* ================================================================= *)
(** * [MPI_Init] first, [MPI_Finalize] last *)

(** A trace that opens with [MPI_Init], closes with [MPI_Finalize] and
    calls neither in between. *)
Definition framed (T : list act) : Prop :=
  exists M, T = ACall CInit :: M ++ [ACall CFinalize] /\
            forall a, In a M -> a <> ACall CInit /\ a <> ACall CFinalize.

(** What the log of rank [r] shows of it at any moment of a run: the
    first entry is [MPI_Init], which occurs nowhere else; nothing follows
    [MPI_Finalize]; a rank that has returned has finalised. *)
Definition init_first_finalize_last (c : config) (r : nat) : Prop :=
  (forall a l, log c r = a :: l -> a = ACall CInit) /\
  (forall l1 l2, log c r = l1 ++ ACall CInit :: l2 -> l1 = []) /\
  (forall l1 l2, log c r = l1 ++ ACall CFinalize :: l2 -> l2 = []) /\
  (forall v, exited c r v -> exists l, log c r = l ++ [ACall CFinalize]).

Lemma framed_prefix T l :
  framed T -> prefix l T ->
  (forall a l', l = a :: l' -> a = ACall CInit) /\
  (forall l1 l2, l = l1 ++ ACall CInit :: l2 -> l1 = []) /\
  (forall l1 l2, l = l1 ++ ACall CFinalize :: l2 -> l2 = []).
Proof.
  intros (M & -> & HM) [rest E]. split; [|split].
  - intros a l' ->. cbn [app] in E. now injection E as <- _.
  - intros l1 l2 ->. destruct l1 as [|b l1]; [reflexivity|]. exfalso.
    rewrite <- app_assoc in E. cbn [app] in E. injection E as _ E.
    assert (In (ACall CInit) (M ++ [ACall CFinalize])) as Hin
      by (rewrite E; apply in_middle).
    apply in_app_or in Hin as [Hin|[Hin|[]]]; [|discriminate Hin].
    now apply HM in Hin.
  - intros l1 l2 ->. destruct l2 as [|b l2]; [reflexivity|]. exfalso.
    rewrite <- app_assoc in E.
    destruct (exists_last (l := (b :: l2) ++ rest)) as (Y & y & EY);
      [intros E0; discriminate E0|].
    change ((ACall CFinalize :: b :: l2) ++ rest)
      with (ACall CFinalize :: ((b :: l2) ++ rest)) in E.
    rewrite EY in E.
    change (ACall CInit :: M ++ [ACall CFinalize])
      with ((ACall CInit :: M) ++ [ACall CFinalize]) in E.
    rewrite app_comm_cons, app_assoc in E.
    apply app_inj_tail in E as [E _].
    assert (In (ACall CFinalize) (ACall CInit :: M)) as Hin
      by (rewrite E; apply in_middle).
    destruct Hin as [Hin|Hin]; [discriminate Hin|].
    now apply HM in Hin.
Qed.

(** A rank whose log is a prefix of a framed trace that its code follows. *)
Lemma framed_log cap N main cell0 T q c r :
  reachable cap N main cell0 c ->
  follows r (main (Z.of_nat r) (Z.of_nat N)) T q ->
  prefix (log c r) T -> framed T ->
  init_first_finalize_last c r.
Proof.
  intros Hc HT Hp HF.
  destruct (framed_prefix T (log c r) HF Hp) as (H1 & H2 & H3).
  split; [exact H1|]. split; [exact H2|]. split; [exact H3|].
  intros v He. unfold exited in He.
  pose proof (replay_log _ _ _ _ _ Hc r) as Hrep. rewrite He in Hrep.
  rewrite (follows_done _ _ _ _ _ _ HT Hrep Hp).
  destruct HF as (M & -> & _). now exists (ACall CInit :: M).
Qed.

Ltac scan_frame H :=
  repeat (destruct H as [<-|H];
          [split; (let E := fresh in intros E; discriminate E)|]);
  try contradiction.

Lemma ring_framed N r : framed (ring_trace N r).
Proof.
  destruct r; (eexists [_; _; _]; split; [reflexivity|]);
    intros a Ha; cbn [In] in Ha; scan_frame Ha.
Qed.

Lemma pingpong_alone_framed : framed pingpong_alone.
Proof.
  eexists [_]; split; [reflexivity|].
  intros a Ha; cbn [In] in Ha; scan_frame Ha.
Qed.

Lemma deadlock_refusal_framed r : framed (deadlock_refusal r).
Proof.
  destruct r; [eexists [_]|exists []]; (split; [reflexivity|]);
    intros a Ha; cbn [In] in Ha; scan_frame Ha.
Qed.

Lemma deadlock_framed r : framed (deadlock_trace r).
Proof.
  destruct r; (eexists [_; _; _; _; _; _; _; _; _]; split; [reflexivity|]);
    intros a Ha; cbn [In] in Ha; scan_frame Ha.
Qed.

Lemma pp_framed sz th r : framed (pp_trace sz th r).
Proof.
  exists ([AMalloc sz (pp_bytes th); AWtime (pp_t0 th)] ++
          pp_rounds sz r (Z.to_nat iters) ++
          AWtime (pp_t1 th) :: pp_report sz th r ++ [ACall CFree]).
  split.
  - unfold pp_trace, pp_pre, pp_post. cbn [app].
    rewrite <- !app_assoc. cbn [app]. rewrite <- !app_assoc. reflexivity.
  - intros a Ha. cbn [app] in Ha.
    destruct Ha as [<-|[<-|Ha]];
      [split; (let E := fresh in intros E; discriminate E)..|].
    apply in_app_or in Ha as [Ha|Ha].
    + unfold pp_rounds in Ha. apply in_concat in Ha as (l & Hl & Ha).
      apply repeat_spec in Hl. subst l.
      destruct r as [|[|r]]; cbn [pp_round In] in Ha; scan_frame Ha.
    + destruct Ha as [<-|Ha];
        [split; (let E := fresh in intros E; discriminate E)|].
      apply in_app_or in Ha as [Ha|Ha].
      * destruct r; cbn [pp_report In] in Ha; scan_frame Ha.
      * cbn [In] in Ha; scan_frame Ha.
Qed.

Lemma race_framed K size cell0 r : framed (btrace (race_epochs K size cell0) r).
Proof.
  exists ((if Z.of_nat r =? 0 then [ACall (CAllocMem sizeof_int); AStore 0]
           else []) ++
          flat (tl (race_head cell0) ++ race_rounds size 0 (Z.to_nat K) ++
                removelast (race_tail K size)) r ++
          ASync WinFree ::
          (if Z.of_nat r =? 0 then [ACall CFreeMem] else [])).
  split.
  - unfold btrace, race_epochs. rewrite !flat_app.
    unfold race_head, race_tail.
    cbn [flat tl removelast e_col e_seg app].
    rewrite ?app_nil_r. repeat (rewrite <- !app_assoc; cbn [app]).
    reflexivity.
  - intros a Ha.
    assert (forall b, In b (if Z.of_nat r =? 0
                            then [ACall (CAllocMem sizeof_int); AStore 0]
                            else []) ->
                      b <> ACall CInit /\ b <> ACall CFinalize) as H0
      by (intros b Hb; destruct (Z.of_nat r =? 0); cbn [In] in Hb;
          scan_frame Hb).
    assert (forall b, In b (if Z.of_nat r =? 0 then [ACall CFreeMem] else []) ->
                      b <> ACall CInit /\ b <> ACall CFinalize) as H1
      by (intros b Hb; destruct (Z.of_nat r =? 0); cbn [In] in Hb;
          scan_frame Hb).
    apply in_app_or in Ha as [Ha|Ha]; [now apply H0|].
    apply in_app_or in Ha as [Ha|Ha];
      [|destruct Ha as [<-|Ha]; [split; intros E; discriminate E|now apply H1]].
    apply in_flat in Ha as [[x ->]|(e & He & Ha)];
      [split; intros E; discriminate E|].
    apply in_app_or in He as [He|He]; [|apply in_app_or in He as [He|He]].
    + cbn [race_head tl In] in He. destruct He as [<-|[<-|[]]];
        cbn [e_seg In] in Ha; scan_frame Ha.
    + unfold race_rounds in He. apply in_concat in He as (l & Hl & He).
      apply in_map_iff in Hl as (j & <- & _).
      cbn [race_iter In] in He. destruct He as [<-|[<-|[<-|[<-|[]]]]];
        cbn [e_seg] in Ha;
        try (destruct ((cnt j %! 100 =? 0) && (Z.of_nat r =? 0)));
        cbn [In] in Ha; scan_frame Ha.
    + cbn [race_tail removelast In] in He. destruct He as [<-|[]].
      cbn [e_seg] in Ha. destruct (Z.of_nat r =? 0); [|contradiction].
      unfold race_check_log in Ha. apply in_app_or in Ha as [Ha|Ha].
      * cbn [In] in Ha; scan_frame Ha.
      * destruct (negb _); cbn [In] in Ha; scan_frame Ha.
Qed.

(** In each of the four programs, with any number of ranks, under any
    schedule and any capacity of the transport, every rank calls
    [MPI_Init] before anything else and only once, does nothing after
    [MPI_Finalize], and has called [MPI_Finalize] as its last action when
    it returns; the paths that refuse to run (too few ranks for the
    ping-pong, not exactly two for the deadlock example) finalise as
    well. *)
Theorem mpi_init_finalize_discipline (cap N : nat) (cell0 MSG_SIZE K : Z) c r :
  (r < N)%nat ->
  (reachable cap N ring_main cell0 c -> Z.of_nat N <= CInt.INT_MAX ->
     init_first_finalize_last c r) /\
  (reachable cap N (pingpong_main MSG_SIZE) cell0 c -> 0 <= MSG_SIZE ->
     init_first_finalize_last c r) /\
  (reachable cap N deadlock_main cell0 c -> init_first_finalize_last c r) /\
  (reachable cap N (race_prog K) cell0 c -> init_first_finalize_last c r).
Proof.
  intros Hr. assert (1 <= N)%nat as H1 by lia.
  split; [|split; [|split]].
  - intros Hc HN.
    apply (framed_log cap N ring_main cell0 (ring_trace N r) (Ret 0) c r Hc).
    + apply ring_follows.
    + now apply (ring_prefix cap N cell0 c H1 HN Hc).
    + apply ring_framed.
  - intros Hc Hsz. destruct (Nat.lt_ge_cases N 2) as [Hlt|Hge].
    + assert (N = 1%nat) as -> by lia. assert (r = O) as -> by lia.
      apply (framed_log cap 1 (pingpong_main MSG_SIZE) cell0 pingpong_alone
               (Ret 1) c O Hc).
      * now apply pingpong_alone_follows.
      * now apply (pingpong_alone_prefix cap MSG_SIZE cell0 c Hc).
      * apply pingpong_alone_framed.
    + destruct (pp_invariant cap N MSG_SIZE cell0 c Hsz Hge Hc) as [Hp _].
      destruct (Hp r Hr) as (th & Hth & Hpre).
      apply (framed_log cap N (pingpong_main MSG_SIZE) cell0
               (pp_trace MSG_SIZE th r) (Ret 0) c r Hc).
      * now apply pp_follows.
      * exact Hpre.
      * apply pp_framed.
  - intros Hc. destruct (Nat.eq_dec N 2) as [->|HN].
    + apply (framed_log cap 2 deadlock_main cell0 (deadlock_trace r) (Ret 0)
               c r Hc).
      * now apply deadlock_follows.
      * now apply (deadlock_prefix cap cell0 c Hc).
      * apply deadlock_framed.
    + pose proof (fun r (_ : (r < N)%nat) => deadlock_refusal_follows N r HN)
        as Hfol.
      assert (forall r : nat, halted (Ret 1)) as Hhalt
        by (intros _; now exists 1).
      pose proof (fun r a (_ : (r < N)%nat) => deadlock_refusal_calls r a)
        as Hcalls.
      destruct (calls_only_invariant cap N deadlock_main cell0 deadlock_refusal
                  (fun _ => Ret 1) Hfol Hhalt Hcalls c Hc) as [Hp _].
      apply (framed_log cap N deadlock_main cell0 (deadlock_refusal r) (Ret 1)
               c r Hc).
      * now apply deadlock_refusal_follows.
      * now apply Hp.
      * apply deadlock_refusal_framed.
  - intros Hc.
    apply (framed_log cap N (race_prog K) cell0
             (btrace (race_epochs K (Z.of_nat N) cell0) r) (Ret 0) c r Hc).
    + apply race_follows.
    + now apply (race_prefix cap N K cell0 H1 c r Hc).
    + apply race_framed.
Qed.

Lemma mpi_init_finalize_discipline_witness :
  exists c, (0 < 3)%nat /\ reachable 0 3 deadlock_main 0 c /\
    exited c 0%nat 1 /\ exists l, log c O = l ++ [ACall CFinalize].
Proof.
  destruct deadlock_three_ranks as (c & Hc & He).
  assert (0 < 3)%nat as H03 by lia.
  destruct (mpi_init_finalize_discipline 0 3 0 8 NUM_INCREMENTS c 0%nat H03)
    as (_ & _ & Hd & _).
  destruct (Hd Hc) as (_ & _ & _ & Hfin).
  exists c. split; [assumption|]. split; [assumption|]. split; [assumption|].
  exact (Hfin 1 He).
Defined.
